(** * skewserver: the STOMP frame parser (package [parsing])

    A shallow embedding of [src/parsing/parsing.go] together with the two
    things it runs on in the test-suite: Go's [bufio.Reader] (the
    [ReadPeeker] that [NewStompParserFromReader] installs) and the
    [mockTCPStream] of [src/parsing/parsing_test.go], which hands the
    stream over in reads of 1, 8, 32, 12, 5, 2, 1, 8, ... bytes. *)

From Stdlib Require Import Strings.Byte.
From stdpp Require Import gmap strings list.

Open Scope string_scope.
Open Scope nat_scope.
Open Scope list_scope.
Open Scope stdpp_scope.

(** ** Bytes and strings *)

#[global] Instance byte_eq_dec : EqDecision byte := Byte.byte_eq_dec.

Definition NUL : byte := x00.   (* '\x00' *)
Definition LF : byte := x0a.    (* '\n' *)
Definition CR : byte := x0d.    (* '\r' *)
Definition COLON : byte := x3a. (* ':' *)

(** Go's conversions [string(b)] and [[]byte(s)]: a Go string is its bytes. *)
Abbreviation string_of_bytes := String.string_of_list_byte.
Abbreviation bytes_of_string := String.list_byte_of_string.

(** ** Errors *)

(** The values of Go's [error] that occur: [io.EOF], the two errors
    [bufio.Reader] can make up itself, and the package's [ParseError]. *)
Inductive error : Type :=
| io_EOF
| io_ErrNoProgress
| bufio_ErrBufferFull
| ParseError (message : string).

#[global] Instance error_eq_dec : EqDecision error.
Proof. solve_decision. Defined.

Definition Error (e : error) : string :=
  match e with
  | ParseError message => "Failed trying to parse STOMP frame: " +:+ message
  | io_EOF => "EOF"
  | io_ErrNoProgress => "multiple Read calls return no data or error"
  | bufio_ErrBufferFull => "bufio: buffer full"
  end.

(** [err != nil] *)
Definition is_err (e : option error) : bool :=
  match e with Some _ => true | None => false end.

(** ** io.Reader *)

(** [Read(p)] for a destination slice of [len_p] bytes: the bytes written to
    the front of [p], the count [n] the call reports, its error, and the
    reader afterwards. *)
Class Reader (Src : Type) : Type :=
  Read : Src → nat → (list byte * nat * option error) * Src.

(** *** The test-suite's transport, [mockTCPStream]

    [currentByte] and [readNo] are Go [int]s that only count up from zero;
    they are natural numbers here. *)

Definition READ_SIZES_BYTES : list nat := [1; 8; 32; 12; 5; 2].

Record mockTCPStream : Type := {
  streamData : list byte;
  currentByte : nat;
  readNo : nat
}.

Definition mock_min (x y : nat) : nat := if x <? y then x else y.

Definition mock_Read (mock : mockTCPStream) (len_p : nat)
  : (list byte * nat * option error) * mockTCPStream :=
  let readSize :=
    nth (readNo mock mod length READ_SIZES_BYTES) READ_SIZES_BYTES 0 in
  let bytesLeft := length (streamData mock) - currentByte mock in
  let bytesToRead := mock_min readSize bytesLeft in
  let streamStart := currentByte mock in
  let streamEnd := currentByte mock + bytesToRead in
  (* copy(p, mock.streamData[streamStart:streamEnd]) *)
  let written :=
    take len_p (drop streamStart (take streamEnd (streamData mock))) in
  let mock' := {| streamData := streamData mock;
                  currentByte := currentByte mock + bytesToRead;
                  readNo := readNo mock + 1 |} in
  let n := bytesToRead in
  let err := if currentByte mock' =? length (streamData mock)
             then Some io_EOF else None in
  ((written, n, err), mock').

#[global] Instance mockTCPStream_Reader : Reader mockTCPStream := mock_Read.

(** [mockTCPStream{streamData: testData}] *)
Definition mockTCPStream_of (testData : list byte) : mockTCPStream :=
  {| streamData := testData; currentByte := 0; readNo := 0 |}.

(** *** An unchunked transport

    The source the chunked one is compared with: every [Read] hands over
    all that is left, as far as the destination slice holds it, and a
    [Read] that finds nothing left reports [io.EOF] (the behaviour of Go's
    in-memory readers). *)
Record unchunkedStream : Type := {
  wholeData : list byte;
  wholePos : nat
}.

Definition unchunked_Read (r : unchunkedStream) (len_p : nat)
  : (list byte * nat * option error) * unchunkedStream :=
  if length (wholeData r) <=? wholePos r then (([], 0, Some io_EOF), r)
  else
    let written := take len_p (drop (wholePos r) (wholeData r)) in
    ((written, length written, None),
     {| wholeData := wholeData r; wholePos := wholePos r + length written |}).

#[global] Instance unchunkedStream_Reader : Reader unchunkedStream :=
  unchunked_Read.

Definition unchunkedStream_of (data : list byte) : unchunkedStream :=
  {| wholeData := data; wholePos := 0 |}.

(** ** bufio.Reader

    Go's buffered reader, as far as [Peek] and [ReadByte] go.  [buf] stands
    for the unread part [b.buf[b.r:b.w]] of the 4096-byte buffer; sliding
    that part to the front of the buffer (the first step of [fill]) leaves
    it as it is, and leaves [defaultBufSize - length buf] bytes of room
    behind it. *)

Definition defaultBufSize : nat := 4096.
Definition maxConsecutiveEmptyReads : nat := 100.

Record bufioReader (Src : Type) : Type := {
  buf : list byte;
  rd : Src;
  err : option error
}.
Arguments buf {Src} _.
Arguments rd {Src} _.
Arguments err {Src} _.

Section Bufio.
Context {Src : Type} `{Reader Src}.

Definition NewReader (reader : Src) : bufioReader Src :=
  {| buf := []; rd := reader; err := None |}.

(** The read loop of [fill]: up to [i] reads, until one brings data or an
    error. *)
Fixpoint fill_reads (i : nat) (b : bufioReader Src) : bufioReader Src :=
  match i with
  | 0 => {| buf := buf b; rd := rd b; err := Some io_ErrNoProgress |}
  | S i' =>
      let '((written, n, e), rd') :=
        Read (rd b) (defaultBufSize - length (buf b)) in
      (* b.w += n *)
      let b' := {| buf := buf b ++ written; rd := rd'; err := err b |} in
      match e with
      | Some _ => {| buf := buf b'; rd := rd b'; err := e |}
      | None => if 0 <? n then b' else fill_reads i' b'
      end
  end.

Definition fill (b : bufioReader Src) : bufioReader Src :=
  fill_reads maxConsecutiveEmptyReads b.

(** [readErr]: hand the pending error over and forget it. *)
Definition readErr (b : bufioReader Src) : option error * bufioReader Src :=
  (err b, {| buf := buf b; rd := rd b; err := None |}).

(** The loop of [Peek]: fill while fewer than [n] bytes are buffered, the
    buffer is not full and no error is pending.  Every [fill] brings a byte
    or an error, so [n] rounds are enough ([bufio_Peek_filled] below). *)
Fixpoint Peek_fill (rounds n : nat) (b : bufioReader Src) : bufioReader Src :=
  match rounds with
  | 0 => b
  | S rounds' =>
      if (length (buf b) <? n) && (length (buf b) <? defaultBufSize)
         && negb (is_err (err b))
      then Peek_fill rounds' n (fill b)
      else b
  end.

Definition bufio_Peek (n : nat) (b : bufioReader Src)
  : (list byte * option error) * bufioReader Src :=
  let b := Peek_fill n n b in
  if defaultBufSize <? n then ((buf b, Some bufio_ErrBufferFull), b)
  else if length (buf b) <? n then
    (* not enough data in buffer *)
    let '(e, b') := readErr b in
    ((buf b, if is_err e then e else Some bufio_ErrBufferFull), b')
  else ((take n (buf b), None), b).

(** [ReadByte]: the loop [for b.r == b.w] runs at most twice, a [fill]
    leaving a byte or an error behind. *)
Definition bufio_ReadByte (b : bufioReader Src)
  : (byte * option error) * bufioReader Src :=
  match buf b with
  | c :: rest => ((c, None), {| buf := rest; rd := rd b; err := err b |})
  | [] =>
      if is_err (err b) then let '(e, b') := readErr b in ((x00, e), b')
      else
        let b1 := fill b in
        match buf b1 with
        | c :: rest =>
            ((c, None), {| buf := rest; rd := rd b1; err := err b1 |})
        | [] => let '(e, b') := readErr b1 in ((x00, e), b')
        end
  end.

End Bufio.

Arguments fill : simpl never.
Arguments bufio_Peek : simpl never.
Arguments bufio_ReadByte : simpl never.

(** ** The parser's view of its stream: [ReadPeeker]

    [UnreadByte] is part of the Go interface but the parser never calls
    it; the two methods it does call are kept. *)
Class ReadPeeker (R : Type) : Type := {
  ReadByte : R → (byte * option error) * R;
  Peek : nat → R → (list byte * option error) * R
}.

#[global] Instance bufioReader_ReadPeeker {Src : Type} `{Reader Src}
  : ReadPeeker (bufioReader Src) :=
  {| ReadByte := bufio_ReadByte; Peek := bufio_Peek |}.

(** ** Frames, commands, tokens *)

(** [CommandType] is a Go [int]; the constants are 1 to 15 and the zero
    value is none of them. *)
Abbreviation CommandType := Z (only parsing).

Definition SEND : CommandType := 1.
Definition SUBSCRIBE : CommandType := 2.
Definition UNSUBSCRIBE : CommandType := 3.
Definition BEGIN : CommandType := 4.
Definition COMMIT : CommandType := 5.
Definition ABORT : CommandType := 6.
Definition ACK : CommandType := 7.
Definition NACK : CommandType := 8.
Definition DISCONNECT : CommandType := 9.
Definition CONNECT : CommandType := 10.
Definition STOMP : CommandType := 11.
Definition CONNECTED : CommandType := 12.
Definition MESSAGE : CommandType := 13.
Definition RECEIPT : CommandType := 14.
Definition ERROR : CommandType := 15.

(** The table [commands], in the order of the source. *)
Definition command_table : list (string * CommandType) :=
  [ ("SEND", SEND); ("SUBSCRIBE", SUBSCRIBE); ("UNSUBSCRIBE", UNSUBSCRIBE);
    ("BEGIN", BEGIN); ("COMMIT", COMMIT); ("ABORT", ABORT); ("ACK", ACK);
    ("NACK", NACK); ("DISCONNECT", DISCONNECT); ("CONNECT", CONNECT);
    ("STOMP", STOMP); ("CONNECTED", CONNECTED); ("MESSAGE", MESSAGE);
    ("RECEIPT", RECEIPT); ("ERROR", ERROR) ].

Definition commands : gmap string CommandType := list_to_map command_table.

(** [commands[s]]: indexing a Go map gives the zero value for a key that is
    not there. *)
Definition commands_at (s : string) : CommandType := default 0%Z (commands !! s).

Record Frame : Type := {
  Command : CommandType;
  Headers : gmap string string;
  Body : list byte
}.

(** [Frame{}].  A nil map and an empty map, a nil slice and an empty slice
    are not told apart. *)
Definition Frame_zero : Frame := {| Command := 0%Z; Headers := ∅; Body := [] |}.

Inductive TokenType : Type :=
| NULL_TOKEN | COMMAND | HEADER_KEY | HEADER_VALUE | BODY | DELIMITER
| INVALID_TOKEN.

#[global] Instance TokenType_eq_dec : EqDecision TokenType.
Proof. solve_decision. Defined.

(** [TerminatorType], with the zero value a variable of the type starts at. *)
Inductive TerminatorType : Type :=
| NO_TERMINATOR | EOL | HEADER_SEPARATOR.

#[global] Instance TerminatorType_eq_dec : EqDecision TerminatorType.
Proof. solve_decision. Defined.

Definition isCommand (literal : list byte) : bool :=
  bool_decide (is_Some (commands !! string_of_bytes literal)).

(** ** The parser *)

Record StompParser (R : Type) : Type := {
  stream : R;
  reachedEOF : bool;
  frameJustEnded : bool
}.
Arguments stream {R} _.
Arguments reachedEOF {R} _.
Arguments frameJustEnded {R} _.

Definition NewStompParserFromReader {Src : Type} `{Reader Src} (reader : Src)
  : StompParser (bufioReader Src) :=
  {| stream := NewReader reader; reachedEOF := false; frameJustEnded := false |}.

(** The methods of [*StompParser] are state transformers.  A computation
    has no result ([None]) when a loop of the model is cut off by its fuel,
    or where Go would panic on an index out of range. *)
Definition M (R A : Type) : Type := StompParser R → option (A * StompParser R).

Definition ret {R A} (a : A) : M R A := λ parser, Some (a, parser).

Definition bind {R A B} (c : M R A) (k : A → M R B) : M R B :=
  λ parser,
    match c parser with
    | Some (a, parser') => k a parser'
    | None => None
    end.

Definition fail {R A} : M R A := λ _, None.

Notation "'let*' x ':=' c 'in' k" := (bind c (λ x, k))
  (at level 10, x pattern, c at level 100, k at level 200,
   format "'[v' 'let*'  x  ':='  c  'in' '/' k ']'").
Notation "c '>>' k" := (bind c (λ _, k))
  (at level 100, k at level 200, right associativity).

Section Parser.
Context {R : Type} `{ReadPeeker R}.

Definition get_reachedEOF : M R bool := λ parser, Some (reachedEOF parser, parser).
Definition get_frameJustEnded : M R bool :=
  λ parser, Some (frameJustEnded parser, parser).

(** [parser.reachedEOF = true] *)
Definition set_reachedEOF : M R unit :=
  λ parser, Some (tt, {| stream := stream parser; reachedEOF := true;
                         frameJustEnded := frameJustEnded parser |}).

(** [parser.frameJustEnded = v] *)
Definition set_frameJustEnded (v : bool) : M R unit :=
  λ parser, Some (tt, {| stream := stream parser;
                         reachedEOF := reachedEOF parser;
                         frameJustEnded := v |}).

(** [parser.stream.Peek(n)] *)
Definition stream_Peek (n : nat) : M R (list byte * option error) :=
  λ parser,
    let '(res, s) := Peek n (stream parser) in
    Some (res, {| stream := s; reachedEOF := reachedEOF parser;
                  frameJustEnded := frameJustEnded parser |}).

(** [parser.stream.ReadByte()] *)
Definition stream_ReadByte : M R (byte * option error) :=
  λ parser,
    let '(res, s) := ReadByte (stream parser) in
    Some (res, {| stream := s; reachedEOF := reachedEOF parser;
                  frameJustEnded := frameJustEnded parser |}).

(** [peekBytes[i]] *)
Definition index (peekBytes : list byte) (i : nat) : M R byte :=
  match peekBytes !! i with
  | Some c => ret c
  | None => fail
  end.

Definition scanEOL : M R bool :=
  let* (peekBytes, err) := stream_Peek 2 in
  if is_err err then
    set_reachedEOF >> ret false
  else
    let* first := index peekBytes 0 in
    if bool_decide (first = LF) then
      stream_ReadByte >> ret true
    else if bool_decide (peekBytes = [CR; LF]) then
      stream_ReadByte >> stream_ReadByte >> ret true
    else ret false.

Fixpoint skipEOLs (fuel : nat) : M R unit :=
  match fuel with
  | 0 => fail
  | S fuel' =>
      let* found := scanEOL in
      if negb found then ret tt else skipEOLs fuel'
  end.

Definition scanHeaderSeparator : M R bool :=
  let* (peekBytes, err) := stream_Peek 1 in
  if is_err err then
    set_reachedEOF >> ret false
  else
    let* first := index peekBytes 0 in
    if bool_decide (first = COLON) then ret true else ret false.

Fixpoint scanTillDelimiter_from (fuel : nat) (literal : list byte)
  : M R (list byte) :=
  match fuel with
  | 0 => fail
  | S fuel' =>
      let* (peekBytes, err) := stream_Peek 1 in
      if is_err err then
        set_reachedEOF >> ret literal
      else
        let* first := index peekBytes 0 in
        if bool_decide (first = NUL) then ret literal
        else
          let* (currentByte, err) := stream_ReadByte in
          if is_err err then
            set_reachedEOF >> ret literal
          else scanTillDelimiter_from fuel' (literal ++ [currentByte])
  end.

Definition scanTillDelimiter (fuel : nat) : M R (list byte) :=
  scanTillDelimiter_from fuel [].

(** The loop of [scanTillTerminator], entered with the literal and the
    terminator found so far. *)
Fixpoint scanTillTerminator_from (fuel : nat) (literal : list byte)
    (term : TerminatorType) : M R (list byte * TerminatorType) :=
  let* reached := get_reachedEOF in
  if bool_decide (term = NO_TERMINATOR) && negb reached then
    match fuel return M R (list byte * TerminatorType) with
    | 0 => fail
    | S fuel' =>
        let* foundEOL := scanEOL in
        if foundEOL then scanTillTerminator_from fuel' literal EOL
        else
          let* foundSeparator := scanHeaderSeparator in
          if foundSeparator then
            scanTillTerminator_from fuel' literal HEADER_SEPARATOR
          else
            let* (currentByte, err) := stream_ReadByte in
            if is_err err then
              (* the [break] leaves the [switch], not the loop *)
              set_reachedEOF >> scanTillTerminator_from fuel' literal term
            else scanTillTerminator_from fuel' (literal ++ [currentByte]) term
    end
  else ret (literal, term).

Definition scanTillTerminator (fuel : nat) : M R (list byte * TerminatorType) :=
  scanTillTerminator_from fuel [] NO_TERMINATOR.

Definition nextToken (fuel : nat) : M R (TokenType * list byte) :=
  let* justEnded := get_frameJustEnded in
  (if justEnded then skipEOLs fuel >> set_frameJustEnded false else ret tt) >>
  let* (peekBytes, err) := stream_Peek 1 in
  if is_err err then
    set_reachedEOF >> ret (NULL_TOKEN, [])
  else
    let* currentByte := index peekBytes 0 in
    if bool_decide (currentByte = NUL) then
      stream_ReadByte >>
      set_frameJustEnded true >>
      ret (DELIMITER, [currentByte])
    else if bool_decide (currentByte = CR) || bool_decide (currentByte = LF) then
      let* foundEOL := scanEOL in
      if foundEOL then
        let* tokLiteral := scanTillDelimiter fuel in
        ret (BODY, tokLiteral)
      else ret (INVALID_TOKEN, [])
    else if bool_decide (currentByte = COLON) then
      stream_ReadByte >>
      let* (tokLiteral, terminator) := scanTillTerminator fuel in
      if bool_decide (terminator = EOL) then ret (HEADER_VALUE, tokLiteral)
      else ret (INVALID_TOKEN, tokLiteral)
    else
      let* (tokLiteral, terminator) := scanTillTerminator fuel in
      if isCommand tokLiteral && bool_decide (terminator = EOL) then
        ret (COMMAND, tokLiteral)
      else if bool_decide (terminator = HEADER_SEPARATOR) then
        ret (HEADER_KEY, tokLiteral)
      else ret (INVALID_TOKEN, tokLiteral).

(** The header loop of [NextFrame], entered with the token just fetched and
    the headers so far; it ends with the first token that is no header key
    and the headers, or with the error [NextFrame] returns from inside it.
    [rounds] bounds the number of header lines. *)
Fixpoint NextFrame_headers (fuel rounds : nat) (tok : TokenType * list byte)
    (headers : gmap string string)
  : M R (error + (TokenType * list byte) * gmap string string) :=
  let '(tokType, tokLiteral) := tok in
  if bool_decide (tokType = HEADER_KEY) then
    match rounds
    return M R (error + (TokenType * list byte) * gmap string string) with
    | 0 => fail
    | S rounds' =>
        let header_key := string_of_bytes tokLiteral in
        let* (tokType, tokLiteral) := nextToken fuel in
        let* reached := get_reachedEOF in
        if bool_decide (tokType ≠ HEADER_VALUE) && negb reached then
          ret (inl (ParseError "Headers must have values"))
        else
          let header_value := string_of_bytes tokLiteral in
          let headers := <[header_key := header_value]> headers in
          let* tok := nextToken fuel in
          NextFrame_headers fuel rounds' tok headers
    end
  else ret (inr (tok, headers)).

Definition NextFrame (fuel : nat) : M R (Frame * option error) :=
  (* Command *)
  let* (tokType, tokLiteral) := nextToken fuel in
  let* reached := get_reachedEOF in
  if bool_decide (tokType ≠ COMMAND) && negb reached then
    ret (Frame_zero, Some (ParseError "Frame must begin with a command"))
  else
    let command := commands_at (string_of_bytes tokLiteral) in
    (* Headers *)
    let* tok := nextToken fuel in
    let* looped := NextFrame_headers fuel fuel tok ∅ in
    match looped with
    | inl e => ret (Frame_zero, Some e)
    | inr ((tokType, tokLiteral), headers) =>
        (* Body *)
        let* reached := get_reachedEOF in
        if bool_decide (tokType ≠ BODY) && negb reached then
          ret (Frame_zero, Some (ParseError "Frames must contain bodies"))
        else
          let body := tokLiteral in
          let* reached := get_reachedEOF in
          if reached then ret (Frame_zero, Some io_EOF)
          else
            (* Delimiter *)
            let* (tokType, tokLiteral) := nextToken fuel in
            let* reached := get_reachedEOF in
            if bool_decide (tokType ≠ DELIMITER) && negb reached then
              ret (Frame_zero,
                   Some (ParseError "Frames must end with a null byte"))
            else
              ret ({| Command := command; Headers := headers; Body := body |},
                   None)
    end.

(** A caller draining the parser: up to [calls] calls of [NextFrame], none
    after the one that returns [io.EOF]; the results in order. *)
Fixpoint drain (fuel calls : nat) : M R (list (Frame * option error)) :=
  match calls with
  | 0 => ret []
  | S calls' =>
      let* (frame, err) := NextFrame fuel in
      if bool_decide (err = Some io_EOF) then ret [(frame, err)]
      else
        let* rest := drain fuel calls' in
        ret ((frame, err) :: rest)
  end.

End Parser.

(** ** The byte source as the parser sees it

    The unread bytes of a stream, with the two operations of
    [ReadPeeker]: the contract the parser relies on, and what
    [bufio.Reader] is shown to provide over a chunked transport. *)

Definition list_ReadByte (l : list byte) : (byte * option error) * list byte :=
  match l with
  | c :: rest => ((c, None), rest)
  | [] => ((x00, Some io_EOF), [])
  end.

Definition list_Peek (n : nat) (l : list byte)
  : (list byte * option error) * list byte :=
  if length l <? n then ((l, Some io_EOF), l) else ((take n l, None), l).

#[global] Instance list_ReadPeeker : ReadPeeker (list byte) :=
  {| ReadByte := list_ReadByte; Peek := list_Peek |}.

(** ** What a transport owes [bufio.Reader]

    [pending] is what the source has still to deliver, [reader_ok] its
    invariant.  A [Read] into a slice with room for [min_room] bytes
    delivers a prefix of the pending bytes and reports its length, makes
    progress unless it reports an error, and reports no error but [io.EOF],
    and that only with nothing left. *)

Definition min_room : nat := 32.

Class ReaderSpec (Src : Type) `{Reader Src} : Type := {
  pending : Src → list byte;
  reader_ok : Src → Prop;
  Read_spec : ∀ (s : Src) (len_p : nat) written n e s',
    reader_ok s → min_room ≤ len_p →
    Read s len_p = ((written, n, e), s') →
    pending s = written ++ pending s' ∧ n = length written ∧
    length written ≤ len_p ∧ reader_ok s' ∧
    (e = None → 0 < n) ∧
    (is_err e = true → e = Some io_EOF ∧ pending s' = [])
}.

(** * Properties *)

(** ** The two transports meet the contract *)

Lemma READ_SIZES_BYTES_bounds (k : nat) :
  1 ≤ nth (k mod length READ_SIZES_BYTES) READ_SIZES_BYTES 0 ≤ min_room.
Proof.
  assert (Hk : k mod length READ_SIZES_BYTES < 6)
    by (apply Nat.mod_upper_bound; discriminate).
  unfold min_room.
  destruct (k mod length READ_SIZES_BYTES) as [|[|[|[|[|[|?]]]]]];
    simpl; lia.
Qed.

Lemma mock_min_spec (x y : nat) : mock_min x y = x `min` y.
Proof. unfold mock_min. destruct (Nat.ltb_spec x y); lia. Qed.

Lemma take_drop_length {A} (n : nat) (l : list A) :
  take n l ++ drop (length (take n l)) l = l.
Proof.
  rewrite length_take. destruct (Nat.le_gt_cases n (length l)).
  - rewrite Nat.min_l by done. apply take_drop.
  - rewrite Nat.min_r by lia. rewrite take_ge, drop_all by lia.
    apply app_nil_r.
Qed.

Lemma mock_Read_spec (mock : mockTCPStream) (len_p : nat) written n e mock' :
  currentByte mock ≤ length (streamData mock) →
  min_room ≤ len_p →
  mock_Read mock len_p = ((written, n, e), mock') →
  drop (currentByte mock) (streamData mock)
    = written ++ drop (currentByte mock') (streamData mock') ∧
  n = length written ∧
  length written ≤ len_p ∧
  currentByte mock' ≤ length (streamData mock') ∧
  (e = None → 0 < n) ∧
  (is_err e = true →
   e = Some io_EOF ∧ drop (currentByte mock') (streamData mock') = []).
Proof.
  intros Hok Hroom. unfold mock_Read. rewrite mock_min_spec.
  destruct mock as [data cur no]; cbn [streamData currentByte readNo] in *.
  pose proof (READ_SIZES_BYTES_bounds no) as Hsize.
  set (readSize := nth (no mod length READ_SIZES_BYTES) READ_SIZES_BYTES 0) in *.
  clearbody readSize.
  set (todo := readSize `min` (length data - cur)).
  assert (Htodo : todo ≤ length data - cur ∧ todo ≤ len_p ∧
                  (todo = 0 → cur = length data)).
  { unfold min_room in *. subst todo. lia. }
  intros [= <- <- <- <-]; simpl.
  assert (Hwritten :
    take len_p (drop cur (take (cur + todo) data)) = take todo (drop cur data)).
  { rewrite <- take_drop_commute. rewrite take_take.
    f_equal. lia. }
  rewrite Hwritten, length_take, length_drop.
  split; [|split; [|split; [|split; [|split]]]].
  - rewrite <- drop_drop. symmetry. apply take_drop.
  - lia.
  - lia.
  - lia.
  - destruct (Nat.eqb_spec (cur + todo) (length data)); [done|]. lia.
  - destruct (Nat.eqb_spec (cur + todo) (length data)) as [->|]; [|done].
    intros _. by rewrite drop_all.
Qed.

#[global] Program Instance mockTCPStream_ReaderSpec : ReaderSpec mockTCPStream :=
  {| pending mock := drop (currentByte mock) (streamData mock);
     reader_ok mock := currentByte mock ≤ length (streamData mock) |}.
Next Obligation.
  intros mock len_p written n e mock' Hok Hroom HRead.
  by apply (mock_Read_spec mock len_p).
Qed.

Lemma unchunked_Read_spec (r : unchunkedStream) (len_p : nat) written n e r' :
  min_room ≤ len_p →
  unchunked_Read r len_p = ((written, n, e), r') →
  drop (wholePos r) (wholeData r)
    = written ++ drop (wholePos r') (wholeData r') ∧
  n = length written ∧
  length written ≤ len_p ∧
  (e = None → 0 < n) ∧
  (is_err e = true →
   e = Some io_EOF ∧ drop (wholePos r') (wholeData r') = []).
Proof.
  intros Hroom. unfold unchunked_Read, min_room in *.
  destruct r as [data pos]; simpl.
  destruct (Nat.leb_spec (length data) pos) as [Hend|Hmore].
  - intros [= <- <- <- <-]; simpl. rewrite drop_ge by done.
    repeat split; try done; lia.
  - intros [= <- <- <- <-]; simpl. rewrite <- drop_drop.
    rewrite take_drop_length. split; [done|]. split; [done|].
    split; [rewrite length_take; lia|]. split; [|done].
    intros _. rewrite length_take, length_drop. lia.
Qed.

#[global] Program Instance unchunkedStream_ReaderSpec
  : ReaderSpec unchunkedStream :=
  {| pending r := drop (wholePos r) (wholeData r);
     reader_ok _ := True |}.
Next Obligation.
  intros r len_p written n e r' _ Hroom HRead.
  destruct (unchunked_Read_spec r len_p _ _ _ _ Hroom HRead)
    as (? & ? & ? & ? & ?).
  done.
Qed.

(** ** [bufio.Reader] hides the chunking

    Over a transport that meets the contract, [Peek] and [ReadByte] act on
    the unread bytes (those buffered, then those pending in the transport)
    exactly as [list_Peek] and [list_ReadByte] do. *)

Section BufioRefinement.
Context {Src : Type} `{ReaderSpec Src}.

Definition unread (b : bufioReader Src) : list byte := buf b ++ pending (rd b).

Definition bufio_ok (b : bufioReader Src) : Prop :=
  reader_ok (rd b) ∧
  (is_err (err b) = true → err b = Some io_EOF ∧ pending (rd b) = []).

Lemma defaultBufSize_room (k : nat) :
  k < 2 → k + min_room ≤ defaultBufSize.
Proof.
  intros Hk. assert (Hsize : 34 ≤ defaultBufSize).
  { apply Nat.leb_le. by vm_compute. }
  unfold min_room. lia.
Qed.

Lemma NewReader_ok (reader : Src) :
  reader_ok reader → bufio_ok (NewReader reader).
Proof. intros Hok. split; [done|]. simpl. discriminate. Qed.

Lemma unread_NewReader (reader : Src) : unread (NewReader reader) = pending reader.
Proof. done. Qed.

Lemma fill_reads_spec (i : nat) (b : bufioReader Src) :
  bufio_ok b → length (buf b) + min_room ≤ defaultBufSize →
  unread (fill_reads (S i) b) = unread b ∧
  bufio_ok (fill_reads (S i) b) ∧
  (length (buf b) < length (buf (fill_reads (S i) b)) ∨
   is_err (err (fill_reads (S i) b)) = true).
Proof.
  intros [Hrd Herr] Hroom. cbn [fill_reads].
  destruct (Read (rd b) (defaultBufSize - length (buf b)))
    as [[[written n] e] rd'] eqn:HRead.
  apply Read_spec in HRead as (Hpend & Hn & _ & Hrd' & Hprogress & Heof);
    [|done|lia].
  destruct e as [e|].
  - destruct (Heof eq_refl) as [-> Hnil]. unfold unread, bufio_ok; simpl.
    rewrite Hpend, Hnil. rewrite !app_nil_r. auto.
  - rewrite (proj2 (Nat.ltb_lt 0 n)) by auto.
    unfold unread, bufio_ok; simpl. rewrite Hpend, length_app, app_assoc.
    split; [done|]. split.
    + split; [done|]. intros Hpending. destruct (Herr Hpending) as [Heq Hnil].
      split; [done|]. rewrite Hnil in Hpend.
      symmetry in Hpend. by apply app_eq_nil in Hpend as [_ ->].
    + left. specialize (Hprogress eq_refl). lia.
Qed.

Lemma fill_spec (b : bufioReader Src) :
  bufio_ok b → length (buf b) + min_room ≤ defaultBufSize →
  unread (fill b) = unread b ∧ bufio_ok (fill b) ∧
  (length (buf b) < length (buf (fill b)) ∨ is_err (err (fill b)) = true).
Proof. apply fill_reads_spec. Qed.

Lemma Peek_fill_failed (rounds n : nat) (b : bufioReader Src) :
  is_err (err b) = true → Peek_fill rounds n b = b.
Proof.
  intros Hfailed. destruct rounds; [done|]. cbn [Peek_fill].
  by rewrite Hfailed, andb_false_r.
Qed.

(** The rounds given to the loop of [Peek] are enough: it ends with [n]
    bytes buffered or with an error pending. *)
Lemma Peek_fill_spec (rounds n : nat) (b : bufioReader Src) :
  n ≤ 2 → bufio_ok b →
  unread (Peek_fill rounds n b) = unread b ∧
  bufio_ok (Peek_fill rounds n b) ∧
  (n ≤ length (buf (Peek_fill rounds n b)) ∨
   is_err (err (Peek_fill rounds n b)) = true ∨
   length (buf b) + rounds ≤ length (buf (Peek_fill rounds n b))).
Proof.
  intros Hn. revert b. induction rounds as [|rounds IH]; intros b Hok.
  - simpl. split; [done|]. split; [done|]. right; right; lia.
  - cbn [Peek_fill].
    destruct (Nat.ltb_spec (length (buf b)) n) as [Hshort|Henough];
      [|simpl; auto].
    destruct (Nat.ltb_spec (length (buf b)) defaultBufSize) as [_|Hfull];
      [|simpl; split; [done|]; split; [done|];
        pose proof (defaultBufSize_room (length (buf b)));
        unfold min_room in *; lia].
    destruct (err b) as [e|] eqn:Herr; simpl.
    { rewrite Herr. auto. }
    destruct (fill_spec b Hok) as (Hsame & Hok' & Hprogress).
    { apply defaultBufSize_room. lia. }
    set (b1 := fill b) in *. clearbody b1.
    destruct (IH b1 Hok') as (Hsame' & Hok'' & Hdone).
    split; [congruence|]. split; [done|].
    destruct Hprogress as [Hlonger|Hfailed].
    + destruct Hdone as [?|[?|?]]; [auto|auto|right; right; lia].
    + rewrite Peek_fill_failed by done. auto.
Qed.

Lemma bufio_Peek_spec (n : nat) (b : bufioReader Src) :
  n ≤ 2 → bufio_ok b →
  ∃ b', bufio_Peek n b = ((list_Peek n (unread b)).1, b') ∧
        unread b' = unread b ∧ bufio_ok b'.
Proof.
  intros Hn Hok. unfold bufio_Peek.
  destruct (Peek_fill_spec n n b Hn Hok) as (Hsame & [Hrd Herr] & Hdone).
  set (b1 := Peek_fill n n b) in *. clearbody b1.
  destruct (Nat.ltb_spec defaultBufSize n) as [Hbig|_].
  { pose proof (defaultBufSize_room 0). unfold min_room in *. lia. }
  unfold list_Peek. rewrite <- Hsame.
  destruct (Nat.ltb_spec (length (buf b1)) n) as [Hshort|Henough].
  - destruct Hdone as [?|[Hfailed|?]]; [lia| |lia].
    destruct (Herr Hfailed) as [Heof Hnil]. unfold readErr.
    rewrite Heof. simpl. eexists; split; [|split].
    + unfold unread. rewrite Hnil, app_nil_r.
      by rewrite (proj2 (Nat.ltb_lt _ _) Hshort).
    + unfold unread; simpl. done.
    + split; [done|]. simpl. discriminate.
  - exists b1. split; [|done]. unfold unread.
    rewrite length_app.
    destruct (Nat.ltb_spec (length (buf b1) + length (pending (rd b1))) n);
      [lia|].
    simpl. by rewrite take_app_le.
Qed.

Lemma bufio_ReadByte_spec (b : bufioReader Src) :
  bufio_ok b →
  ∃ b', bufio_ReadByte b = ((list_ReadByte (unread b)).1, b') ∧
        unread b' = (list_ReadByte (unread b)).2 ∧ bufio_ok b'.
Proof.
  intros Hok. unfold bufio_ReadByte.
  destruct (buf b) as [|c rest] eqn:Hbuf.
  - destruct (is_err (err b)) eqn:Herr.
    + destruct Hok as [Hrd Hpending].
      destruct (Hpending Herr) as [Heof Hnil].
      unfold readErr, unread. rewrite Hbuf, Heof, Hnil. simpl.
      eexists; split; [done|]. split; [by simpl; rewrite Hnil|].
      split; [done|]. simpl. discriminate.
    + destruct (fill_spec b Hok) as (Hsame & [Hrd Hpending] & Hprogress).
      { rewrite Hbuf. apply (defaultBufSize_room 0). lia. }
      rewrite <- Hsame. rewrite Hbuf in Hprogress.
      set (b1 := fill b) in *. clearbody b1. clear Hsame.
      unfold unread. destruct b1 as [buf1 rd1 err1]; simpl in *.
      destruct buf1 as [|c rest]; simpl in *.
      * destruct Hprogress as [?|Hfailed]; [lia|].
        destruct (Hpending Hfailed) as [-> Hnil]. simpl. rewrite Hnil.
        eexists; split; [reflexivity|]. split; [simpl; by rewrite Hnil|].
        split; [exact Hrd|]. simpl. discriminate.
      * eexists; split; [reflexivity|]. split; [reflexivity|].
        split; simpl; [exact Hrd|exact Hpending].
  - unfold unread. rewrite Hbuf. simpl.
    eexists; split; [done|]. split; [done|]. destruct Hok. by split.
Qed.

End BufioRefinement.

(** ** The parser cannot tell two similar streams apart

    If two implementations of [ReadPeeker] answer [ReadByte], [Peek(1)] and
    [Peek(2)] alike on related streams and keep the streams related, then
    every method of the parser computes the same on both. *)

Section Simulation.
Context {R1 R2 : Type} `{ReadPeeker R1} `{ReadPeeker R2}.
Variable sim : R1 → R2 → Prop.
Hypothesis sim_ReadByte : ∀ r1 r2, sim r1 r2 →
  (ReadByte r1).1 = (ReadByte r2).1 ∧ sim (ReadByte r1).2 (ReadByte r2).2.
Hypothesis sim_Peek : ∀ n r1 r2, n ≤ 2 → sim r1 r2 →
  (Peek n r1).1 = (Peek n r2).1 ∧ sim (Peek n r1).2 (Peek n r2).2.

Definition parser_sim (p1 : StompParser R1) (p2 : StompParser R2) : Prop :=
  sim (stream p1) (stream p2) ∧
  reachedEOF p1 = reachedEOF p2 ∧
  frameJustEnded p1 = frameJustEnded p2.

Definition M_sim {A} (c1 : M R1 A) (c2 : M R2 A) : Prop :=
  ∀ p1 p2, parser_sim p1 p2 →
    match c1 p1, c2 p2 with
    | Some (a1, p1'), Some (a2, p2') => a1 = a2 ∧ parser_sim p1' p2'
    | None, None => True
    | _, _ => False
    end.

Lemma M_sim_ret {A} (a : A) : M_sim (ret a) (ret a).
Proof. intros p1 p2 Hsim. by simpl. Qed.

Lemma M_sim_fail {A} : M_sim (@fail R1 A) (@fail R2 A).
Proof. by intros p1 p2 Hsim. Qed.

Lemma M_sim_bind {A B} (c1 : M R1 A) (c2 : M R2 A)
    (k1 : A → M R1 B) (k2 : A → M R2 B) :
  M_sim c1 c2 → (∀ a, M_sim (k1 a) (k2 a)) → M_sim (bind c1 k1) (bind c2 k2).
Proof.
  intros Hc Hk p1 p2 Hsim. unfold bind. specialize (Hc p1 p2 Hsim).
  destruct (c1 p1) as [[a1 p1']|], (c2 p2) as [[a2 p2']|]; try done.
  destruct Hc as [-> Hsim']. by apply Hk.
Qed.

Lemma get_reachedEOF_sim : M_sim get_reachedEOF get_reachedEOF.
Proof. intros p1 p2 Hsim. simpl. split; [apply Hsim|done]. Qed.

Lemma get_frameJustEnded_sim : M_sim get_frameJustEnded get_frameJustEnded.
Proof. intros p1 p2 Hsim. simpl. split; [apply Hsim|done]. Qed.

Lemma set_reachedEOF_sim : M_sim set_reachedEOF set_reachedEOF.
Proof.
  intros p1 p2 (Hs & He & Hj). simpl. split; [done|]. by split.
Qed.

Lemma set_frameJustEnded_sim (v : bool) :
  M_sim (set_frameJustEnded v) (set_frameJustEnded v).
Proof.
  intros p1 p2 (Hs & He & Hj). simpl. split; [done|]. by split.
Qed.

Lemma stream_Peek_sim (n : nat) : n ≤ 2 → M_sim (stream_Peek n) (stream_Peek n).
Proof.
  intros Hn p1 p2 (Hs & He & Hj). unfold stream_Peek.
  destruct (sim_Peek n _ _ Hn Hs) as [Hres Hs'].
  destruct (Peek n (stream p1)) as [res1 s1], (Peek n (stream p2)) as [res2 s2].
  simpl in *. split; [done|]. by split.
Qed.

Lemma stream_ReadByte_sim : M_sim stream_ReadByte stream_ReadByte.
Proof.
  intros p1 p2 (Hs & He & Hj). unfold stream_ReadByte.
  destruct (sim_ReadByte _ _ Hs) as [Hres Hs'].
  destruct (ReadByte (stream p1)) as [res1 s1], (ReadByte (stream p2)) as [res2 s2].
  simpl in *. split; [done|]. by split.
Qed.

Lemma index_sim (peekBytes : list byte) (i : nat) :
  M_sim (index peekBytes i) (index peekBytes i).
Proof.
  unfold index. destruct (peekBytes !! i); [apply M_sim_ret|apply M_sim_fail].
Qed.

Create HintDb sim discriminated.
#[local] Hint Resolve M_sim_ret M_sim_fail get_reachedEOF_sim
  get_frameJustEnded_sim set_reachedEOF_sim set_frameJustEnded_sim
  stream_ReadByte_sim index_sim : sim.
#[local] Hint Extern 1 (M_sim (stream_Peek _) (stream_Peek _)) =>
  apply stream_Peek_sim; lia : sim.

(** One step through matching code on both sides: a bind, a branch on a
    value both sides share, or a leaf the hints know. *)
Ltac sim_step :=
  match goal with
  | |- M_sim (bind _ _) (bind _ _) => apply M_sim_bind; [|intros ?]
  | |- M_sim (if ?b then _ else _) (if ?b then _ else _) => destruct b
  | |- M_sim (match ?x with _ => _ end) (match ?x with _ => _ end) =>
      destruct x
  | |- M_sim _ _ => solve [eauto with sim]
  end.

Lemma scanEOL_sim : M_sim scanEOL scanEOL.
Proof. unfold scanEOL. repeat sim_step. Qed.
#[local] Hint Resolve scanEOL_sim : sim.

Lemma skipEOLs_sim (fuel : nat) : M_sim (skipEOLs fuel) (skipEOLs fuel).
Proof. induction fuel; simpl; repeat sim_step. Qed.
#[local] Hint Resolve skipEOLs_sim : sim.

Lemma scanHeaderSeparator_sim : M_sim scanHeaderSeparator scanHeaderSeparator.
Proof. unfold scanHeaderSeparator. repeat sim_step. Qed.
#[local] Hint Resolve scanHeaderSeparator_sim : sim.

Lemma scanTillDelimiter_from_sim (fuel : nat) (literal : list byte) :
  M_sim (scanTillDelimiter_from fuel literal)
        (scanTillDelimiter_from fuel literal).
Proof.
  revert literal. induction fuel; intros literal; simpl; repeat sim_step.
Qed.

Lemma scanTillDelimiter_sim (fuel : nat) :
  M_sim (scanTillDelimiter fuel) (scanTillDelimiter fuel).
Proof. apply scanTillDelimiter_from_sim. Qed.
#[local] Hint Resolve scanTillDelimiter_sim : sim.

Lemma scanTillTerminator_from_sim (fuel : nat) (literal : list byte)
    (term : TerminatorType) :
  M_sim (scanTillTerminator_from fuel literal term)
        (scanTillTerminator_from fuel literal term).
Proof.
  revert literal term.
  induction fuel; intros literal term; simpl; repeat sim_step.
Qed.

Lemma scanTillTerminator_sim (fuel : nat) :
  M_sim (scanTillTerminator fuel) (scanTillTerminator fuel).
Proof. apply scanTillTerminator_from_sim. Qed.
#[local] Hint Resolve scanTillTerminator_sim : sim.

Lemma nextToken_sim (fuel : nat) : M_sim (nextToken fuel) (nextToken fuel).
Proof. unfold nextToken. repeat sim_step. Qed.
#[local] Hint Resolve nextToken_sim : sim.

Lemma NextFrame_headers_sim (fuel rounds : nat)
    (tok : TokenType * list byte) (headers : gmap string string) :
  M_sim (NextFrame_headers fuel rounds tok headers)
        (NextFrame_headers fuel rounds tok headers).
Proof.
  revert tok headers.
  induction rounds; intros [tokType tokLiteral] headers; simpl;
    repeat sim_step.
Qed.
#[local] Hint Resolve NextFrame_headers_sim : sim.

Lemma NextFrame_sim (fuel : nat) : M_sim (NextFrame fuel) (NextFrame fuel).
Proof. unfold NextFrame. repeat sim_step. Qed.
#[local] Hint Resolve NextFrame_sim : sim.

Lemma drain_sim (fuel calls : nat) :
  M_sim (drain fuel calls) (drain fuel calls).
Proof. induction calls; simpl; repeat sim_step. Qed.

End Simulation.

(** ** The parser over [bufio.Reader] and over the unread bytes *)

Section Transfer.
Context {Src : Type} `{ReaderSpec Src}.

Definition bufio_sim (b : bufioReader Src) (l : list byte) : Prop :=
  bufio_ok b ∧ unread b = l.

Lemma bufio_sim_ReadByte (b : bufioReader Src) (l : list byte) :
  bufio_sim b l →
  (ReadByte b).1 = (ReadByte l).1 ∧ bufio_sim (ReadByte b).2 (ReadByte l).2.
Proof.
  intros [Hok <-]. destruct (bufio_ReadByte_spec b Hok) as (b' & Heq & Hun & Hok').
  cbn [ReadByte bufioReader_ReadPeeker list_ReadPeeker]. rewrite Heq.
  cbn [fst snd]. split; [done|]. by split.
Qed.

Lemma bufio_sim_Peek (n : nat) (b : bufioReader Src) (l : list byte) :
  n ≤ 2 → bufio_sim b l →
  (Peek n b).1 = (Peek n l).1 ∧ bufio_sim (Peek n b).2 (Peek n l).2.
Proof.
  intros Hn [Hok <-].
  destruct (bufio_Peek_spec n b Hn Hok) as (b' & Heq & Hun & Hok').
  cbn [Peek bufioReader_ReadPeeker list_ReadPeeker]. rewrite Heq.
  cbn [fst snd]. split; [done|]. split; [done|]. rewrite Hun.
  unfold list_Peek. by destruct (_ <? _).
Qed.

(** The state of the parser with its stream read as the unread bytes. *)
Definition view (p : StompParser (bufioReader Src)) : StompParser (list byte) :=
  {| stream := unread (stream p);
     reachedEOF := reachedEOF p;
     frameJustEnded := frameJustEnded p |}.

Definition parser_ok (p : StompParser (bufioReader Src)) : Prop :=
  bufio_ok (stream p).

Lemma parser_sim_view (p : StompParser (bufioReader Src)) :
  parser_ok p → parser_sim bufio_sim p (view p).
Proof. intros Hok. split; [by split|]. by split. Qed.

Lemma parser_sim_inv (p : StompParser (bufioReader Src))
    (q : StompParser (list byte)) :
  parser_sim bufio_sim p q → parser_ok p ∧ view p = q.
Proof.
  intros ([Hok Hun] & He & Hj). split; [done|].
  destruct q; unfold view; simpl in *. by subst.
Qed.

(** What the parser computes on the unread bytes it computes on the
    buffered reader, and the other way round. *)
Lemma refines {A} (c1 : M (bufioReader Src) A) (c2 : M (list byte) A)
    (p : StompParser (bufioReader Src)) :
  M_sim bufio_sim c1 c2 → parser_ok p →
  match c2 (view p) with
  | Some (a, q) => ∃ p', c1 p = Some (a, p') ∧ parser_ok p' ∧ view p' = q
  | None => c1 p = None
  end.
Proof.
  intros Hsim Hok. specialize (Hsim p (view p) (parser_sim_view p Hok)).
  destruct (c1 p) as [[a1 p1]|], (c2 (view p)) as [[a2 q]|]; try done.
  destruct Hsim as [-> Hsim]. apply parser_sim_inv in Hsim as [Hok' <-].
  by exists p1.
Qed.

Lemma NextFrame_refines (fuel : nat) (p : StompParser (bufioReader Src)) :
  parser_ok p →
  match NextFrame fuel (view p) with
  | Some (res, q) =>
      ∃ p', NextFrame fuel p = Some (res, p') ∧ parser_ok p' ∧ view p' = q
  | None => NextFrame fuel p = None
  end.
Proof.
  apply refines, NextFrame_sim;
    eauto using bufio_sim_ReadByte, bufio_sim_Peek.
Qed.

Lemma nextToken_refines (fuel : nat) (p : StompParser (bufioReader Src)) :
  parser_ok p →
  match nextToken fuel (view p) with
  | Some (tok, q) =>
      ∃ p', nextToken fuel p = Some (tok, p') ∧ parser_ok p' ∧ view p' = q
  | None => nextToken fuel p = None
  end.
Proof.
  apply refines, nextToken_sim;
    eauto using bufio_sim_ReadByte, bufio_sim_Peek.
Qed.

Lemma scanEOL_refines (p : StompParser (bufioReader Src)) :
  parser_ok p →
  match scanEOL (view p) with
  | Some (found, q) =>
      ∃ p', scanEOL p = Some (found, p') ∧ parser_ok p' ∧ view p' = q
  | None => scanEOL p = None
  end.
Proof.
  apply refines, scanEOL_sim;
    eauto using bufio_sim_ReadByte, bufio_sim_Peek.
Qed.

Lemma drain_refines (fuel calls : nat) (p : StompParser (bufioReader Src)) :
  parser_ok p →
  match drain fuel calls (view p) with
  | Some (res, q) =>
      ∃ p', drain fuel calls p = Some (res, p') ∧ parser_ok p' ∧ view p' = q
  | None => drain fuel calls p = None
  end.
Proof.
  apply refines, drain_sim;
    eauto using bufio_sim_ReadByte, bufio_sim_Peek.
Qed.

Lemma NewStompParserFromReader_ok (reader : Src) :
  reader_ok reader → parser_ok (NewStompParserFromReader reader).
Proof. apply NewReader_ok. Qed.

Lemma view_NewStompParserFromReader (reader : Src) :
  view (NewStompParserFromReader reader)
  = {| stream := pending reader; reachedEOF := false; frameJustEnded := false |}.
Proof. done. Qed.

End Transfer.


(** ** The lexer on the unread bytes

    From here on the stream is the list of unread bytes.  [State l e j] is
    the parser with [l] unread, [reachedEOF = e] and [frameJustEnded = j]. *)

Abbreviation State l e j := (Build_StompParser (list byte) l e j).

(** Unfold the monad and the stream operations; leaves the decisions on
    bytes alone. *)
Ltac mred :=
  cbn [bind ret fail stream_Peek stream_ReadByte set_reachedEOF
       set_frameJustEnded get_reachedEOF get_frameJustEnded index
       Peek ReadByte list_ReadPeeker list_Peek list_ReadByte
       stream reachedEOF frameJustEnded is_err length Nat.ltb Nat.leb
       take firstn lookup list_lookup fst snd negb andb orb].

Lemma bind_run {R A B} (c : M R A) (k : A → M R B) p a p' :
  c p = Some (a, p') → bind c k p = k a p'.
Proof. intros Hc. unfold bind. by rewrite Hc. Qed.

(** *** [scanEOL], case by case *)

Lemma scanEOL_LF (c : byte) rest e j :
  scanEOL (State (LF :: c :: rest) e j) = Some (true, State (c :: rest) e j).
Proof. reflexivity. Qed.

Lemma scanEOL_CRLF rest e j :
  scanEOL (State (CR :: LF :: rest) e j) = Some (true, State rest e j).
Proof. reflexivity. Qed.

Lemma scanEOL_none (c1 c2 : byte) rest e j :
  c1 ≠ LF → ¬ (c1 = CR ∧ c2 = LF) →
  scanEOL (State (c1 :: c2 :: rest) e j)
  = Some (false, State (c1 :: c2 :: rest) e j).
Proof.
  intros Hc1 Hc12. unfold scanEOL. mred.
  rewrite bool_decide_eq_false_2 by done.
  rewrite bool_decide_eq_false_2; [done|].
  intros [= -> ->]. by apply Hc12.
Qed.

Lemma scanEOL_short (l : list byte) e j :
  length l < 2 → scanEOL (State l e j) = Some (false, State l true j).
Proof.
  intros Hl. destruct l as [|c1 [|c2 rest]]; simpl in Hl; [done|done|lia].
Qed.

(** *** Every step of the lexer consumes or stands still

    [advances p p']: nothing is put back on the stream, [reachedEOF] is
    never reset, and [frameJustEnded] is left alone. *)

Definition advances (p p' : StompParser (list byte)) : Prop :=
  length (stream p') ≤ length (stream p) ∧
  (reachedEOF p = true → reachedEOF p' = true) ∧
  frameJustEnded p' = frameJustEnded p.

Lemma advances_refl p : advances p p.
Proof. by repeat split. Qed.

Lemma advances_trans p1 p2 p3 : advances p1 p2 → advances p2 p3 → advances p1 p3.
Proof.
  intros (Hl & He & Hj) (Hl' & He' & Hj').
  split; [lia|]. split; [auto|congruence].
Qed.

Lemma scanEOL_total p :
  ∃ found p', scanEOL p = Some (found, p') ∧ advances p p' ∧
    (found = true → length (stream p') < length (stream p)).
Proof.
  destruct p as [l e j]. destruct l as [|c1 [|c2 rest]].
  - exists false, (State [] true j). by repeat split.
  - exists false, (State [c1] true j). by repeat split.
  - destruct (decide (c1 = LF)) as [->|Hc1].
    { eexists _, _. split; [apply scanEOL_LF|].
      repeat split; simpl; auto; lia. }
    destruct (decide (c1 = CR ∧ c2 = LF)) as [[-> ->]|Hc12].
    { eexists _, _. split; [apply scanEOL_CRLF|].
      repeat split; simpl; auto; lia. }
    eexists _, _. split; [by apply scanEOL_none|].
    by repeat split.
Qed.

Lemma skipEOLs_total fuel p :
  length (stream p) < fuel →
  ∃ p', skipEOLs fuel p = Some (tt, p') ∧ advances p p'.
Proof.
  revert p. induction fuel as [|fuel IH]; intros p Hfuel; [lia|].
  destruct (scanEOL_total p) as (found & p1 & Hscan & Hadv & Hless).
  cbn [skipEOLs]. rewrite (bind_run _ _ _ _ _ Hscan).
  destruct found; simpl.
  - destruct (IH p1) as (p' & Hskip & Hadv'); [specialize (Hless eq_refl); lia|].
    exists p'. eauto using advances_trans.
  - by exists p1.
Qed.


Lemma scanHeaderSeparator_cons (c : byte) rest e j :
  scanHeaderSeparator (State (c :: rest) e j)
  = Some (bool_decide (c = COLON), State (c :: rest) e j).
Proof. unfold scanHeaderSeparator. mred. by case_bool_decide. Qed.

Lemma scanHeaderSeparator_nil e j :
  scanHeaderSeparator (State [] e j) = Some (false, State [] true j).
Proof. reflexivity. Qed.

Lemma stream_ReadByte_cons (c : byte) rest e j :
  stream_ReadByte (State (c :: rest) e j) = Some ((c, None), State rest e j).
Proof. reflexivity. Qed.

(** The body scan ends in front of a NUL unless the stream runs out, and
    collects no NUL. *)
Lemma scanTillDelimiter_from_total fuel literal p :
  length (stream p) < fuel → NUL ∉ literal →
  ∃ literal' p', scanTillDelimiter_from fuel literal p = Some (literal', p') ∧
    advances p p' ∧ (NUL ∉ literal') ∧
    (reachedEOF p' = false → ∃ rest, stream p' = NUL :: rest).
Proof.
  revert literal p.
  induction fuel as [|fuel IH]; intros literal [l e j] Hfuel Hlit; [lia|].
  cbn [scanTillDelimiter_from]. destruct l as [|c rest]; mred.
  - exists literal, (State [] true j). by repeat split.
  - case_bool_decide as Hc.
    + subst c. exists literal, (State (NUL :: rest) e j).
      repeat split; eauto.
    + destruct (IH (literal ++ [c]) (State rest e j))
        as (literal' & p' & Hscan & Hadv & Hlit' & Hstop).
      { simpl in *. lia. }
      { intros [?|Heq%list_elem_of_singleton]%elem_of_app; congruence. }
      exists literal', p'. split; [done|]. split; [|done].
      eapply advances_trans; [|done]. repeat split; simpl; auto.
Qed.

(** The loop of [scanTillTerminator] is left at once, whatever the
    fuel, when a terminator is set or the end of the stream was seen. *)
Lemma scanTillTerminator_from_done fuel literal term p :
  term ≠ NO_TERMINATOR ∨ reachedEOF p = true →
  scanTillTerminator_from fuel literal term p = Some ((literal, term), p).
Proof.
  intros Hdone.
  assert (bool_decide (term = NO_TERMINATOR) && negb (reachedEOF p) = false)
    as Hloop.
  { destruct Hdone as [Hterm| ->]; [|apply andb_false_r].
    by rewrite bool_decide_eq_false_2. }
  destruct fuel; cbn [scanTillTerminator_from]; mred; by rewrite Hloop.
Qed.

Lemma scanTillTerminator_from_total fuel literal term p :
  length (stream p) < fuel →
  ∃ literal' term' p',
    scanTillTerminator_from fuel literal term p = Some ((literal', term'), p') ∧
    advances p p'.
Proof.
  revert literal term p.
  induction fuel as [|fuel IH]; intros literal term p Hfuel; [lia|].
  cbn [scanTillTerminator_from]. mred.
  destruct (bool_decide (term = NO_TERMINATOR) && negb (reachedEOF p)) eqn:Hloop.
  2: { exists literal, term, p. split; [done|apply advances_refl]. }
  destruct (scanEOL_total p) as (found & p1 & Hscan & Hadv1 & Hless).
  rewrite (bind_run _ _ _ _ _ Hscan). destruct found; mred.
  { eexists _, _, _.
    split; [apply scanTillTerminator_from_done; by left|done]. }
  destruct p1 as [[|c rest] e1 j1].
  - rewrite (bind_run _ _ _ _ _ (scanHeaderSeparator_nil _ _)). mred.
    eexists _, _, _.
    split; [apply scanTillTerminator_from_done; by right|].
    eapply advances_trans; [done|]. by repeat split.
  - rewrite (bind_run _ _ _ _ _ (scanHeaderSeparator_cons _ _ _ _)).
    destruct (bool_decide (c = COLON)).
    + eexists _, _, _.
      split; [apply scanTillTerminator_from_done; by left|done].
    + mred.
      destruct (IH (literal ++ [c]) term (State rest e1 j1))
        as (l' & t' & p' & Heq & Hadv').
      { destruct Hadv1 as [Hlen _]. simpl in *. lia. }
      exists l', t', p'. split; [done|].
      eapply advances_trans; [done|]. eapply advances_trans; [|done].
      repeat split; simpl; auto.
Qed.

(** Started on a byte that is neither an end of line nor a colon, the scan
    consumes it; so a header key is never an empty step. *)
Lemma scanTillTerminator_progress fuel (c : byte) rest e j :
  c ≠ LF → c ≠ CR → c ≠ COLON → length (c :: rest) < fuel →
  ∃ literal' term' p',
    scanTillTerminator fuel (State (c :: rest) e j)
      = Some ((literal', term'), p') ∧
    advances (State (c :: rest) e j) p' ∧
    (term' = HEADER_SEPARATOR → length (stream p') ≤ length rest).
Proof.
  intros HLF HCR HCOLON Hfuel. unfold scanTillTerminator.
  destruct e.
  { eexists _, _, _.
    split; [apply scanTillTerminator_from_done; by right|].
    split; [apply advances_refl|done]. }
  destruct fuel as [|fuel]; [lia|].
  assert (∃ e1, scanEOL (State (c :: rest) false j)
                = Some (false, State (c :: rest) e1 j)) as [e1 Hscan].
  { destruct rest as [|c2 rest].
    - exists true. apply scanEOL_short. simpl. lia.
    - exists false. apply scanEOL_none; [done|]. by intros [? _]. }
  assert (scanTillTerminator_from (S fuel) [] NO_TERMINATOR
            (State (c :: rest) false j)
          = scanTillTerminator_from fuel [c] NO_TERMINATOR (State rest e1 j))
    as ->.
  { cbn [scanTillTerminator_from]. mred.
    rewrite (bool_decide_eq_true_2 _ eq_refl). mred.
    rewrite (bind_run _ _ _ _ _ Hscan). mred.
    rewrite (bind_run _ _ _ _ _ (scanHeaderSeparator_cons _ _ _ _)).
    by rewrite bool_decide_eq_false_2 by done. }
  destruct (scanTillTerminator_from_total fuel [c] NO_TERMINATOR
              (State rest e1 j)) as (l' & t' & p' & Heq & Hadv');
    [simpl in *; lia|].
  exists l', t', p'. split; [done|]. destruct Hadv' as (Hlen & He & Hj).
  simpl in *. split; [|done]. split; [simpl; lia|]. by split.
Qed.

(** *** [nextToken] in two parts: the skipped blank lines, then the token *)

Section NextTokenParts.
Context {R : Type} `{ReadPeeker R}.

Definition nextToken_skip (fuel : nat) : M R unit :=
  let* justEnded := get_frameJustEnded in
  if justEnded then skipEOLs fuel >> set_frameJustEnded false else ret tt.

Definition nextToken_scan (fuel : nat) : M R (TokenType * list byte) :=
  let* (peekBytes, err) := stream_Peek 1 in
  if is_err err then
    set_reachedEOF >> ret (NULL_TOKEN, [])
  else
    let* currentByte := index peekBytes 0 in
    if bool_decide (currentByte = NUL) then
      stream_ReadByte >>
      set_frameJustEnded true >>
      ret (DELIMITER, [currentByte])
    else if bool_decide (currentByte = CR) || bool_decide (currentByte = LF) then
      let* foundEOL := scanEOL in
      if foundEOL then
        let* tokLiteral := scanTillDelimiter fuel in
        ret (BODY, tokLiteral)
      else ret (INVALID_TOKEN, [])
    else if bool_decide (currentByte = COLON) then
      stream_ReadByte >>
      let* (tokLiteral, terminator) := scanTillTerminator fuel in
      if bool_decide (terminator = EOL) then ret (HEADER_VALUE, tokLiteral)
      else ret (INVALID_TOKEN, tokLiteral)
    else
      let* (tokLiteral, terminator) := scanTillTerminator fuel in
      if isCommand tokLiteral && bool_decide (terminator = EOL) then
        ret (COMMAND, tokLiteral)
      else if bool_decide (terminator = HEADER_SEPARATOR) then
        ret (HEADER_KEY, tokLiteral)
      else ret (INVALID_TOKEN, tokLiteral).

Lemma nextToken_parts (fuel : nat) (p : StompParser R) :
  nextToken fuel p = (nextToken_skip fuel >> nextToken_scan fuel) p.
Proof.
  unfold nextToken, nextToken_skip, bind, get_frameJustEnded.
  by destruct (frameJustEnded p).
Qed.

End NextTokenParts.

Lemma nextToken_skip_total fuel p :
  length (stream p) < fuel →
  ∃ l e, nextToken_skip fuel p = Some (tt, State l e false) ∧
    length l ≤ length (stream p) ∧ (reachedEOF p = true → e = true).
Proof.
  intros Hfuel. destruct p as [l e [|]]; unfold nextToken_skip; mred.
  - destruct (skipEOLs_total fuel (State l e true) Hfuel)
      as ([l' e' j'] & Hskip & Hlen & He & _).
    rewrite (bind_run _ _ _ _ _ Hskip). mred. by exists l', e'.
  - by exists l, e.
Qed.

(** What a token leaves behind: after any token but the delimiter the
    boundary flag is down; after a body that did not hit the end of the
    stream, the next byte is the NUL, and the body holds none. *)
Definition token_ok (tokType : TokenType) (tokLiteral : list byte)
    (p : StompParser (list byte)) : Prop :=
  (tokType ≠ DELIMITER → frameJustEnded p = false) ∧
  (tokType = BODY →
   (NUL ∉ tokLiteral) ∧
   (reachedEOF p = false → ∃ rest, stream p = NUL :: rest)).

Lemma nextToken_scan_total fuel l e :
  length l < fuel →
  ∃ tokType tokLiteral p',
    nextToken_scan fuel (State l e false) = Some ((tokType, tokLiteral), p') ∧
    length (stream p') ≤ length l ∧ (e = true → reachedEOF p' = true) ∧
    token_ok tokType tokLiteral p' ∧
    (tokType = HEADER_KEY → length (stream p') < length l).
Proof.
  intros Hfuel. unfold nextToken_scan. destruct l as [|c rest]; mred.
  { exists NULL_TOKEN, [], (State [] true false). by repeat split. }
  destruct (decide (c = NUL)) as [->|HNUL].
  { exists DELIMITER, [NUL], (State rest e true).
    split; [done|]. repeat split; simpl; (done || lia). }
  rewrite (bool_decide_eq_false_2 _ HNUL).
  destruct (bool_decide (c = CR) || bool_decide (c = LF)) eqn:HEOL.
  { destruct (scanEOL_total (State (c :: rest) e false))
      as (found & p1 & Hscan & (Hlen1 & He1 & Hj1) & _).
    rewrite (bind_run _ _ _ _ _ Hscan). destruct found; mred.
    - destruct (scanTillDelimiter_from_total fuel [] p1)
        as (literal & p' & Hbody & (Hlen & He & Hj) & Hlit & Hstop).
      { simpl in *. lia. }
      { apply not_elem_of_nil. }
      unfold scanTillDelimiter. rewrite (bind_run _ _ _ _ _ Hbody). mred.
      exists BODY, literal, p'. split; [done|]. simpl in *.
      split; [lia|]. split; [auto|]. split; [|done].
      split; [intros _; congruence|done].
    - exists INVALID_TOKEN, [], p1. split; [done|]. by repeat split. }
  apply orb_false_iff in HEOL as [HCR%bool_decide_eq_false HLF%bool_decide_eq_false].
  destruct (decide (c = COLON)) as [->|HCOLON].
  { rewrite (bool_decide_eq_true_2 _ eq_refl). mred.
    destruct (scanTillTerminator_from_total fuel [] NO_TERMINATOR
                (State rest e false))
      as (literal & term & p' & Hscan & Hlen & He & Hj); [simpl in *; lia|].
    unfold scanTillTerminator. rewrite (bind_run _ _ _ _ _ Hscan).
    simpl in *. destruct (bool_decide (term = EOL)); mred;
      eexists _, _, _; (split; [done|]);
      (split; [lia|]); (split; [auto|]); by repeat split. }
  rewrite (bool_decide_eq_false_2 _ HCOLON).
  destruct (scanTillTerminator_progress fuel c rest e false)
    as (literal & term & p' & Hscan & (Hlen & He & Hj) & Hless); try done.
  rewrite (bind_run _ _ _ _ _ Hscan).
  cbn [stream reachedEOF frameJustEnded length] in *.
  destruct (isCommand literal && bool_decide (term = EOL)); mred.
  { eexists _, _, _. split; [done|]. by repeat split. }
  case_bool_decide as Hsep; mred.
  - eexists _, _, _. split; [done|].
    split; [done|]. split; [done|]. split; [by split|].
    intros _. specialize (Hless Hsep). lia.
  - eexists _, _, _. split; [done|]. by repeat split.
Qed.

Lemma nextToken_total fuel p :
  length (stream p) < fuel →
  ∃ tokType tokLiteral p',
    nextToken fuel p = Some ((tokType, tokLiteral), p') ∧
    length (stream p') ≤ length (stream p) ∧
    (reachedEOF p = true → reachedEOF p' = true) ∧
    token_ok tokType tokLiteral p' ∧
    (tokType = HEADER_KEY → length (stream p') < length (stream p)).
Proof.
  intros Hfuel. rewrite nextToken_parts.
  destruct (nextToken_skip_total fuel p Hfuel) as (l & e & Hskip & Hlen & He).
  rewrite (bind_run _ _ _ _ _ Hskip).
  destruct (nextToken_scan_total fuel l e)
    as (tokType & tokLiteral & p' & Hscan & Hlen' & He' & Hok & Hless); [lia|].
  exists tokType, tokLiteral, p'. split; [done|].
  split; [lia|]. split; [auto|]. split; [done|].
  intros Hkey. specialize (Hless Hkey). lia.
Qed.



(** *** [NextFrame] always returns, and what it returns *)

Lemma NextFrame_headers_total fuel rounds tokType tokLiteral headers p :
  length (stream p) < fuel →
  (tokType = HEADER_KEY → length (stream p) < rounds) →
  token_ok tokType tokLiteral p →
  ∃ looped p',
    NextFrame_headers fuel rounds (tokType, tokLiteral) headers p
      = Some (looped, p') ∧
    length (stream p') ≤ length (stream p) ∧
    (reachedEOF p = true → reachedEOF p' = true) ∧
    match looped with
    | inl e => e = ParseError "Headers must have values" ∧ reachedEOF p' = false
    | inr ((tokType', tokLiteral'), _) =>
        tokType' ≠ HEADER_KEY ∧ token_ok tokType' tokLiteral' p'
    end.
Proof.
  revert tokType tokLiteral headers p.
  induction rounds as [|rounds IH];
    intros tokType tokLiteral headers p Hfuel Hrounds Hok;
    cbn [NextFrame_headers]; case_bool_decide as Hkey.
  - specialize (Hrounds Hkey). lia.
  - exists (inr ((tokType, tokLiteral), headers)), p.
    split; [done|]. split; [done|]. split; [done|]. by split.
  - destruct (nextToken_total fuel p Hfuel)
      as (ty1 & lit1 & p1 & Hvalue & Hlen1 & He1 & _ & _).
    rewrite (bind_run _ _ _ _ _ Hvalue). mred.
    destruct (bool_decide (ty1 ≠ HEADER_VALUE) && negb (reachedEOF p1)) eqn:Hbad.
    { apply andb_true_iff in Hbad as [_ Hlive%negb_true_iff].
      exists (inl (ParseError "Headers must have values")), p1.
      by repeat split. }
    destruct (nextToken_total fuel p1)
      as (ty2 & lit2 & p2 & Hnext & Hlen2 & He2 & Hok2 & Hless2); [lia|].
    rewrite (bind_run _ _ _ _ _ Hnext).
    destruct (IH ty2 lit2
                (<[string_of_bytes tokLiteral := string_of_bytes lit1]> headers)
                p2)
      as (looped & p' & Hloop & Hlen' & He' & Hlooped); [lia| |done|].
    { intros Hkey2. specialize (Hless2 Hkey2). specialize (Hrounds Hkey). lia. }
    exists looped, p'. split; [done|]. split; [lia|]. split; [auto|done].
  - exists (inr ((tokType, tokLiteral), headers)), p.
    split; [done|]. split; [done|]. split; [done|]. by split.
Qed.

(** At a NUL with the boundary flag down, the token is the delimiter. *)
Lemma nextToken_NUL fuel rest e :
  nextToken fuel (State (NUL :: rest) e false)
  = Some ((DELIMITER, [NUL]), State rest e true).
Proof. reflexivity. Qed.

(** The three [ParseError]s that [NextFrame] is seen to return. *)
Definition parse_messages : list string :=
  [ "Frame must begin with a command"; "Headers must have values";
    "Frames must contain bodies" ].

(** The result of a call against the state it leaves: a frame comes with
    the stream not exhausted, the boundary flag up and a body free of NUL;
    [io.EOF] comes exactly with [reachedEOF]; every other error is one of
    [parse_messages]; and an error comes with [Frame{}]. *)
Definition outcome_ok (frame : Frame) (err : option error)
    (p : StompParser (list byte)) : Prop :=
  match err with
  | None =>
      reachedEOF p = false ∧ frameJustEnded p = true ∧ NUL ∉ Body frame
  | Some io_EOF => frame = Frame_zero ∧ reachedEOF p = true
  | Some (ParseError message) =>
      frame = Frame_zero ∧ reachedEOF p = false ∧ message ∈ parse_messages
  | Some _ => False
  end.

Lemma NextFrame_total fuel p :
  length (stream p) < fuel →
  ∃ frame err p',
    NextFrame fuel p = Some ((frame, err), p') ∧
    length (stream p') ≤ length (stream p) ∧
    (reachedEOF p = true → reachedEOF p' = true) ∧
    outcome_ok frame err p'.
Proof.
  intros Hfuel. unfold NextFrame.
  destruct (nextToken_total fuel p Hfuel)
    as (ty0 & lit0 & p0 & Hcommand & Hlen0 & He0 & _ & _).
  rewrite (bind_run _ _ _ _ _ Hcommand). mred.
  destruct (bool_decide (ty0 ≠ COMMAND) && negb (reachedEOF p0)) eqn:Hbad0.
  { apply andb_true_iff in Hbad0 as [_ Hlive%negb_true_iff].
    eexists _, _, p0. split; [done|]. split; [done|]. split; [done|].
    simpl. split; [done|]. split; [done|]. apply list_elem_of_In; simpl; auto. }
  destruct (nextToken_total fuel p0) as (ty1 & lit1 & p1 & Hnext & Hlen1 & He1 & Hok1 & Hless1);
    [lia|].
  rewrite (bind_run _ _ _ _ _ Hnext).
  destruct (NextFrame_headers_total fuel fuel ty1 lit1 ∅ p1)
    as (looped & p2 & Hloop & Hlen2 & He2 & Hlooped); [lia|lia|done|].
  rewrite (bind_run _ _ _ _ _ Hloop).
  destruct looped as [e|[[ty lit] headers]]; mred.
  { destruct Hlooped as [-> Hlive]. eexists _, _, p2. split; [done|].
    split; [lia|]. split; [auto|]. simpl. split; [done|]. split; [done|].
    apply list_elem_of_In; simpl; auto. }
  destruct Hlooped as [_ [Hflag Hbody]].
  assert (Hmono : reachedEOF p = true → reachedEOF p2 = true) by auto.
  destruct (reachedEOF p2) eqn:Hreached.
  { rewrite andb_false_r. mred. rewrite Hreached. mred.
    eexists _, _, p2. split; [done|]. split; [lia|].
    split; [by rewrite Hreached|]. by split. }
  rewrite andb_true_r. destruct (decide (ty = BODY)) as [->|HBODY].
  2: { rewrite (bool_decide_eq_true_2 _ HBODY). mred.
       eexists _, _, p2. split; [done|]. split; [lia|].
       split; [by rewrite Hreached|].
       simpl. split; [done|]. split; [done|]. apply list_elem_of_In; simpl; auto. }
  rewrite bool_decide_eq_false_2 by (by intros ?). mred.
  rewrite Hreached. mred.
  destruct (Hbody eq_refl) as [Hlit Hstop].
  destruct (Hstop eq_refl) as [rest Hstream].
  destruct p2 as [l2 e2 j2]. simpl in *. subst l2 e2.
  rewrite Hflag by done.
  rewrite (bind_run _ _ _ _ _ (nextToken_NUL _ _ _)). mred.
  eexists _, _, _. split; [done|]. split; [simpl in *; lia|].
  split; [done|]. by repeat split.
Qed.

Lemma drain_total fuel calls p :
  length (stream p) < fuel → is_Some (drain fuel calls p).
Proof.
  revert p. induction calls as [|calls IH]; intros p Hfuel; [done|].
  cbn [drain].
  destruct (NextFrame_total fuel p Hfuel) as (frame & err & p' & Hcall & Hlen & _).
  rewrite (bind_run _ _ _ _ _ Hcall). case_bool_decide; [done|].
  destruct (IH p') as [[rest p''] Hrest]; [lia|].
  by rewrite (bind_run _ _ _ _ _ Hrest).
Qed.



(** ** The wire grammar

    [FRAME := COMMAND EOL (HEADER)* EOL BODY NUL],
    [HEADER := KEY ':' VALUE EOL], [EOL := '\n' | '\r\n'], with the
    terminals of STOMP 1.2: the command is one of the fifteen verbs, a
    header name is one or more bytes and a header value any number of
    bytes other than CR, LF and ':' (a name has no NUL either), and the
    body has no NUL. *)

Inductive eol_kind : Type := eol_LF | eol_CRLF.

Definition eol_bytes (k : eol_kind) : list byte :=
  match k with
  | eol_LF => [LF]
  | eol_CRLF => [CR; LF]
  end.

Record HeaderLine : Type := {
  header_key : list byte;
  header_value : list byte;
  header_eol : eol_kind
}.

Record WireFrame : Type := {
  wire_command : list byte;
  wire_command_eol : eol_kind;
  wire_headers : list HeaderLine;
  wire_blank : eol_kind;
  wire_body : list byte
}.

Definition header_bytes (h : HeaderLine) : list byte :=
  header_key h ++ COLON :: header_value h ++ eol_bytes (header_eol h).

Definition frame_bytes (w : WireFrame) : list byte :=
  wire_command w ++ eol_bytes (wire_command_eol w) ++
  concat (map header_bytes (wire_headers w)) ++
  eol_bytes (wire_blank w) ++ wire_body w ++ [NUL].

Definition text_byte (c : byte) : bool :=
  negb (bool_decide (c = CR)) && negb (bool_decide (c = LF)) &&
  negb (bool_decide (c = COLON)).

Definition name_byte (c : byte) : bool :=
  text_byte c && negb (bool_decide (c = NUL)).

Definition name_ok (name : list byte) : bool :=
  match name with
  | [] => false
  | _ => forallb name_byte name
  end.

Definition body_ok (body : list byte) : bool :=
  forallb (λ c, negb (bool_decide (c = NUL))) body.

Definition header_ok (h : HeaderLine) : bool :=
  name_ok (header_key h) && forallb text_byte (header_value h).

Definition well_formed (w : WireFrame) : bool :=
  isCommand (wire_command w) && forallb header_ok (wire_headers w) &&
  body_ok (wire_body w).

(** The value of the last header line with the given name, if any. *)
Definition last_value (key : list byte) (hs : list HeaderLine)
  : option (list byte) :=
  header_value <$> last (filter (λ h, header_key h = key) hs).

(** The frame a wire frame stands for: the verb's command, the headers
    written in the order of the lines, the body. *)
Definition headers_from (m : gmap string string) (hs : list HeaderLine)
  : gmap string string :=
  fold_left
    (λ m h, <[string_of_bytes (header_key h)
              := string_of_bytes (header_value h)]> m)
    hs m.

Definition frame_of (w : WireFrame) : Frame :=
  {| Command := commands_at (string_of_bytes (wire_command w));
     Headers := headers_from ∅ (wire_headers w);
     Body := wire_body w |}.

(** *** The lexer on the pieces of a frame *)

Lemma text_byte_spec (c : byte) :
  text_byte c = true → c ≠ CR ∧ c ≠ LF ∧ c ≠ COLON.
Proof.
  unfold text_byte. rewrite !andb_true_iff, !negb_true_iff.
  intros [[HCR HLF] HCOLON].
  by repeat split; eapply bool_decide_eq_false_1.
Qed.

Lemma name_byte_spec (c : byte) :
  name_byte c = true → text_byte c = true ∧ c ≠ NUL.
Proof.
  unfold name_byte. rewrite andb_true_iff, negb_true_iff.
  intros [Htext HNUL]. split; [done|]. by eapply bool_decide_eq_false_1.
Qed.

Lemma name_ok_spec (name : list byte) :
  name_ok name = true →
  ∃ c name', name = c :: name' ∧ c ≠ NUL ∧ forallb text_byte name = true.
Proof.
  destruct name as [|c name']; [done|]. intros Hname. exists c, name'.
  split; [done|]. unfold name_ok in Hname.
  rewrite forallb_forall in Hname. split.
  - apply name_byte_spec, Hname. by left.
  - apply forallb_forall. intros x Hx. by apply name_byte_spec, Hname.
Qed.

Lemma eol_bytes_cons (k : eol_kind) :
  ∃ c tl, eol_bytes k = c :: tl ∧ (c = LF ∨ c = CR).
Proof. destruct k; eexists _, _; (split; [done|]); auto. Qed.

Lemma scanEOL_eol (k : eol_kind) rest e j :
  rest ≠ [] →
  scanEOL (State (eol_bytes k ++ rest) e j) = Some (true, State rest e j).
Proof.
  intros Hrest. destruct k; simpl; [|apply scanEOL_CRLF].
  destruct rest as [|c rest]; [done|]. apply scanEOL_LF.
Qed.

(** A run of text bytes with something behind it is read byte by byte. *)
Lemma scanTillTerminator_from_text fuel literal text rest j :
  forallb text_byte text = true → rest ≠ [] →
  length (text ++ rest) < fuel →
  scanTillTerminator_from fuel literal NO_TERMINATOR
    (State (text ++ rest) false j)
  = scanTillTerminator_from (fuel - length text) (literal ++ text)
      NO_TERMINATOR (State rest false j).
Proof.
  intros Htext Hrest. revert fuel literal.
  induction text as [|c text IH]; intros fuel literal Hfuel.
  { simpl. by rewrite Nat.sub_0_r, app_nil_r. }
  apply andb_true_iff in Htext as [Hc Htext].
  apply text_byte_spec in Hc as (HCR & HLF & HCOLON).
  destruct fuel as [|fuel]; [simpl in Hfuel; lia|].
  assert (∃ c2 tl, text ++ rest = c2 :: tl) as (c2 & tl & Hnext).
  { destruct text; [destruct rest; [done|]|]; eauto. }
  cbn [scanTillTerminator_from]. mred.
  rewrite (bool_decide_eq_true_2 _ eq_refl). mred.
  change ((c :: text) ++ rest) with (c :: (text ++ rest)). rewrite Hnext.
  rewrite (bind_run _ _ _ _ _ (scanEOL_none c c2 tl false j HLF
                                 (λ H, HCR (proj1 H)))). mred.
  rewrite (bind_run _ _ _ _ _ (scanHeaderSeparator_cons _ _ _ _)).
  rewrite (bool_decide_eq_false_2 _ HCOLON). mred.
  rewrite <- Hnext, IH by (done || simpl in Hfuel; lia).
  by rewrite <- app_assoc.
Qed.

Lemma scanTillTerminator_line fuel text (k : eol_kind) rest j :
  forallb text_byte text = true → rest ≠ [] →
  length (text ++ eol_bytes k ++ rest) < fuel →
  scanTillTerminator fuel (State (text ++ eol_bytes k ++ rest) false j)
  = Some ((text, EOL), State rest false j).
Proof.
  intros Htext Hrest Hfuel. unfold scanTillTerminator.
  rewrite scanTillTerminator_from_text; [|done| |done].
  2: { by destruct k. }
  rewrite length_app in Hfuel.
  destruct (fuel - length text) as [|fuel'] eqn:Hleft; [lia|].
  cbn [scanTillTerminator_from]. mred.
  rewrite (bool_decide_eq_true_2 _ eq_refl). mred.
  rewrite (bind_run _ _ _ _ _ (scanEOL_eol k rest false j Hrest)). mred.
  apply scanTillTerminator_from_done. by left.
Qed.

Lemma scanTillTerminator_key fuel text rest j :
  forallb text_byte text = true → rest ≠ [] →
  length (text ++ COLON :: rest) < fuel →
  scanTillTerminator fuel (State (text ++ COLON :: rest) false j)
  = Some ((text, HEADER_SEPARATOR), State (COLON :: rest) false j).
Proof.
  intros Htext Hrest Hfuel. unfold scanTillTerminator.
  rewrite scanTillTerminator_from_text; [|done|done|done].
  rewrite length_app in Hfuel.
  destruct (fuel - length text) as [|fuel'] eqn:Hleft; [lia|].
  destruct rest as [|c rest]; [done|].
  cbn [scanTillTerminator_from]. mred.
  rewrite (bool_decide_eq_true_2 _ eq_refl). mred.
  rewrite (bind_run _ _ _ _ _
             (scanEOL_none COLON c rest false j ltac:(done)
                ltac:(by intros [? _]))). mred.
  rewrite (bind_run _ _ _ _ _ (scanHeaderSeparator_cons _ _ _ _)).
  rewrite (bool_decide_eq_true_2 _ eq_refl).
  apply scanTillTerminator_from_done. by left.
Qed.

Lemma scanTillDelimiter_from_body fuel literal body rest e j :
  body_ok body = true → length (body ++ NUL :: rest) < fuel →
  scanTillDelimiter_from fuel literal (State (body ++ NUL :: rest) e j)
  = Some (literal ++ body, State (NUL :: rest) e j).
Proof.
  intros Hbody. revert fuel literal.
  induction body as [|c body IH]; intros fuel literal Hfuel;
    (destruct fuel as [|fuel]; [simpl in Hfuel; lia|]).
  { simpl. by rewrite app_nil_r. }
  apply andb_true_iff in Hbody as [Hc%negb_true_iff%bool_decide_eq_false_1 Hbody].
  cbn [scanTillDelimiter_from app]. mred.
  rewrite (bool_decide_eq_false_2 _ Hc). mred.
  rewrite IH by (done || simpl in Hfuel; lia).
  by rewrite <- app_assoc.
Qed.



(** The fifteen verbs are names. *)
Lemma isCommand_name_ok (literal : list byte) :
  isCommand literal = true → name_ok literal = true.
Proof.
  unfold isCommand. intros [c Hc]%bool_decide_eq_true_1.
  apply elem_of_list_to_map_2 in Hc.
  rewrite <- (String.list_byte_of_string_of_list_byte literal).
  unfold command_table in Hc.
  repeat (apply elem_of_cons in Hc as [[= -> _]|Hc]; [by vm_compute|]).
  by apply elem_of_nil in Hc.
Qed.

(** In front of a name there is no blank line to skip. *)
Lemma nextToken_skip_name fuel (c : byte) rest e j :
  c ≠ LF → c ≠ CR → rest ≠ [] → 0 < fuel →
  nextToken_skip fuel (State (c :: rest) e j)
  = Some (tt, State (c :: rest) e false).
Proof.
  intros HLF HCR Hrest Hfuel. unfold nextToken_skip. mred.
  destruct j; [|done]. destruct fuel as [|fuel]; [lia|].
  destruct rest as [|c2 rest]; [done|]. cbn [skipEOLs].
  rewrite (bind_run _ _ _ _ _
             (bind_run _ _ _ _ _
                (scanEOL_none c c2 rest e true HLF (λ H, HCR (proj1 H))))).
  done.
Qed.

Lemma nextToken_scan_name fuel (c : byte) rest e :
  c ≠ NUL → c ≠ CR → c ≠ LF → c ≠ COLON →
  nextToken_scan fuel (State (c :: rest) e false)
  = (let* (tokLiteral, terminator) := scanTillTerminator fuel in
     if isCommand tokLiteral && bool_decide (terminator = EOL) then
       ret (COMMAND, tokLiteral)
     else if bool_decide (terminator = HEADER_SEPARATOR) then
       ret (HEADER_KEY, tokLiteral)
     else ret (INVALID_TOKEN, tokLiteral)) (State (c :: rest) e false).
Proof.
  intros HNUL HCR HLF HCOLON. unfold nextToken_scan. mred.
  by rewrite !bool_decide_eq_false_2 by done.
Qed.

Lemma nextToken_command fuel command (k : eol_kind) rest j :
  isCommand command = true → rest ≠ [] →
  length (command ++ eol_bytes k ++ rest) < fuel →
  nextToken fuel (State (command ++ eol_bytes k ++ rest) false j)
  = Some ((COMMAND, command), State rest false false).
Proof.
  intros Hcommand Hrest Hfuel.
  destruct (name_ok_spec command (isCommand_name_ok _ Hcommand))
    as (c & name' & -> & HNUL & Htext).
  pose proof Htext as Hc.
  apply andb_true_iff in Hc as [(HCR & HLF & HCOLON)%text_byte_spec _].
  pose proof (scanTillTerminator_line fuel (c :: name') k rest false
                Htext Hrest Hfuel) as Hscan.
  assert (name' ++ eol_bytes k ++ rest ≠ []) as Hmore
    by (by destruct name', k).
  rewrite nextToken_parts. cbn [app] in *.
  rewrite (bind_run _ _ _ _ _
             (nextToken_skip_name fuel c _ false j HLF HCR Hmore
                ltac:(lia))).
  rewrite nextToken_scan_name by done.
  rewrite (bind_run _ _ _ _ _ Hscan). by rewrite Hcommand.
Qed.

Lemma nextToken_key fuel key rest :
  name_ok key = true → rest ≠ [] →
  length (key ++ COLON :: rest) < fuel →
  nextToken fuel (State (key ++ COLON :: rest) false false)
  = Some ((HEADER_KEY, key), State (COLON :: rest) false false).
Proof.
  intros Hkey Hrest Hfuel.
  destruct (name_ok_spec key Hkey) as (c & name' & Hname & HNUL & Htext).
  pose proof Htext as Hc. rewrite Hname in Hc.
  apply andb_true_iff in Hc as [(HCR & HLF & HCOLON)%text_byte_spec _].
  rewrite nextToken_parts. unfold nextToken_skip at 1. mred.
  pose proof (scanTillTerminator_key fuel key rest false Htext Hrest Hfuel)
    as Hscan.
  rewrite Hname in *. cbn [app] in *.
  rewrite (nextToken_scan_name fuel c _ false) by done.
  rewrite (bind_run _ _ _ _ _ Hscan). by rewrite andb_false_r.
Qed.

Lemma nextToken_scan_COLON fuel rest e :
  nextToken_scan fuel (State (COLON :: rest) e false)
  = (let* (tokLiteral, terminator) := scanTillTerminator fuel in
     if bool_decide (terminator = EOL) then ret (HEADER_VALUE, tokLiteral)
     else ret (INVALID_TOKEN, tokLiteral)) (State rest e false).
Proof. reflexivity. Qed.

Lemma nextToken_value fuel value (k : eol_kind) rest :
  forallb text_byte value = true → rest ≠ [] →
  length (COLON :: value ++ eol_bytes k ++ rest) < fuel →
  nextToken fuel (State (COLON :: value ++ eol_bytes k ++ rest) false false)
  = Some ((HEADER_VALUE, value), State rest false false).
Proof.
  intros Hvalue Hrest Hfuel. rewrite nextToken_parts.
  unfold nextToken_skip at 1. mred. rewrite nextToken_scan_COLON.
  rewrite (bind_run _ _ _ _ _ (scanTillTerminator_line fuel value k rest false
                                 Hvalue Hrest ltac:(simpl in Hfuel; lia))).
  done.
Qed.

Lemma nextToken_body fuel (k : eol_kind) body rest e :
  body_ok body = true →
  length (eol_bytes k ++ body ++ NUL :: rest) < fuel →
  nextToken fuel (State (eol_bytes k ++ body ++ NUL :: rest) e false)
  = Some ((BODY, body), State (NUL :: rest) e false).
Proof.
  intros Hbody Hfuel. rewrite nextToken_parts.
  unfold nextToken_skip at 1. mred.
  assert (nextToken_scan fuel (State (eol_bytes k ++ body ++ NUL :: rest) e false)
          = (let* foundEOL := scanEOL in
             if foundEOL then
               let* tokLiteral := scanTillDelimiter fuel in
               ret (BODY, tokLiteral)
             else ret (INVALID_TOKEN, []))
              (State (eol_bytes k ++ body ++ NUL :: rest) e false)) as ->.
  { by destruct k. }
  rewrite (bind_run _ _ _ _ _
             (scanEOL_eol k (body ++ NUL :: rest) e false
                ltac:(destruct body; discriminate))). mred.
  unfold scanTillDelimiter.
  rewrite (bind_run _ _ _ _ _
             (scanTillDelimiter_from_body fuel [] body rest e false Hbody
                ltac:(rewrite length_app in Hfuel; lia))).
  done.
Qed.



(** *** [NextFrame] on a well-formed frame *)

Lemma bind_assoc {R A B C} (c : M R A) (k1 : A → M R B) (k2 : B → M R C) p :
  bind (bind c k1) k2 p = bind c (λ a, bind (k1 a) k2) p.
Proof. unfold bind. by destruct (c p) as [[a p']|]. Qed.

Lemma NextFrame_headers_lines (hs : list HeaderLine) fuel rounds m
    (k : eol_kind) body rest :
  forallb header_ok hs = true → body_ok body = true →
  length (concat (map header_bytes hs) ++ eol_bytes k ++ body ++ NUL :: rest)
    < fuel →
  length hs < rounds →
  (let* tok := nextToken fuel in NextFrame_headers fuel rounds tok m)
    (State (concat (map header_bytes hs) ++ eol_bytes k ++ body ++ NUL :: rest)
       false false)
  = Some (inr ((BODY, body), headers_from m hs),
          State (NUL :: rest) false false).
Proof.
  intros Hhs Hbody. revert rounds m.
  induction hs as [|h hs IH]; intros rounds m Hfuel Hrounds.
  { cbn [map concat app] in *.
    rewrite (bind_run _ _ _ _ _ (nextToken_body fuel k body rest false
                                   Hbody Hfuel)).
    by destruct rounds. }
  apply andb_true_iff in Hhs as [[Hkey Hvalue]%andb_true_iff Hhs].
  set (more := concat (map header_bytes hs) ++ eol_bytes k ++ body ++ NUL :: rest)
    in *.
  assert (more ≠ []) as Hmore.
  { subst more. destruct (concat (map header_bytes hs)); [by destruct k|done]. }
  assert (concat (map header_bytes (h :: hs)) ++ eol_bytes k ++ body ++ NUL :: rest
          = header_key h ++
            COLON :: header_value h ++ eol_bytes (header_eol h) ++ more)
    as Hstream.
  { subst more. cbn [map concat]. unfold header_bytes.
    by rewrite <- !app_assoc, <- app_comm_cons, <- !app_assoc. }
  rewrite Hstream in *.
  assert (header_value h ++ eol_bytes (header_eol h) ++ more ≠ []) as Hline
    by (by destruct (header_value h), (header_eol h)).
  rewrite (bind_run _ _ _ _ _ (nextToken_key fuel (header_key h) _ Hkey
                                 Hline Hfuel)).
  rewrite length_app in Hfuel. cbn [length] in Hfuel, Hrounds.
  destruct rounds as [|rounds]; [lia|]. cbn [NextFrame_headers].
  rewrite (bool_decide_eq_true_2 _ eq_refl).
  rewrite (bind_run _ _ _ _ _ (nextToken_value fuel (header_value h)
                                 (header_eol h) more Hvalue Hmore
                                 ltac:(cbn [length]; lia))).
  mred. rewrite bool_decide_eq_false_2 by (by intros ?). mred.
  rewrite !length_app in Hfuel.
  apply IH; [done|lia|lia].
Qed.

Lemma length_concat_header_bytes (hs : list HeaderLine) :
  length hs ≤ length (concat (map header_bytes hs)).
Proof.
  induction hs as [|h hs IH]; [done|]. cbn [map concat length].
  rewrite length_app. unfold header_bytes at 1.
  rewrite length_app. simpl. lia.
Qed.

Lemma frame_bytes_app (w : WireFrame) rest :
  frame_bytes w ++ rest
  = wire_command w ++ eol_bytes (wire_command_eol w) ++
    (concat (map header_bytes (wire_headers w)) ++
     eol_bytes (wire_blank w) ++ wire_body w ++ NUL :: rest).
Proof. unfold frame_bytes. by rewrite <- !app_assoc. Qed.

Lemma frame_bytes_cons (w : WireFrame) :
  well_formed w = true →
  ∃ c tl, frame_bytes w = c :: tl ∧ c ≠ LF ∧ c ≠ CR.
Proof.
  intros [[Hcommand _]%andb_true_iff _]%andb_true_iff.
  destruct (name_ok_spec _ (isCommand_name_ok _ Hcommand))
    as (c & name' & Hname & _ & Htext).
  rewrite Hname in Htext.
  apply andb_true_iff in Htext as [(HCR & HLF & _)%text_byte_spec _].
  exists c, (name' ++ eol_bytes (wire_command_eol w) ++
             concat (map header_bytes (wire_headers w)) ++
             eol_bytes (wire_blank w) ++ wire_body w ++ [NUL]).
  unfold frame_bytes. by rewrite Hname.
Qed.

(** A well-formed frame at the cursor, whatever follows it and whatever
    the boundary flag: the call returns the frame, and leaves the parser
    behind the NUL with the flag up. *)
Lemma NextFrame_frame fuel (w : WireFrame) rest j :
  well_formed w = true → length (frame_bytes w ++ rest) < fuel →
  NextFrame fuel (State (frame_bytes w ++ rest) false j)
  = Some ((frame_of w, None), State rest false true).
Proof.
  intros [[Hcommand Hheaders]%andb_true_iff Hbody]%andb_true_iff Hfuel.
  rewrite frame_bytes_app in *. unfold NextFrame.
  set (hs := wire_headers w) in *.
  assert (concat (map header_bytes hs) ++
          eol_bytes (wire_blank w) ++ wire_body w ++ NUL :: rest ≠ [])
    as Hmore.
  { destruct (concat (map header_bytes hs)); [by destruct (wire_blank w)|done]. }
  rewrite (bind_run _ _ _ _ _
             (nextToken_command fuel _ _ _ j Hcommand Hmore Hfuel)).
  mred. rewrite bool_decide_eq_false_2 by (by intros ?). mred.
  rewrite !length_app in Hfuel.
  rewrite <- (bind_assoc (nextToken fuel)
                (λ tok, NextFrame_headers fuel fuel tok ∅)).
  assert (length hs < fuel) as Hrounds.
  { pose proof (length_concat_header_bytes hs). lia. }
  rewrite (bind_run _ _ _ _ _
             (NextFrame_headers_lines hs fuel fuel ∅
                (wire_blank w) (wire_body w) rest Hheaders Hbody
                ltac:(rewrite !length_app; lia) Hrounds)).
  mred. rewrite bool_decide_eq_false_2 by (by intros ?). mred.
  by rewrite (bind_run _ _ _ _ _ (nextToken_NUL _ _ _)).
Qed.

(** With nothing left to read every call reports the end of the stream. *)
Lemma NextFrame_exhausted fuel e j :
  0 < fuel →
  NextFrame fuel (State [] e j) = Some ((Frame_zero, Some io_EOF), State [] true false).
Proof.
  intros Hfuel. destruct fuel as [|fuel]; [lia|]. by destruct j.
Qed.

(** *** Draining a stream of well-formed frames *)

Definition frames_bytes (ws : list WireFrame) : list byte :=
  concat (map frame_bytes ws).

Lemma drain_frames (ws : list WireFrame) fuel j :
  forallb well_formed ws = true → length (frames_bytes ws) < fuel →
  drain fuel (S (length ws)) (State (frames_bytes ws) false j)
  = Some (map (λ w, (frame_of w, None)) ws ++ [(Frame_zero, Some io_EOF)],
          State [] true false).
Proof.
  revert j. induction ws as [|w ws IH]; intros j Hws Hfuel.
  { cbn [drain length].
    by rewrite (bind_run _ _ _ _ _ (NextFrame_exhausted fuel false j
                                      ltac:(lia))). }
  apply andb_true_iff in Hws as [Hw Hws].
  unfold frames_bytes in *. cbn [map concat length] in *.
  cbn [drain].
  rewrite (bind_run _ _ _ _ _ (NextFrame_frame fuel w _ j Hw Hfuel)).
  rewrite bool_decide_eq_false_2 by done.
  rewrite length_app in Hfuel.
  by rewrite (bind_run _ _ _ _ _ (IH true Hws ltac:(lia))).
Qed.



(** ** [reachedEOF] is never reset, on any stream *)

Section Monotone.
Context {R : Type} `{ReadPeeker R}.

Definition M_keeps {A} (c : M R A) : Prop :=
  ∀ p a p', c p = Some (a, p') → reachedEOF p = true → reachedEOF p' = true.

Lemma M_keeps_ret {A} (a : A) : M_keeps (ret a).
Proof. by intros p a' p' [= _ <-]. Qed.

Lemma M_keeps_fail {A} : M_keeps (@fail R A).
Proof. by intros p a p'. Qed.

Lemma M_keeps_bind {A B} (c : M R A) (k : A → M R B) :
  M_keeps c → (∀ a, M_keeps (k a)) → M_keeps (bind c k).
Proof.
  intros Hc Hk p b p'. unfold bind.
  destruct (c p) as [[a p1]|] eqn:Hcp; [|done].
  intros Hkp Hp. eapply Hk; [done|]. by eapply Hc.
Qed.

Lemma M_keeps_stream_Peek n : M_keeps (stream_Peek n).
Proof.
  intros p a p'. unfold stream_Peek. destruct (Peek n (stream p)).
  by intros [= _ <-].
Qed.

Lemma M_keeps_stream_ReadByte : M_keeps stream_ReadByte.
Proof.
  intros p a p'. unfold stream_ReadByte. destruct (ReadByte (stream p)).
  by intros [= _ <-].
Qed.

Lemma M_keeps_flags :
  M_keeps get_reachedEOF ∧ M_keeps get_frameJustEnded ∧ M_keeps set_reachedEOF ∧
  ∀ v, M_keeps (set_frameJustEnded v).
Proof. repeat split; intros; intros p a p'; by intros [= _ <-]. Qed.

Lemma M_keeps_index peekBytes i : M_keeps (index peekBytes i).
Proof.
  unfold index. destruct (peekBytes !! i); [apply M_keeps_ret|apply M_keeps_fail].
Qed.

Ltac keeps_step :=
  match goal with
  | |- M_keeps (bind _ _) => apply M_keeps_bind; [|intros ?]
  | |- M_keeps (if ?b then _ else _) => destruct b
  | |- M_keeps (match ?x with _ => _ end) => destruct x
  | |- M_keeps (ret _) => apply M_keeps_ret
  | |- M_keeps fail => apply M_keeps_fail
  | |- M_keeps (stream_Peek _) => apply M_keeps_stream_Peek
  | |- M_keeps stream_ReadByte => apply M_keeps_stream_ReadByte
  | |- M_keeps (index _ _) => apply M_keeps_index
  | |- M_keeps _ => first [apply M_keeps_flags | assumption]
  end.

Lemma M_keeps_scanEOL : M_keeps scanEOL.
Proof. unfold scanEOL. repeat keeps_step. Qed.

Lemma M_keeps_skipEOLs fuel : M_keeps (skipEOLs fuel).
Proof.
  pose proof M_keeps_scanEOL. induction fuel; simpl; repeat keeps_step.
Qed.

Lemma M_keeps_scanHeaderSeparator : M_keeps scanHeaderSeparator.
Proof. unfold scanHeaderSeparator. repeat keeps_step. Qed.

Lemma M_keeps_scanTillDelimiter fuel : M_keeps (scanTillDelimiter fuel).
Proof.
  unfold scanTillDelimiter. generalize (@nil byte).
  induction fuel; intros literal; simpl; repeat keeps_step. apply IHfuel.
Qed.

Lemma M_keeps_scanTillTerminator fuel : M_keeps (scanTillTerminator fuel).
Proof.
  pose proof M_keeps_scanEOL. pose proof M_keeps_scanHeaderSeparator.
  unfold scanTillTerminator. generalize (@nil byte) NO_TERMINATOR.
  induction fuel; intros literal term; simpl; repeat keeps_step;
    apply IHfuel.
Qed.

Lemma M_keeps_nextToken fuel : M_keeps (nextToken fuel).
Proof.
  pose proof M_keeps_scanEOL. pose proof (M_keeps_skipEOLs fuel).
  pose proof (M_keeps_scanTillDelimiter fuel).
  pose proof (M_keeps_scanTillTerminator fuel).
  unfold nextToken. repeat keeps_step.
Qed.

End Monotone.



(** ** The grammar positions of [NextFrame] *)

Inductive position : Type :=
| AtCommand | AtHeaderValue | AtBody | AtDelimiter.

(** The token kind a position requires. *)
Definition required (pos : position) : TokenType :=
  match pos with
  | AtCommand => COMMAND
  | AtHeaderValue => HEADER_VALUE
  | AtBody => BODY
  | AtDelimiter => DELIMITER
  end.

(** The message of the [ParseError] for a position. *)
Definition position_message (pos : position) : string :=
  match pos with
  | AtCommand => "Frame must begin with a command"
  | AtHeaderValue => "Headers must have values"
  | AtBody => "Frames must contain bodies"
  | AtDelimiter => "Frames must end with a null byte"
  end.

(** The tokens of complete header lines. *)
Definition header_tokens (pairs : list (list byte * list byte))
  : list (TokenType * list byte) :=
  flat_map (λ kv, [(HEADER_KEY, kv.1); (HEADER_VALUE, kv.2)]) pairs.

(** The tokens that lead a call up to a position: none before the
    command; the command and complete header lines before the body, with
    one more key before a header value and with the body before the
    delimiter. *)
Definition lead_up (pos : position) (command : list byte)
    (pairs : list (list byte * list byte)) (key body : list byte)
  : list (TokenType * list byte) :=
  match pos with
  | AtCommand => []
  | AtHeaderValue =>
      (COMMAND, command) :: header_tokens pairs ++ [(HEADER_KEY, key)]
  | AtBody => (COMMAND, command) :: header_tokens pairs
  | AtDelimiter => (COMMAND, command) :: header_tokens pairs ++ [(BODY, body)]
  end.

(** The required kind is missing: the token is of another kind (and where
    a header key may still come instead of the body, it is no key either). *)
Definition missing (pos : position) (tokType : TokenType) : Prop :=
  tokType ≠ required pos ∧ (pos = AtBody → tokType ≠ HEADER_KEY).

Definition headers_of_pairs (m : gmap string string)
    (pairs : list (list byte * list byte)) : gmap string string :=
  fold_left (λ m kv, <[string_of_bytes kv.1 := string_of_bytes kv.2]> m)
    pairs m.

Section Positions.
Context {R : Type} `{ReadPeeker R}.

(** The tokens of [n] calls of [nextToken] in a row. *)
Fixpoint tokens (fuel n : nat) : M R (list (TokenType * list byte)) :=
  match n with
  | 0 => ret []
  | S n' =>
      let* tok := nextToken fuel in
      let* toks := tokens fuel n' in
      ret (tok :: toks)
  end.

Lemma tokens_length fuel n p toks p' :
  tokens fuel n p = Some (toks, p') → length toks = n.
Proof.
  revert p toks p'. induction n as [|n IH]; intros p toks p'; cbn [tokens].
  { by intros [= <- _]. }
  unfold bind. destruct (nextToken fuel p) as [[tok p1]|]; [|done].
  destruct (tokens fuel n p1) as [[toks' p2]|] eqn:Hrest; [|done].
  intros [= <- _]. simpl. f_equal. by eapply IH.
Qed.

Lemma M_keeps_tokens fuel n : M_keeps (tokens fuel n).
Proof.
  induction n as [|n IH]; cbn [tokens]; [apply M_keeps_ret|].
  apply M_keeps_bind; [apply M_keeps_nextToken|]. intros tok.
  apply M_keeps_bind; [done|]. intros toks. apply M_keeps_ret.
Qed.

Lemma tokens_cons fuel n p tok toks p' :
  tokens fuel n p = Some (tok :: toks, p') →
  ∃ p1, nextToken fuel p = Some (tok, p1) ∧
        tokens fuel (length toks) p1 = Some (toks, p') ∧
        (reachedEOF p' = false → reachedEOF p1 = false).
Proof.
  intros Htokens. pose proof (tokens_length _ _ _ _ _ Htokens) as Hn.
  simpl in Hn. subst n. cbn [tokens] in Htokens. unfold bind in Htokens.
  destruct (nextToken fuel p) as [[tok1 p1]|]; [|done].
  destruct (tokens fuel (length toks) p1) as [[toks' p2]|] eqn:Hrest; [|done].
  injection Htokens as -> -> ->. exists p1. split; [done|]. split; [done|].
  intros Hlive. destruct (reachedEOF p1) eqn:Hp1; [|done].
  pose proof (M_keeps_tokens _ _ _ _ _ Hrest Hp1). congruence.
Qed.

(** The loop takes the complete header lines as they come. *)
Lemma NextFrame_headers_pairs fuel pairs rounds m p p1 :
  tokens fuel (length (header_tokens pairs)) p = Some (header_tokens pairs, p1) →
  length pairs ≤ rounds →
  (let* tok := nextToken fuel in NextFrame_headers fuel rounds tok m) p
  = (let* tok := nextToken fuel in
     NextFrame_headers fuel (rounds - length pairs) tok
       (headers_of_pairs m pairs)) p1.
Proof.
  revert rounds m p.
  induction pairs as [|[key value] pairs IH]; intros rounds m p.
  { intros [= <-] _. simpl. by rewrite Nat.sub_0_r. }
  cbn [header_tokens flat_map app length]. intros Htokens Hrounds.
  apply tokens_cons in Htokens as (pa & Hkey & Htokens & _).
  apply tokens_cons in Htokens as (pb & Hvalue & Htokens & _).
  cbn [fst snd] in *. destruct rounds as [|rounds]; [lia|].
  rewrite (bind_run _ _ _ _ _ Hkey). cbn [NextFrame_headers].
  rewrite (bool_decide_eq_true_2 _ eq_refl).
  rewrite (bind_run _ _ _ _ _ Hvalue).
  unfold bind at 1, get_reachedEOF at 1.
  rewrite bool_decide_eq_false_2 by (by intros ?). cbn [andb].
  rewrite (IH rounds _ pb Htokens ltac:(lia)). done.
Qed.

Lemma tokens_app fuel n p toks1 toks2 p' :
  tokens fuel n p = Some (toks1 ++ toks2, p') →
  ∃ p1, tokens fuel (length toks1) p = Some (toks1, p1) ∧
        tokens fuel (length toks2) p1 = Some (toks2, p') ∧
        (reachedEOF p' = false → reachedEOF p1 = false).
Proof.
  revert n p. induction toks1 as [|tok toks1 IH]; intros n p Htokens.
  { exists p. split; [done|]. simpl in Htokens.
    pose proof (tokens_length _ _ _ _ _ Htokens) as <-. split; [done|].
    intros Hlive. destruct (reachedEOF p) eqn:Hp; [|done].
    pose proof (M_keeps_tokens _ _ _ _ _ Htokens Hp). congruence. }
  apply tokens_cons in Htokens as (pa & Hnext & Htokens & _).
  apply IH in Htokens as (p1 & Htoks1 & Htoks2 & Hlive).
  exists p1. split; [|by split]. cbn [length tokens].
  rewrite (bind_run _ _ _ _ _ Hnext). by rewrite (bind_run _ _ _ _ _ Htoks1).
Qed.

Lemma tokens_one fuel n p tok p' :
  tokens fuel n p = Some ([tok], p') → nextToken fuel p = Some (tok, p').
Proof.
  intros (p1 & Hnext & [= <-] & _)%tokens_cons. done.
Qed.

Lemma position_message_inj pos pos' :
  position_message pos' = position_message pos → pos' = pos.
Proof. by destruct pos, pos'. Qed.

End Positions.

(** C3.  A call of [NextFrame] whose tokens satisfy the grammar up to a
    position (the command; the value after a header key; the body; the
    delimiter), and whose next token is not of the kind required there
    while the end of the stream has not been reached, returns [Frame{}]
    and the [ParseError] of that position; the four positions have four
    different messages.  This holds over any [ReadPeeker]. *)
Theorem NextFrame_ParseError_at_position {R : Type} `{ReadPeeker R}
    (fuel : nat) (pos : position) (command : list byte)
    (pairs : list (list byte * list byte)) (key body : list byte)
    (tokType : TokenType) (tokLiteral : list byte) (p p' : StompParser R) :
  tokens fuel (S (length (lead_up pos command pairs key body))) p
    = Some (lead_up pos command pairs key body ++ [(tokType, tokLiteral)], p') →
  missing pos tokType →
  reachedEOF p' = false →
  length pairs < fuel →
  NextFrame fuel p
    = Some ((Frame_zero, Some (ParseError (position_message pos))), p') ∧
  ∀ pos', position_message pos' = position_message pos → pos' = pos.
Proof.
  intros Htokens [Hmissing Hnokey] Hlive Hrounds.
  split; [|apply position_message_inj].
  unfold NextFrame. destruct pos; cbn [lead_up app required] in *.
  { (* the command *)
    apply tokens_one in Htokens. rewrite (bind_run _ _ _ _ _ Htokens).
    mred. by rewrite Hlive, (bool_decide_eq_true_2 _ Hmissing). }
  all: apply tokens_cons in Htokens as (p0 & Hcommand & Htokens & _);
    rewrite (bind_run _ _ _ _ _ Hcommand); mred;
    rewrite bool_decide_eq_false_2 by (by intros ?); mred;
    rewrite <- (bind_assoc (nextToken fuel)
                  (λ tok, NextFrame_headers fuel fuel tok ∅)).
  - (* the value of a header *)
    rewrite <- app_assoc in Htokens.
    apply tokens_app in Htokens as (p1 & Hpairs & Hend & _).
    apply tokens_cons in Hend as (p2 & Hkey & Hend & _).
    apply tokens_one in Hend.
    unfold bind at 1.
    rewrite (NextFrame_headers_pairs fuel pairs fuel ∅ p0 p1 Hpairs ltac:(lia)).
    rewrite (bind_run _ _ _ _ _ Hkey).
    destruct (fuel - length pairs) as [|rounds] eqn:Hleft; [lia|].
    cbn [NextFrame_headers]. rewrite (bool_decide_eq_true_2 _ eq_refl).
    rewrite (bind_run _ _ _ _ _ Hend). mred.
    by rewrite Hlive, (bool_decide_eq_true_2 _ Hmissing).
  - (* the body *)
    apply tokens_app in Htokens as (p1 & Hpairs & Hend & _).
    apply tokens_one in Hend.
    unfold bind at 1.
    rewrite (NextFrame_headers_pairs fuel pairs fuel ∅ p0 p1 Hpairs ltac:(lia)).
    rewrite (bind_run _ _ _ _ _ Hend).
    assert (NextFrame_headers fuel (fuel - length pairs) (tokType, tokLiteral)
              (headers_of_pairs ∅ pairs) p'
            = Some (inr ((tokType, tokLiteral), headers_of_pairs ∅ pairs), p'))
      as ->.
    { destruct (fuel - length pairs); cbn [NextFrame_headers];
        by rewrite (bool_decide_eq_false_2 _ (Hnokey eq_refl)). }
    mred. by rewrite Hlive, (bool_decide_eq_true_2 _ Hmissing).
  - (* the delimiter *)
    rewrite <- app_assoc in Htokens.
    apply tokens_app in Htokens as (p1 & Hpairs & Hend & _).
    apply tokens_cons in Hend as (p2 & Hbody & Hend & Hlive2).
    apply tokens_one in Hend. specialize (Hlive2 Hlive).
    unfold bind at 1.
    rewrite (NextFrame_headers_pairs fuel pairs fuel ∅ p0 p1 Hpairs ltac:(lia)).
    rewrite (bind_run _ _ _ _ _ Hbody).
    assert (NextFrame_headers fuel (fuel - length pairs) (BODY, body)
              (headers_of_pairs ∅ pairs) p2
            = Some (inr ((BODY, body), headers_of_pairs ∅ pairs), p2)) as ->.
    { by destruct (fuel - length pairs). }
    mred. rewrite Hlive2. mred.
    rewrite bool_decide_eq_false_2 by (by intros ?). mred.
    rewrite Hlive2. mred.
    rewrite (bind_run _ _ _ _ _ Hend). mred.
    by rewrite Hlive, (bool_decide_eq_true_2 _ Hmissing).
Qed.



(** * The claims, on the parser as [NewStompParserFromReader] builds it *)

(** Example 1 and Example 2 of the specification, as wire frames. *)
Definition example_CONNECT : WireFrame :=
  {| wire_command := bytes_of_string "CONNECT";
     wire_command_eol := eol_LF;
     wire_headers :=
       [ {| header_key := bytes_of_string "accept-version";
            header_value := bytes_of_string "1.2";
            header_eol := eol_LF |} ];
     wire_blank := eol_LF;
     wire_body := [] |}.

Definition example_MESSAGE : WireFrame :=
  {| wire_command := bytes_of_string "MESSAGE";
     wire_command_eol := eol_CRLF;
     wire_headers :=
       [ {| header_key := bytes_of_string "x-custom-header";
            header_value := bytes_of_string "some value";
            header_eol := eol_LF |};
         {| header_key := bytes_of_string "x-custom-header";
            header_value := bytes_of_string "another value";
            header_eol := eol_CRLF |} ];
     wire_blank := eol_LF;
     wire_body := bytes_of_string "message
body" |}.

(** C1.  The same bytes, handed over by the test-suite's transport in
    reads of 1, 8, 32, 12, 5, 2, ... bytes or by a transport that hands
    over all it has at once, give the same results call for call: the same
    frames, the same errors, the same end of stream, for any number of
    calls; and with fuel beyond the length of the stream the calls do
    return. *)
Theorem chunking_invariance (data : list byte) (fuel calls : nat) :
  fst <$> drain fuel calls (NewStompParserFromReader (mockTCPStream_of data))
  = fst <$> drain fuel calls
              (NewStompParserFromReader (unchunkedStream_of data)) ∧
  (length data < fuel →
   is_Some (drain fuel calls (NewStompParserFromReader (mockTCPStream_of data)))).
Proof.
  pose proof (drain_refines fuel calls
                (NewStompParserFromReader (mockTCPStream_of data))) as Hmock.
  pose proof (drain_refines fuel calls
                (NewStompParserFromReader (unchunkedStream_of data))) as Hwhole.
  rewrite view_NewStompParserFromReader in Hmock.
  rewrite view_NewStompParserFromReader in Hwhole.
  cbn [pending mockTCPStream_ReaderSpec unchunkedStream_ReaderSpec
       mockTCPStream_of unchunkedStream_of currentByte streamData
       wholePos wholeData] in Hmock, Hwhole.
  rewrite drop_0 in Hmock, Hwhole.
  specialize (Hmock ltac:(apply NewStompParserFromReader_ok; simpl; lia)).
  specialize (Hwhole ltac:(by apply NewStompParserFromReader_ok)).
  split.
  - destruct (drain fuel calls (State data false false)) as [[results q]|].
    + destruct Hmock as (p1 & -> & _), Hwhole as (p2 & -> & _). done.
    + by rewrite Hmock, Hwhole.
  - intros Hfuel.
    destruct (drain_total fuel calls (State data false false) Hfuel)
      as [[results q] Hdrain].
    rewrite Hdrain in Hmock. destruct Hmock as (p1 & -> & _). done.
Qed.

Section Claims.
Context {Src : Type} `{ReaderSpec Src}.

Lemma NextFrame_on_view fuel (p : StompParser (bufioReader Src)) res q :
  parser_ok p → NextFrame fuel (view p) = Some (res, q) →
  ∃ p', NextFrame fuel p = Some (res, p') ∧ parser_ok p' ∧ view p' = q.
Proof.
  intros Hok Hq. pose proof (NextFrame_refines fuel p Hok) as Href.
  by rewrite Hq in Href.
Qed.

Lemma nextToken_on_view fuel (p : StompParser (bufioReader Src)) tok q :
  parser_ok p → nextToken fuel (view p) = Some (tok, q) →
  ∃ p', nextToken fuel p = Some (tok, p') ∧ parser_ok p' ∧ view p' = q.
Proof.
  intros Hok Hq. pose proof (nextToken_refines fuel p Hok) as Href.
  by rewrite Hq in Href.
Qed.

Lemma scanEOL_on_view (p : StompParser (bufioReader Src)) found q :
  parser_ok p → scanEOL (view p) = Some (found, q) →
  ∃ p', scanEOL p = Some (found, p') ∧ parser_ok p' ∧ view p' = q.
Proof.
  intros Hok Hq. pose proof (scanEOL_refines p Hok) as Href.
  by rewrite Hq in Href.
Qed.

Lemma drain_on_view fuel calls (p : StompParser (bufioReader Src)) res q :
  parser_ok p → drain fuel calls (view p) = Some (res, q) →
  ∃ p', drain fuel calls p = Some (res, p') ∧ parser_ok p' ∧ view p' = q.
Proof.
  intros Hok Hq. pose proof (drain_refines fuel calls p Hok) as Href.
  by rewrite Hq in Href.
Qed.

(** C2.  Over a transport that delivers N well-formed frames and nothing
    else, N+1 calls of [NextFrame] return: the N frames in order, each with
    no error, and then [io.EOF]. *)
Theorem drain_well_formed_frames (reader : Src) (ws : list WireFrame)
    (fuel : nat) :
  reader_ok reader →
  pending reader = frames_bytes ws →
  forallb well_formed ws = true →
  length (frames_bytes ws) < fuel →
  ∃ p', drain fuel (S (length ws)) (NewStompParserFromReader reader)
        = Some (map (λ w, (frame_of w, None)) ws
                  ++ [(Frame_zero, Some io_EOF)], p').
Proof.
  intros Hreader Hpending Hws Hfuel.
  destruct (drain_on_view fuel (S (length ws))
              (NewStompParserFromReader reader)
              (map (λ w, (frame_of w, None)) ws ++ [(Frame_zero, Some io_EOF)])
              (State [] true false))
    as (p' & Hdrain & _); [by apply NewStompParserFromReader_ok| |by exists p'].
  rewrite view_NewStompParserFromReader, Hpending. by apply drain_frames.
Qed.

End Claims.

Lemma drain_well_formed_frames_witness :
  reader_ok (mockTCPStream_of (frames_bytes [example_CONNECT; example_MESSAGE])) ∧
  pending (mockTCPStream_of (frames_bytes [example_CONNECT; example_MESSAGE]))
    = frames_bytes [example_CONNECT; example_MESSAGE] ∧
  forallb well_formed [example_CONNECT; example_MESSAGE] = true ∧
  length (frames_bytes [example_CONNECT; example_MESSAGE]) < 200 ∧
  ∃ p', drain 200 3
          (NewStompParserFromReader
             (mockTCPStream_of (frames_bytes [example_CONNECT; example_MESSAGE])))
        = Some ([(frame_of example_CONNECT, None);
                 (frame_of example_MESSAGE, None);
                 (Frame_zero, Some io_EOF)], p').
Proof.
  assert (reader_ok (mockTCPStream_of
                       (frames_bytes [example_CONNECT; example_MESSAGE])))
    as Hreader by (simpl; lia).
  assert (length (frames_bytes [example_CONNECT; example_MESSAGE]) < 200)
    as Hfuel by (vm_compute; lia).
  split; [exact Hreader|]. split; [reflexivity|]. split; [reflexivity|].
  split; [exact Hfuel|].
  exact (drain_well_formed_frames
           (mockTCPStream_of (frames_bytes [example_CONNECT; example_MESSAGE]))
           [example_CONNECT; example_MESSAGE] 200
           Hreader eq_refl eq_refl Hfuel).
Defined.



(** Witness of C3 at the command position: the stream ["FOO\n\n\x00"]. *)
Lemma NextFrame_ParseError_at_position_witness :
  ∃ p',
    tokens 10 (S (length (lead_up AtCommand [] [] [] [])))
      (NewStompParserFromReader
         (mockTCPStream_of (bytes_of_string "FOO" ++ [LF; LF; NUL])))
    = Some (lead_up AtCommand [] [] [] []
              ++ [(INVALID_TOKEN, bytes_of_string "FOO")], p') ∧
    missing AtCommand INVALID_TOKEN ∧
    reachedEOF p' = false ∧
    length (@nil (list byte * list byte)) < 10 ∧
    NextFrame 10
      (NewStompParserFromReader
         (mockTCPStream_of (bytes_of_string "FOO" ++ [LF; LF; NUL])))
    = Some ((Frame_zero, Some (ParseError "Frame must begin with a command")),
            p').
Proof.
  eexists.
  assert (missing AtCommand INVALID_TOKEN) as Hmissing by (by split).
  split; [vm_compute; reflexivity|]. split; [exact Hmissing|].
  split; [reflexivity|]. split; [simpl; lia|].
  refine (proj1 (NextFrame_ParseError_at_position 10 AtCommand [] [] [] []
                   INVALID_TOKEN (bytes_of_string "FOO") _ _ _ Hmissing _ _)).
  - vm_compute. reflexivity.
  - reflexivity.
  - simpl. lia.
Defined.

(** The positions after the command, on streams: a header value cut short
    by a second colon, and a line that is neither a header nor blank. *)
Example ParseError_header_value :
  fst <$> NextFrame 40
            (NewStompParserFromReader
               (mockTCPStream_of
                  (bytes_of_string "CONNECT" ++ [LF] ++
                   bytes_of_string "host:a:b" ++ [LF; LF; NUL])))
  = Some (Frame_zero, Some (ParseError "Headers must have values")).
Proof. vm_compute. reflexivity. Qed.

Example ParseError_body :
  fst <$> NextFrame 40
            (NewStompParserFromReader
               (mockTCPStream_of
                  (bytes_of_string "CONNECT" ++ [LF] ++
                   bytes_of_string "no colon here" ++ [LF; LF; NUL])))
  = Some (Frame_zero, Some (ParseError "Frames must contain bodies")).
Proof. vm_compute. reflexivity. Qed.

(** C9.  A string that is none of the fifteen verbs of the command table
    is looked up as the zero [CommandType], which is none of the fifteen
    constants; the lookup does not fail. *)
Theorem commands_at_unknown (s : string) :
  s ∉ command_table.*1 →
  commands_at s = 0%Z ∧ (0%Z ∉ command_table.*2) ∧
  length command_table = 15 ∧
  isCommand (bytes_of_string s) = false.
Proof.
  intros Hs.
  assert (commands !! s = None) as Hlookup.
  { by apply not_elem_of_list_to_map_1. }
  split; [unfold commands_at; by rewrite Hlookup|].
  split; [by vm_compute; intros ?%list_elem_of_In; simpl in *; intuition|].
  split; [done|]. unfold isCommand.
  rewrite String.string_of_list_byte_of_string, Hlookup.
  apply bool_decide_eq_false_2. by intros [? ?].
Qed.

Lemma commands_at_unknown_witness :
  ("HELLO" ∉ command_table.*1) ∧
  commands_at "HELLO" = 0%Z ∧ (0%Z ∉ command_table.*2) ∧
  length command_table = 15 ∧
  isCommand (bytes_of_string "HELLO") = false.
Proof.
  assert ("HELLO" ∉ command_table.*1) as Hunknown.
  { intros Hin%list_elem_of_In. vm_compute in Hin. intuition discriminate. }
  split; [exact Hunknown|]. exact (commands_at_unknown "HELLO" Hunknown).
Defined.



(** ** [scanEOL] at any cursor position *)

Lemma scanEOL_cases_list (l : list byte) e j :
  ∃ found l' e',
    scanEOL (State l e j) = Some (found, State l' e' j) ∧
    match l with
    | c1 :: c2 :: rest =>
        e' = e ∧
        if bool_decide (c1 = LF) then found = true ∧ l' = c2 :: rest
        else if bool_decide (c1 = CR ∧ c2 = LF) then found = true ∧ l' = rest
        else found = false ∧ l' = l
    | _ => found = false ∧ l' = l ∧ e' = true
    end.
Proof.
  destruct l as [|c1 [|c2 rest]].
  - by exists false, [], true.
  - by exists false, [c1], true.
  - case_bool_decide as HLF; [|case_bool_decide as HCRLF].
    + subst c1. exists true, (c2 :: rest), e. by rewrite scanEOL_LF.
    + destruct HCRLF as [-> ->]. exists true, rest, e. by rewrite scanEOL_CRLF.
    + exists false, (c1 :: c2 :: rest), e. by rewrite scanEOL_none.
Qed.

Section ClaimsOnStates.
Context {Src : Type} `{ReaderSpec Src}.

(** C4, as the code has it.  At any cursor position with at least two
    unread bytes: a leading LF matches and exactly that byte is consumed; a
    leading CR LF matches and exactly those two are consumed; anything else
    does not match and nothing is consumed.  With fewer than two unread
    bytes, a lone LF included, the two-byte peek fails: no match, nothing
    consumed, and [reachedEOF] set. *)
Theorem scanEOL_cases (p : StompParser (bufioReader Src)) :
  parser_ok p →
  ∃ found p',
    scanEOL p = Some (found, p') ∧ parser_ok p' ∧
    frameJustEnded p' = frameJustEnded p ∧
    match unread (stream p) with
    | c1 :: c2 :: rest =>
        reachedEOF p' = reachedEOF p ∧
        if bool_decide (c1 = LF) then
          found = true ∧ unread (stream p') = c2 :: rest
        else if bool_decide (c1 = CR ∧ c2 = LF) then
          found = true ∧ unread (stream p') = rest
        else found = false ∧ unread (stream p') = c1 :: c2 :: rest
    | short =>
        found = false ∧ unread (stream p') = short ∧ reachedEOF p' = true
    end.
Proof.
  intros Hok.
  destruct (scanEOL_cases_list (unread (stream p)) (reachedEOF p)
              (frameJustEnded p)) as (found & l' & e' & Hscan & Hcases).
  destruct (scanEOL_on_view p found _ Hok Hscan) as (p' & Hp' & Hok' & Hview).
  exists found, p'. split; [done|]. split; [done|].
  injection Hview as Hl He Hj. split; [done|]. rewrite Hl, He. clear Hscan.
  destruct (unread (stream p)) as [|c1 [|c2 rest]]; done.
Qed.

(** With fuel beyond the unread bytes a call of [NextFrame] returns, and
    its result fits the state it leaves ([outcome_ok]). *)
Lemma NextFrame_returns fuel (p : StompParser (bufioReader Src)) :
  parser_ok p → length (unread (stream p)) < fuel →
  ∃ frame err p',
    NextFrame fuel p = Some ((frame, err), p') ∧ parser_ok p' ∧
    outcome_ok frame err (view p') ∧
    length (unread (stream p')) ≤ length (unread (stream p)).
Proof.
  intros Hok Hfuel.
  destruct (NextFrame_total fuel (view p) Hfuel)
    as (frame & err & q & Hcall & Hlen & _ & Hout).
  destruct (NextFrame_on_view fuel p _ _ Hok Hcall) as (p' & Hp' & Hok' & <-).
  by exists frame, err, p'.
Qed.

(** A call of [NextFrame] returns; if the lexer has reported the end of
    the stream by the time it does, it returns [Frame{}] with [io.EOF],
    which is no [ParseError], whatever part of a frame was read; and
    [io.EOF] is returned in no other case. *)
Lemma NextFrame_reports_reachedEOF fuel (p : StompParser (bufioReader Src)) :
  parser_ok p → length (unread (stream p)) < fuel →
  ∃ frame err p',
    NextFrame fuel p = Some ((frame, err), p') ∧
    (reachedEOF p' = true →
     frame = Frame_zero ∧ err = Some io_EOF ∧
     ∀ message, err ≠ Some (ParseError message)) ∧
    (err = Some io_EOF → reachedEOF p' = true).
Proof.
  intros Hok Hfuel.
  destruct (NextFrame_returns fuel p Hok Hfuel)
    as (frame & err & p' & Hcall & _ & Hout & _).
  exists frame, err, p'. split; [done|].
  unfold outcome_ok in Hout. simpl in Hout.
  destruct err as [[| | |message]|]; try done.
  - destruct Hout as [-> Hreached]. by split.
  - destruct Hout as (_ & Hlive & _). split; [congruence|done].
  - destruct Hout as (Hlive & _). split; [congruence|done].
Qed.

(** A call on a well-formed frame at the cursor. *)
Lemma NextFrame_well_formed fuel (p : StompParser (bufioReader Src))
    (w : WireFrame) rest :
  parser_ok p → reachedEOF p = false → well_formed w = true →
  unread (stream p) = frame_bytes w ++ rest →
  length (frame_bytes w ++ rest) < fuel →
  ∃ p', NextFrame fuel p = Some ((frame_of w, None), p') ∧ parser_ok p' ∧
        unread (stream p') = rest ∧ reachedEOF p' = false ∧
        frameJustEnded p' = true.
Proof.
  intros Hok Hlive Hw Hstream Hfuel.
  destruct (NextFrame_on_view fuel p (frame_of w, None) (State rest false true) Hok)
    as (p' & Hcall & Hok' & Hview).
  { unfold view. rewrite Hstream, Hlive. by apply NextFrame_frame. }
  exists p'. injection Hview as Hl He Hj.
  split; [done|]. split; [done|]. by split.
Qed.

(** C6.  A call that returns a frame and thereby consumes the last byte
    of the stream (the frame's NUL) is followed by a call that returns
    [io.EOF]; and a call on a well-formed frame that is all that is left
    of the stream is such a call. *)
Theorem EOF_after_last_frame fuel (p : StompParser (bufioReader Src)) :
  parser_ok p → length (unread (stream p)) < fuel →
  (∀ frame p1,
     NextFrame fuel p = Some ((frame, None), p1) → unread (stream p1) = [] →
     ∃ p2, NextFrame fuel p1 = Some ((Frame_zero, Some io_EOF), p2)) ∧
  (∀ w : WireFrame,
     reachedEOF p = false → well_formed w = true →
     unread (stream p) = frame_bytes w →
     ∃ p1, NextFrame fuel p = Some ((frame_of w, None), p1) ∧
           unread (stream p1) = []).
Proof.
  intros Hok Hfuel. split.
  - intros frame p1 Hcall Hrest.
    destruct (NextFrame_returns fuel p Hok Hfuel)
      as (frame' & err & p' & Hcall' & Hok1 & _).
    rewrite Hcall in Hcall'. injection Hcall' as <- <- <-.
    destruct (NextFrame_on_view fuel p1 (Frame_zero, Some io_EOF)
                (State [] true false) Hok1) as (p2 & Hnext & _).
    { unfold view. rewrite Hrest. apply NextFrame_exhausted. lia. }
    by exists p2.
  - intros w Hlive Hw Hstream.
    destruct (NextFrame_well_formed fuel p w [] Hok Hlive Hw)
      as (p1 & Hcall & _ & Hrest & _).
    { by rewrite app_nil_r. }
    { rewrite app_nil_r. by rewrite <- Hstream. }
    by exists p1.
Qed.

End ClaimsOnStates.



(** ** Headers: the last line of a name wins *)

Lemma last_value_cons (key : list byte) (h : HeaderLine) (hs : list HeaderLine) :
  last_value key (h :: hs)
  = match last_value key hs with
    | Some v => Some v
    | None => if decide (header_key h = key) then Some (header_value h) else None
    end.
Proof.
  unfold last_value. rewrite filter_cons.
  destruct (decide (header_key h = key)) as [Hkey|Hkey].
  - rewrite last_cons. by destruct (last (filter _ hs)).
  - by destruct (last (filter _ hs)).
Qed.

Lemma headers_from_lookup (m : gmap string string) (hs : list HeaderLine)
    (s : string) :
  bytes_of_string <$> (headers_from m hs !! s)
  = match last_value (bytes_of_string s) hs with
    | Some v => Some v
    | None => bytes_of_string <$> (m !! s)
    end.
Proof.
  revert m. induction hs as [|h hs IH]; intros m; [done|].
  cbn [headers_from fold_left]. fold (headers_from
    (<[string_of_bytes (header_key h) := string_of_bytes (header_value h)]> m) hs).
  rewrite IH, last_value_cons.
  destruct (last_value (bytes_of_string s) hs); [done|].
  destruct (decide (header_key h = bytes_of_string s)) as [Hkey|Hkey].
  - rewrite Hkey, String.string_of_list_byte_of_string, lookup_insert_eq.
    simpl. by rewrite String.list_byte_of_string_of_list_byte.
  - rewrite lookup_insert_ne; [done|]. intros <-.
    by rewrite String.list_byte_of_string_of_list_byte in Hkey.
Qed.

Lemma body_ok_spec (body : list byte) : body_ok body = true → NUL ∉ body.
Proof.
  unfold body_ok. rewrite forallb_forall. intros Hbody Hin%list_elem_of_In.
  specialize (Hbody _ Hin). by rewrite bool_decide_eq_true_2 in Hbody.
Qed.

Section ClaimsOnFrames.
Context {Src : Type} `{ReaderSpec Src}.

(** C7.  The call on a well-formed frame returns a frame whose headers,
    read back as bytes, are for every name the value of the last header
    line of that name, and nothing for a name on no line. *)
Theorem NextFrame_headers_exact fuel (p : StompParser (bufioReader Src))
    (w : WireFrame) rest :
  parser_ok p → reachedEOF p = false → well_formed w = true →
  unread (stream p) = frame_bytes w ++ rest →
  length (frame_bytes w ++ rest) < fuel →
  ∃ frame p',
    NextFrame fuel p = Some ((frame, None), p') ∧
    ∀ s : string,
      bytes_of_string <$> (Headers frame !! s)
      = last_value (bytes_of_string s) (wire_headers w).
Proof.
  intros Hok Hlive Hw Hstream Hfuel.
  destruct (NextFrame_well_formed fuel p w rest Hok Hlive Hw Hstream Hfuel)
    as (p' & Hcall & _).
  exists (frame_of w), p'. split; [done|]. intros s. cbn [frame_of Headers].
  rewrite headers_from_lookup, lookup_empty.
  by destruct (last_value _ _).
Qed.

(** C8.  The call on a well-formed frame returns as body exactly the bytes
    between the blank line and the NUL, CR and LF among them; and the body
    of any frame that any call returns holds no NUL. *)
Theorem NextFrame_body_exact fuel (p : StompParser (bufioReader Src))
    (w : WireFrame) rest :
  parser_ok p → reachedEOF p = false → well_formed w = true →
  unread (stream p) = frame_bytes w ++ rest →
  length (frame_bytes w ++ rest) < fuel →
  (∃ frame p',
     NextFrame fuel p = Some ((frame, None), p') ∧
     Body frame = wire_body w ∧ unread (stream p') = rest) ∧
  ∀ fuel' (q : StompParser (bufioReader Src)) frame q',
    parser_ok q → length (unread (stream q)) < fuel' →
    NextFrame fuel' q = Some ((frame, None), q') → NUL ∉ Body frame.
Proof.
  intros Hok Hlive Hw Hstream Hfuel. split.
  - destruct (NextFrame_well_formed fuel p w rest Hok Hlive Hw Hstream Hfuel)
      as (p' & Hcall & _ & Hrest & _).
    by exists (frame_of w), p'.
  - intros fuel' q frame q' Hq Hfuel' Hcall.
    destruct (NextFrame_returns fuel' q Hq Hfuel')
      as (frame' & err & q1 & Hcall' & _ & Hout & _).
    rewrite Hcall in Hcall'. injection Hcall' as <- <- <-.
    by destruct Hout as (_ & _ & Hbody).
Qed.

(** C10, as the code has it.  A new parser has the boundary flag down, so
    it skips no blank line: on a stream that begins with an end of line
    and has a NUL somewhere behind it, the first token is a body (the bytes
    up to that NUL) and the first call returns the [ParseError] of the
    command position, leaving the NUL unread. *)
Theorem leading_EOL_is_a_body (reader : Src) (k : eol_kind) body rest fuel :
  reader_ok reader → body_ok body = true →
  pending reader = eol_bytes k ++ body ++ NUL :: rest →
  length (eol_bytes k ++ body ++ NUL :: rest) < fuel →
  frameJustEnded (NewStompParserFromReader reader) = false ∧
  ∃ p1 p',
    nextToken fuel (NewStompParserFromReader reader) = Some ((BODY, body), p1) ∧
    NextFrame fuel (NewStompParserFromReader reader)
    = Some ((Frame_zero, Some (ParseError "Frame must begin with a command")),
            p') ∧
    unread (stream p') = NUL :: rest.
Proof.
  intros Hreader Hbody Hpending Hfuel. split; [done|].
  pose proof (NewStompParserFromReader_ok reader Hreader) as Hok.
  pose proof (nextToken_body fuel k body rest false Hbody Hfuel) as Htoken.
  destruct (nextToken_on_view fuel (NewStompParserFromReader reader)
              (BODY, body) (State (NUL :: rest) false false) Hok)
    as (p1 & Hp1 & _).
  { by rewrite view_NewStompParserFromReader, Hpending. }
  destruct (NextFrame_on_view fuel (NewStompParserFromReader reader)
              (Frame_zero, Some (ParseError "Frame must begin with a command"))
              (State (NUL :: rest) false false) Hok)
    as (p' & Hp' & _ & Hview).
  { rewrite view_NewStompParserFromReader, Hpending. unfold NextFrame.
    by rewrite (bind_run _ _ _ _ _ Htoken). }
  exists p1, p'. split; [done|]. split; [done|]. by injection Hview.
Qed.

End ClaimsOnFrames.



(** ** The claims at concrete streams *)

(** C4 as the specification words it fails where a lone LF ends the
    stream: the next byte is LF, yet [scanEOL] does not match, consumes
    nothing and sets [reachedEOF]. *)
Lemma scanEOL_lone_LF_not_matched :
  unread (stream (NewStompParserFromReader (mockTCPStream_of [LF]))) = [LF] ∧
  ∃ p', scanEOL (NewStompParserFromReader (mockTCPStream_of [LF]))
        = Some (false, p') ∧
        unread (stream p') = [LF] ∧ reachedEOF p' = true.
Proof. split; [reflexivity|]. eexists. by vm_compute. Qed.

Lemma scanEOL_cases_witness :
  parser_ok (NewStompParserFromReader
               (mockTCPStream_of ([CR; LF] ++ bytes_of_string "A"))) ∧
  ∃ p', scanEOL (NewStompParserFromReader
                   (mockTCPStream_of ([CR; LF] ++ bytes_of_string "A")))
        = Some (true, p') ∧
        unread (stream p') = bytes_of_string "A".
Proof.
  assert (parser_ok (NewStompParserFromReader
                       (mockTCPStream_of ([CR; LF] ++ bytes_of_string "A"))))
    as Hok by (apply NewStompParserFromReader_ok; simpl; lia).
  split; [exact Hok|].
  destruct (scanEOL_cases _ Hok) as (found & p' & Hscan & _ & _ & Hcases).
  exists p'.
  change (unread (stream (NewStompParserFromReader _)))
    with ([CR; LF] ++ bytes_of_string "A") in Hcases.
  simpl in Hcases. destruct Hcases as (_ & -> & Hrest). by split.
Defined.

(** A command line and nothing after it: the unterminated frame is
    dropped for [io.EOF]. *)
Example unterminated_frame_is_EOF :
  fst <$> NextFrame 20 (NewStompParserFromReader
                          (mockTCPStream_of (bytes_of_string "CONNECT" ++ [LF])))
  = Some (Frame_zero, Some io_EOF).
Proof. by vm_compute. Qed.

Lemma EOF_after_last_frame_witness :
  parser_ok (NewStompParserFromReader
               (mockTCPStream_of (frame_bytes example_CONNECT))) ∧
  length (unread (stream (NewStompParserFromReader
            (mockTCPStream_of (frame_bytes example_CONNECT))))) < 100 ∧
  ∃ p1 p2,
    NextFrame 100 (NewStompParserFromReader
                     (mockTCPStream_of (frame_bytes example_CONNECT)))
    = Some ((frame_of example_CONNECT, None), p1) ∧
    unread (stream p1) = [] ∧
    NextFrame 100 p1 = Some ((Frame_zero, Some io_EOF), p2).
Proof.
  assert (parser_ok (NewStompParserFromReader
                       (mockTCPStream_of (frame_bytes example_CONNECT))))
    as Hok by (apply NewStompParserFromReader_ok; simpl; lia).
  assert (length (unread (stream (NewStompParserFromReader
            (mockTCPStream_of (frame_bytes example_CONNECT))))) < 100)
    as Hfuel by (vm_compute; lia).
  split; [exact Hok|]. split; [exact Hfuel|].
  assert (well_formed example_CONNECT = true) as Hw by (by vm_compute).
  assert (unread (stream (NewStompParserFromReader
            (mockTCPStream_of (frame_bytes example_CONNECT))))
          = frame_bytes example_CONNECT) as Hstream by (by vm_compute).
  destruct (EOF_after_last_frame 100 _ Hok Hfuel) as [Hnext Hlast].
  destruct (Hlast example_CONNECT eq_refl Hw Hstream) as (p1 & Hcall & Hrest).
  destruct (Hnext _ p1 Hcall Hrest) as (p2 & HEOF).
  exists p1, p2. split; [exact Hcall|]. split; [exact Hrest|exact HEOF].
Defined.

(** The frame of the witness below names [x-custom-header] on two lines;
    the second line's value is the one returned. *)
Lemma NextFrame_headers_exact_witness :
  parser_ok (NewStompParserFromReader
               (mockTCPStream_of (frame_bytes example_MESSAGE ++ []))) ∧
  well_formed example_MESSAGE = true ∧
  length (frame_bytes example_MESSAGE ++ []) < 100 ∧
  ∃ frame p',
    NextFrame 100 (NewStompParserFromReader
                     (mockTCPStream_of (frame_bytes example_MESSAGE ++ [])))
    = Some ((frame, None), p') ∧
    bytes_of_string <$> (Headers frame !! "x-custom-header")
    = Some (bytes_of_string "another value") ∧
    Headers frame !! "accept-version" = None.
Proof.
  assert (parser_ok (NewStompParserFromReader
                       (mockTCPStream_of (frame_bytes example_MESSAGE ++ []))))
    as Hok by (apply NewStompParserFromReader_ok; simpl; lia).
  assert (length (frame_bytes example_MESSAGE ++ []) < 100) as Hfuel
    by (vm_compute; lia).
  split; [exact Hok|]. split; [reflexivity|]. split; [exact Hfuel|].
  destruct (NextFrame_headers_exact 100 _ example_MESSAGE [] Hok eq_refl
              eq_refl eq_refl Hfuel) as (frame & p' & Hcall & Hheaders).
  exists frame, p'. split; [exact Hcall|]. split.
  - rewrite Hheaders. reflexivity.
  - pose proof (Hheaders "accept-version") as Hnone.
    destruct (Headers frame !! "accept-version"); [discriminate Hnone|done].
Defined.

Lemma NextFrame_body_exact_witness :
  parser_ok (NewStompParserFromReader
               (mockTCPStream_of (frame_bytes example_MESSAGE ++ []))) ∧
  well_formed example_MESSAGE = true ∧
  length (frame_bytes example_MESSAGE ++ []) < 100 ∧
  ∃ frame p',
    NextFrame 100 (NewStompParserFromReader
                     (mockTCPStream_of (frame_bytes example_MESSAGE ++ [])))
    = Some ((frame, None), p') ∧
    Body frame = bytes_of_string "message" ++ [LF] ++ bytes_of_string "body" ∧
    unread (stream p') = [].
Proof.
  assert (parser_ok (NewStompParserFromReader
                       (mockTCPStream_of (frame_bytes example_MESSAGE ++ []))))
    as Hok by (apply NewStompParserFromReader_ok; simpl; lia).
  assert (length (frame_bytes example_MESSAGE ++ []) < 100) as Hfuel
    by (vm_compute; lia).
  split; [exact Hok|]. split; [reflexivity|]. split; [exact Hfuel|].
  exact (proj1 (NextFrame_body_exact 100 _ example_MESSAGE [] Hok eq_refl
                  eq_refl eq_refl Hfuel)).
Defined.

(** C10 as worded fails on a stream that is a lone LF, or that has no NUL
    behind the leading end of line: the first call returns [io.EOF], not
    the [ParseError], and the single LF does not even lex as a body. *)
Lemma leading_LF_without_NUL_is_EOF :
  fst <$> nextToken 20 (NewStompParserFromReader (mockTCPStream_of [LF]))
  = Some (INVALID_TOKEN, []) ∧
  fst <$> NextFrame 20 (NewStompParserFromReader (mockTCPStream_of [LF]))
  = Some (Frame_zero, Some io_EOF) ∧
  fst <$> NextFrame 20
            (NewStompParserFromReader
               (mockTCPStream_of ([LF] ++ bytes_of_string "CONNECT" ++ [LF; LF])))
  = Some (Frame_zero, Some io_EOF).
Proof. by vm_compute. Qed.

Lemma leading_EOL_is_a_body_witness :
  reader_ok (mockTCPStream_of
               ([CR; LF] ++ bytes_of_string "CONNECT" ++ [LF; LF; NUL])) ∧
  body_ok (bytes_of_string "CONNECT" ++ [LF; LF]) = true ∧
  length ([CR; LF] ++ bytes_of_string "CONNECT" ++ [LF; LF; NUL]) < 40 ∧
  ∃ p1 p',
    nextToken 40
      (NewStompParserFromReader
         (mockTCPStream_of
            ([CR; LF] ++ bytes_of_string "CONNECT" ++ [LF; LF; NUL])))
    = Some ((BODY, bytes_of_string "CONNECT" ++ [LF; LF]), p1) ∧
    NextFrame 40
      (NewStompParserFromReader
         (mockTCPStream_of
            ([CR; LF] ++ bytes_of_string "CONNECT" ++ [LF; LF; NUL])))
    = Some ((Frame_zero, Some (ParseError "Frame must begin with a command")),
            p') ∧
    unread (stream p') = [NUL].
Proof.
  assert (reader_ok (mockTCPStream_of
            ([CR; LF] ++ bytes_of_string "CONNECT" ++ [LF; LF; NUL])))
    as Hreader by (simpl; lia).
  assert (length ([CR; LF] ++ bytes_of_string "CONNECT" ++ [LF; LF; NUL]) < 40)
    as Hfuel by (vm_compute; lia).
  split; [exact Hreader|]. split; [reflexivity|]. split; [exact Hfuel|].
  exact (proj2 (leading_EOL_is_a_body _ eol_CRLF
                  (bytes_of_string "CONNECT" ++ [LF; LF]) [] 40
                  Hreader eq_refl eq_refl Hfuel)).
Defined.


(** * Further properties of the lexer and of the frame assembler *)

(** ** Definitions *)

(** Whatever the computation returns satisfies [Q]. *)
Definition M_returns {R A : Type} (c : M R A) (Q : A → Prop) : Prop :=
  ∀ p a p', c p = Some (a, p') → Q a.

(** No end of line can be matched at this cursor: fewer than two bytes are
    unread, or the first is no LF and the first two are not CR LF. *)
Definition no_EOL_ahead (l : list byte) : Prop :=
  match l with
  | c1 :: c2 :: _ => c1 ≠ LF ∧ ¬ (c1 = CR ∧ c2 = LF)
  | _ => True
  end.

(** What [scanTillTerminator] found, by the terminator it returns. *)
Definition terminated (term : TerminatorType) (literal l l' : list byte)
    (reached : bool) : Prop :=
  match term with
  | EOL =>
      (LF ∉ literal) ∧ reached = false ∧
      ∃ k, l = literal ++ eol_bytes k ++ l'
  | HEADER_SEPARATOR =>
      (LF ∉ literal) ∧ l = literal ++ l' ∧ ∃ rest, l' = COLON :: rest
  | NO_TERMINATOR => l = literal ∧ l' = [] ∧ reached = true
  end.

(** The bytes a token of each kind stands for: [consumed] is what the
    token took from the stream and [l'] what it left unread.  There is no
    entry for [NULL_TOKEN]: it is returned with [reachedEOF] set. *)
Definition token_bytes (tokType : TokenType) (literal consumed l' : list byte)
  : Prop :=
  match tokType with
  | COMMAND =>
      isCommand literal = true ∧ ∃ k, consumed = literal ++ eol_bytes k
  | HEADER_KEY =>
      literal ≠ [] ∧ (COLON ∉ literal) ∧ (LF ∉ literal) ∧
      consumed = literal ∧ ∃ rest, l' = COLON :: rest
  | HEADER_VALUE =>
      (COLON ∉ literal) ∧ (LF ∉ literal) ∧
      ∃ k, consumed = COLON :: literal ++ eol_bytes k
  | BODY =>
      (NUL ∉ literal) ∧ (∃ k, consumed = eol_bytes k ++ literal) ∧
      ∃ rest, l' = NUL :: rest
  | DELIMITER => literal = [NUL] ∧ consumed = [NUL]
  | INVALID_TOKEN => True
  | NULL_TOKEN => False
  end.

(** The wire grammar with the terminals as the lexer takes them: a
    header name is one or more bytes and a header value any number of
    bytes other than LF and ':'; the command is a verb and the body has
    no NUL. *)
Definition line_byte (c : byte) : bool :=
  negb (bool_decide (c = LF)) && negb (bool_decide (c = COLON)).

Definition header_accepted (h : HeaderLine) : bool :=
  match header_key h with
  | [] => false
  | _ => forallb line_byte (header_key h)
  end && forallb line_byte (header_value h).

Definition accepted (w : WireFrame) : bool :=
  isCommand (wire_command w) && forallb header_accepted (wire_headers w) &&
  body_ok (wire_body w).

(** The bytes of [k] calls of [Read] in a row, each with a destination
    of [len_p] bytes. *)
Fixpoint mock_Reads (k len_p : nat) (mock : mockTCPStream) : list byte :=
  match k with
  | 0 => []
  | S k' =>
      let '((written, _, _), mock') := mock_Read mock len_p in
      written ++ mock_Reads k' len_p mock'
  end.

(** The parser of the test suite over the given bytes. *)
Definition mock_parser (testData : list byte)
  : StompParser (bufioReader mockTCPStream) :=
  NewStompParserFromReader (mockTCPStream_of testData).

(** A frame with a run of ends of line in front of it. *)
Definition spaced_bytes (sw : list eol_kind * WireFrame) : list byte :=
  concat (map eol_bytes sw.1) ++ frame_bytes sw.2.

(** The first frame as it is, every later frame with blank lines in
    front, and blank lines after the last. *)
Definition stream_bytes (w : WireFrame) (sws : list (list eol_kind * WireFrame))
    (trailing : list eol_kind) : list byte :=
  frame_bytes w ++ concat (map spaced_bytes sws) ++
  concat (map eol_bytes trailing).

(** A stream that records the longest look-ahead asked of it: [logged]
    is the stream itself, [longest] the largest [n] of the calls
    [Peek(n)] so far. *)
Record peekLog (R : Type) : Type := {
  logged : R;
  longest : nat
}.
Arguments logged {R} _.
Arguments longest {R} _.

Definition peekLog_ReadByte {R : Type} `{ReadPeeker R} (r : peekLog R)
  : (byte * option error) * peekLog R :=
  let '(res, s) := ReadByte (logged r) in
  (res, {| logged := s; longest := longest r |}).

Definition peekLog_Peek {R : Type} `{ReadPeeker R} (n : nat) (r : peekLog R)
  : (list byte * option error) * peekLog R :=
  let '(res, s) := Peek n (logged r) in
  (res, {| logged := s; longest := longest r `max` n |}).

#[global] Instance peekLog_ReadPeeker {R : Type} `{ReadPeeker R}
  : ReadPeeker (peekLog R) :=
  {| ReadByte := peekLog_ReadByte; Peek := peekLog_Peek |}.

(** The parser on the stream itself. *)
Definition unlogged {R : Type} (p : StompParser (peekLog R)) : StompParser R :=
  {| stream := logged (stream p);
     reachedEOF := reachedEOF p;
     frameJustEnded := frameJustEnded p |}.

(** The stream is the logged one, and no look-ahead beyond two bytes
    has been asked of it. *)
Definition within_two {R : Type} (r1 : peekLog R) (r2 : R) : Prop :=
  logged r1 = r2 ∧ longest r1 ≤ 2.

(** What the computation leaves unread is a suffix of what was unread. *)
Definition M_front {A} (c : M (list byte) A) : Prop :=
  ∀ p a p', c p = Some (a, p') → ∃ consumed, stream p = consumed ++ stream p'.

(** The parser over a stream, with both flags down. *)
Definition parser_over {R : Type} (r : R) : StompParser R :=
  {| stream := r; reachedEOF := false; frameJustEnded := false |}.


(** [p2] is [p1] with [tl] more to read. *)
Definition cut_short (tl : list byte) (p1 p2 : StompParser (list byte))
  : Prop :=
  stream p2 = stream p1 ++ tl ∧ reachedEOF p2 = reachedEOF p1 ∧
  frameJustEnded p2 = frameJustEnded p1.

(** The computation ends with [reachedEOF] set. *)
Definition M_sets {A} (c : M (list byte) A) : Prop :=
  ∀ p a p', c p = Some (a, p') → reachedEOF p' = true.

(** On the shorter stream the computation either sets [reachedEOF], or
    returns what it returns on the longer one, with the same bytes more
    to read there. *)
Definition M_cut (tl : list byte) {A} (c : M (list byte) A) : Prop :=
  M_keeps c ∧
  ∀ p1 p2 a p1', cut_short tl p1 p2 → c p1 = Some (a, p1') →
    reachedEOF p1' = true ∨
    ∃ p2', c p2 = Some (a, p2') ∧ cut_short tl p1' p2'.



(** * Proofs of the further properties *)

(** ** What a call returns, on any stream *)

Section Returns.
Context {R : Type} `{ReadPeeker R}.

Lemma M_returns_ret {A} (a : A) (Q : A → Prop) :
  Q a → M_returns (R:=R) (ret a) Q.
Proof. by intros HQ p a' p' [= <- _]. Qed.

Lemma M_returns_bind {A B} (c : M R A) (k : A → M R B) (Q : B → Prop) :
  (∀ a, M_returns (k a) Q) → M_returns (bind c k) Q.
Proof.
  intros Hk p b p'. unfold bind.
  destruct (c p) as [[a p1]|]; [|done]. apply Hk.
Qed.

Lemma bind_inv {A B} (c : M R A) (k : A → M R B) p b p' :
  bind c k p = Some (b, p') →
  ∃ a p1, c p = Some (a, p1) ∧ k a p1 = Some (b, p').
Proof.
  unfold bind. destruct (c p) as [[a p1]|]; [|done]. by exists a, p1.
Qed.

Lemma get_reachedEOF_inv (p : StompParser R) reached p' :
  get_reachedEOF p = Some (reached, p') → reached = reachedEOF p ∧ p' = p.
Proof. by intros [= <- <-]. Qed.

(** A token lexed as a command is one of the verbs. *)
Lemma nextToken_COMMAND fuel (p p' : StompParser R) tokLiteral :
  nextToken fuel p = Some ((COMMAND, tokLiteral), p') →
  isCommand tokLiteral = true.
Proof.
  intros Htoken.
  enough (M_returns (nextToken fuel)
            (λ tok, tok.1 = COMMAND → isCommand tok.2 = true)) as Hreturns
    by exact (Hreturns _ _ _ Htoken eq_refl).
  unfold nextToken.
  repeat first
    [ apply M_returns_bind; intros ?
    | apply M_returns_ret; simpl; try discriminate
    | match goal with
      | |- M_returns (if isCommand ?l && _ then _ else _) _ =>
          destruct (isCommand l) eqn:?; cbn [andb]
      | |- M_returns (if ?b then _ else _) _ => destruct b
      | |- M_returns (match ?x with _ => _ end) _ => destruct x
      end ].
  all: try done.
Qed.

Lemma M_keeps_NextFrame_headers fuel rounds tok headers :
  M_keeps (NextFrame_headers fuel rounds tok headers).
Proof.
  revert tok headers. induction rounds as [|rounds IH]; intros [ty lit] headers;
    cbn [NextFrame_headers]; case_bool_decide;
    try apply M_keeps_ret; try apply M_keeps_fail.
  apply M_keeps_bind; [apply M_keeps_nextToken|]. intros [ty1 lit1].
  apply M_keeps_bind; [apply M_keeps_flags|]. intros reached.
  destruct (_ && _); [apply M_keeps_ret|].
  apply M_keeps_bind; [apply M_keeps_nextToken|]. intros tok. apply IH.
Qed.

(** [NextFrame] never resets [reachedEOF]. *)
Lemma M_keeps_NextFrame fuel : M_keeps (NextFrame fuel).
Proof.
  unfold NextFrame.
  apply M_keeps_bind; [apply M_keeps_nextToken|]. intros [ty0 lit0].
  apply M_keeps_bind; [apply M_keeps_flags|]. intros reached0.
  destruct (_ && _); [apply M_keeps_ret|].
  apply M_keeps_bind; [apply M_keeps_nextToken|]. intros tok.
  apply M_keeps_bind; [apply M_keeps_NextFrame_headers|].
  intros [e|[[ty lit] headers]]; [apply M_keeps_ret|].
  apply M_keeps_bind; [apply M_keeps_flags|]. intros reached.
  destruct (_ && _); [apply M_keeps_ret|].
  apply M_keeps_bind; [apply M_keeps_flags|]. intros [|]; [apply M_keeps_ret|].
  apply M_keeps_bind; [apply M_keeps_nextToken|]. intros [ty3 lit3].
  apply M_keeps_bind; [apply M_keeps_flags|]. intros reached3.
  destruct (_ && _); apply M_keeps_ret.
Qed.

(** The pieces of a call that returned a frame: the command token, the
    token after it, the header loop ending in the body token with
    [reachedEOF] down, and the last token. *)
Lemma NextFrame_frame_inv fuel (p p' : StompParser R) frame :
  NextFrame fuel p = Some ((frame, None), p') →
  ∃ command p0 tok p1 body headers p2 tokType tokLiteral,
    nextToken fuel p = Some ((COMMAND, command), p0) ∧
    nextToken fuel p0 = Some (tok, p1) ∧
    NextFrame_headers fuel fuel tok ∅ p1
    = Some (inr ((BODY, body), headers), p2) ∧
    reachedEOF p2 = false ∧
    nextToken fuel p2 = Some ((tokType, tokLiteral), p') ∧
    (tokType = DELIMITER ∨ reachedEOF p' = true) ∧
    frame = {| Command := commands_at (string_of_bytes command);
               Headers := headers; Body := body |}.
Proof.
  unfold NextFrame. intros Hcall.
  apply bind_inv in Hcall as ([ty0 lit0] & p0 & Hcommand & Hcall).
  apply bind_inv in Hcall as (reached0 & ? & [-> ->]%get_reachedEOF_inv & Hcall).
  destruct (bool_decide (ty0 ≠ COMMAND) && negb (reachedEOF p0)) eqn:Hbad0;
    [done|].
  apply bind_inv in Hcall as (tok & p1 & Hnext & Hcall).
  apply bind_inv in Hcall as (looped & p2 & Hloop & Hcall).
  destruct looped as [e|[[ty lit] headers]]; [done|].
  apply bind_inv in Hcall as (reached & ? & [-> ->]%get_reachedEOF_inv & Hcall).
  destruct (bool_decide (ty ≠ BODY) && negb (reachedEOF p2)) eqn:Hbad; [done|].
  apply bind_inv in Hcall as (reached & ? & [-> ->]%get_reachedEOF_inv & Hcall).
  destruct (reachedEOF p2) eqn:Hreached2; [done|].
  apply bind_inv in Hcall as ([ty3 lit3] & p3 & Hdelimiter & Hcall).
  apply bind_inv in Hcall as (reached3 & ? & [-> ->]%get_reachedEOF_inv & Hcall).
  destruct (bool_decide (ty3 ≠ DELIMITER) && negb (reachedEOF p3)) eqn:Hbad3;
    [done|].
  injection Hcall as <- <-.
  assert (reachedEOF p0 = false) as Hlive0.
  { destruct (reachedEOF p0) eqn:Hreached0; [|done].
    pose proof (M_keeps_nextToken _ _ _ _ Hnext Hreached0) as Hreached1.
    pose proof (M_keeps_NextFrame_headers _ _ _ _ _ _ _ Hloop Hreached1).
    congruence. }
  rewrite Hlive0, andb_true_r in Hbad0. apply bool_decide_eq_false_1 in Hbad0.
  assert (ty0 = COMMAND) as -> by (by destruct (decide (ty0 = COMMAND))).
  rewrite andb_true_r in Hbad. apply bool_decide_eq_false_1 in Hbad.
  assert (ty = BODY) as -> by (by destruct (decide (ty = BODY))).
  exists lit0, p0, tok, p1, lit, headers, p2, ty3, lit3.
  do 5 (split; [done|]). split; [|done].
  destruct (reachedEOF p3); [by right|]. rewrite andb_true_r in Hbad3.
  apply bool_decide_eq_false_1 in Hbad3.
  left. by destruct (decide (ty3 = DELIMITER)).
Qed.

End Returns.

(** The command constant a verb stands for. *)
Lemma commands_at_verb (literal : list byte) :
  isCommand literal = true →
  commands_at (string_of_bytes literal) ∈ command_table.*2.
Proof.
  unfold isCommand, commands_at. intros [c Hc]%bool_decide_eq_true_1.
  rewrite Hc. cbn [default]. apply elem_of_list_to_map_2 in Hc.
  apply list_elem_of_fmap. by exists (string_of_bytes literal, c).
Qed.

(** A frame that [NextFrame] returns without error names one of the
    fifteen commands: the zero value that the lookup of an unknown verb
    gives is never the command of a returned frame.  On any stream. *)
Theorem NextFrame_Command_known {R : Type} `{ReadPeeker R} fuel
    (p p' : StompParser R) (frame : Frame) :
  NextFrame fuel p = Some ((frame, None), p') →
  (1 ≤ Command frame ≤ 15)%Z ∧
  ∃ verb, commands !! verb = Some (Command frame).
Proof.
  intros (lit & p0 & ? & ? & ? & ? & ? & ? & ? & Htoken & _ & _ & _ & _ & _ & ->)
    %NextFrame_frame_inv.
  apply nextToken_COMMAND in Htoken. cbn [Command].
  split.
  - apply commands_at_verb in Htoken.
    apply list_elem_of_fmap in Htoken as ([verb c] & -> & Hin).
    cbn [snd]. unfold command_table in Hin.
    repeat (apply elem_of_cons in Hin as [[= -> ->]|Hin]; [by vm_compute|]).
    by apply elem_of_nil in Hin.
  - exists (string_of_bytes lit). unfold commands_at.
    unfold isCommand in Htoken. apply bool_decide_eq_true_1 in Htoken as [c Hc].
    by rewrite Hc.
Qed.

(** ** The bytes each scanner consumes

    On the unread bytes: what a scanner returned and the bytes it left are
    put back together into the bytes it found. *)

Ltac mred_in Hyp :=
  cbn [bind ret fail stream_Peek stream_ReadByte set_reachedEOF
       set_frameJustEnded get_reachedEOF get_frameJustEnded index
       Peek ReadByte list_ReadPeeker list_Peek list_ReadByte
       stream reachedEOF frameJustEnded is_err length Nat.ltb Nat.leb
       take firstn lookup list_lookup fst snd negb andb orb] in Hyp.

Lemma scanEOL_inv (l : list byte) e j found p' :
  scanEOL (State l e j) = Some (found, p') →
  if found then
    ∃ k, l = eol_bytes k ++ stream p' ∧ p' = State (stream p') e j ∧
         2 ≤ length l
  else
    p' = State l (e || bool_decide (length l < 2)) j ∧ no_EOL_ahead l.
Proof.
  destruct (scanEOL_cases_list l e j) as (found' & l' & e' & -> & Hcases).
  intros [= <- <-]. destruct l as [|c1 [|c2 rest]].
  - destruct Hcases as (-> & -> & ->). by rewrite orb_true_r.
  - destruct Hcases as (-> & -> & ->). by rewrite orb_true_r.
  - destruct Hcases as [-> Hcases]. simpl.
    case_bool_decide as HLF; [|case_bool_decide as HCRLF].
    + destruct Hcases as [-> ->]. subst c1. exists eol_LF.
      split; [done|]. split; [done|]. simpl. lia.
    + destruct Hcases as [-> ->]. destruct HCRLF as [-> ->]. exists eol_CRLF.
      split; [done|]. split; [done|]. simpl. lia.
    + destruct Hcases as [-> ->]. by rewrite orb_false_r.
Qed.

Lemma skipEOLs_inv fuel (l : list byte) e j p' :
  skipEOLs fuel (State l e j) = Some (tt, p') →
  ∃ ks, l = concat (eol_bytes <$> ks) ++ stream p' ∧
        p' = State (stream p') (e || bool_decide (length (stream p') < 2)) j ∧
        no_EOL_ahead (stream p').
Proof.
  revert l. induction fuel as [|fuel IH]; intros l; [done|].
  cbn [skipEOLs]. intros (found & p1 & Hscan & Hrest)%bind_inv.
  apply scanEOL_inv in Hscan. destruct found; cbn [negb] in Hrest.
  - destruct Hscan as (k & Hl & Hp1 & _). rewrite Hp1 in Hrest.
    apply IH in Hrest as (ks & Hl1 & Hp' & Hahead).
    exists (k :: ks). split; [|done].
    rewrite Hl, Hl1 at 1. cbn [fmap list_fmap concat]. by rewrite <- app_assoc.
  - destruct Hscan as [-> Hahead]. injection Hrest as <-. by exists [].
Qed.

Lemma scanTillTerminator_from_inv fuel literal (l : list byte) j
    literal' term' p' :
  scanTillTerminator_from fuel literal NO_TERMINATOR (State l false j)
  = Some ((literal', term'), p') →
  ∃ more, literal' = literal ++ more ∧ (COLON ∉ more) ∧
          frameJustEnded p' = j ∧
          terminated term' more l (stream p') (reachedEOF p').
Proof.
  revert literal l.
  induction fuel as [|fuel IH]; intros literal l; [done|].
  cbn [scanTillTerminator_from]. mred.
  rewrite (bool_decide_eq_true_2 _ eq_refl). cbn [andb].
  intros (found & p1 & Hscan & Hrest)%bind_inv.
  apply scanEOL_inv in Hscan. destruct found.
  { destruct Hscan as (k & Hl & Hp1 & _).
    rewrite scanTillTerminator_from_done in Hrest by (by left).
    injection Hrest as <- <- <-. exists []. rewrite app_nil_r.
    split; [done|]. split; [apply not_elem_of_nil|].
    split; [by rewrite Hp1|]. split; [apply not_elem_of_nil|].
    split; [by rewrite Hp1|]. by exists k. }
  destruct Hscan as [-> Hahead]. cbn [orb] in Hrest.
  destruct l as [|c rest].
  { rewrite (bind_run _ _ _ _ _ (scanHeaderSeparator_nil _ _)) in Hrest.
    mred_in Hrest.
    rewrite scanTillTerminator_from_done in Hrest by (by right).
    injection Hrest as <- <- <-. exists []. rewrite app_nil_r.
    split; [done|]. split; [apply not_elem_of_nil|]. by split. }
  rewrite (bind_run _ _ _ _ _ (scanHeaderSeparator_cons _ _ _ _)) in Hrest.
  case_bool_decide as HCOLON.
  { rewrite scanTillTerminator_from_done in Hrest by (by left).
    injection Hrest as <- <- <-. exists []. rewrite app_nil_r.
    split; [done|]. split; [apply not_elem_of_nil|]. split; [done|].
    split; [apply not_elem_of_nil|]. split; [done|]. subst c. by exists rest. }
  rewrite (bind_run _ _ _ _ _ (stream_ReadByte_cons _ _ _ _)) in Hrest.
  mred_in Hrest. destruct rest as [|c2 rest].
  { cbn [length bool_decide] in Hrest.
    rewrite bool_decide_eq_true_2 in Hrest by (simpl; lia).
    rewrite scanTillTerminator_from_done in Hrest by (by right).
    injection Hrest as <- <- <-. exists [c].
    split; [done|]. split; [|by split].
    by intros ?%list_elem_of_singleton. }
  rewrite bool_decide_eq_false_2 in Hrest by (simpl; lia).
  apply IH in Hrest as (more & -> & Hmore & Hj & Hterm).
  exists (c :: more). rewrite <- app_assoc. split; [done|].
  split; [intros [?|?]%elem_of_cons; [congruence|done]|]. split; [done|].
  destruct Hahead as [HLF _].
  destruct term'; simpl in *.
  - destruct Hterm as (-> & -> & ?). by split.
  - destruct Hterm as (Hno & ? & k & ->). split; [intros [?|?]%elem_of_cons; [congruence|done]|].
    split; [done|]. by exists k.
  - destruct Hterm as (Hno & -> & ?). split; [intros [?|?]%elem_of_cons; [congruence|done]|].
    by split.
Qed.

(** The body scan stops in front of a NUL, or at the end of the stream
    with [reachedEOF] set. *)
Lemma scanTillDelimiter_from_inv fuel literal (l : list byte) e j literal' p' :
  scanTillDelimiter_from fuel literal (State l e j) = Some (literal', p') →
  ∃ more, literal' = literal ++ more ∧ l = more ++ stream p' ∧
          (NUL ∉ more) ∧ frameJustEnded p' = j ∧
          ((∃ rest, stream p' = NUL :: rest) ∧ reachedEOF p' = e ∨
           stream p' = [] ∧ reachedEOF p' = true).
Proof.
  revert literal l. induction fuel as [|fuel IH]; intros literal l; [done|].
  cbn [scanTillDelimiter_from]. destruct l as [|c rest]; mred.
  { intros [= <- <-]. exists []. rewrite app_nil_r. split; [done|].
    split; [done|]. split; [apply not_elem_of_nil|]. split; [done|]. by right. }
  case_bool_decide as HNUL.
  { intros [= <- <-]. exists []. rewrite app_nil_r. split; [done|].
    split; [done|]. split; [apply not_elem_of_nil|]. split; [done|].
    left. subst c. split; [by exists rest|done]. }
  intros (more & -> & -> & Hmore & Hj & Hstop)%IH.
  exists (c :: more). rewrite <- app_assoc. split; [done|]. split; [done|].
  split; [intros [?|?]%elem_of_cons; [congruence|done]|]. by split.
Qed.

Lemma terminated_consumed term more l l' :
  terminated term more l l' false → ∃ consumed, l = consumed ++ l'.
Proof.
  destruct term; simpl.
  - by intros (_ & _ & ?).
  - intros (_ & _ & k & ->). exists (more ++ eol_bytes k).
    by rewrite <- app_assoc.
  - intros (_ & -> & _). by exists more.
Qed.

Lemma nextToken_scan_inv fuel (l : list byte) tokType tokLiteral p' :
  nextToken_scan fuel (State l false false)
  = Some ((tokType, tokLiteral), p') →
  reachedEOF p' = false →
  ∃ consumed, l = consumed ++ stream p' ∧
    token_bytes tokType tokLiteral consumed (stream p') ∧
    frameJustEnded p' = bool_decide (tokType = DELIMITER).
Proof.
  intros Hscan Hlive. destruct l as [|c rest].
  { injection Hscan as <- <- <-. done. }
  destruct (decide (c = NUL)) as [->|HNUL].
  { injection Hscan as <- <- <-. by exists [NUL]. }
  destruct (decide (c = CR ∨ c = LF)) as [HEOL|HEOL].
  { unfold nextToken_scan in Hscan. mred_in Hscan.
    rewrite (bool_decide_eq_false_2 _ HNUL) in Hscan.
    assert (bool_decide (c = CR) || bool_decide (c = LF) = true) as Hc.
    { destruct HEOL as [->| ->]; [done|]. apply orb_true_r. }
    rewrite Hc in Hscan. clear Hc.
    apply bind_inv in Hscan as (found & p1 & Hfound & Hscan).
    apply scanEOL_inv in Hfound. destruct found.
    - destruct Hfound as (k & Hl & Hp1 & _).
      apply bind_inv in Hscan as (literal & p2 & Hbody & [= <- <- <-]).
      unfold scanTillDelimiter in Hbody. rewrite Hp1 in Hbody.
      apply scanTillDelimiter_from_inv in Hbody
        as (more & -> & Hl1 & Hmore & Hj & [[Hrest _]|[_ Hreached]]);
        [|congruence].
      exists (eol_bytes k ++ more). rewrite Hl, Hl1 at 1.
      split; [by rewrite <- app_assoc|]. split; [|done].
      simpl. split; [done|]. split; [by exists k|done].
    - destruct Hfound as [-> _]. injection Hscan as <- <- <-. by exists []. }
  assert (c ≠ CR ∧ c ≠ LF) as [HCR HLF] by (split; intros ->; tauto).
  destruct (decide (c = COLON)) as [->|HCOLON].
  { rewrite nextToken_scan_COLON in Hscan.
    apply bind_inv in Hscan as ([literal term] & p1 & Hline & Hscan).
    unfold scanTillTerminator in Hline.
    apply scanTillTerminator_from_inv in Hline as (more & -> & Hmore & Hj & Hterm).
    cbn [app] in *.
    assert (p1 = p') as ->.
    { by destruct (bool_decide (term = EOL)); injection Hscan as _ _ <-. }
    rewrite Hlive in Hterm.
    destruct term; cbn [bool_decide decide_rel] in Hscan.
    - injection Hscan as <- <-.
      destruct (terminated_consumed _ _ _ _ Hterm) as [consumed ->].
      by exists (COLON :: consumed).
    - injection Hscan as <- <-. destruct Hterm as (HLF' & _ & k & ->).
      exists (COLON :: more ++ eol_bytes k). cbn [app]. rewrite <- app_assoc.
      split; [done|]. split; [|done]. simpl. split; [done|]. split; [done|].
      by exists k.
    - injection Hscan as <- <-.
      destruct (terminated_consumed _ _ _ _ Hterm) as [consumed ->].
      by exists (COLON :: consumed). }
  rewrite nextToken_scan_name in Hscan by done.
  apply bind_inv in Hscan as ([literal term] & p1 & Hline & Hscan).
  unfold scanTillTerminator in Hline.
  apply scanTillTerminator_from_inv in Hline as (more & -> & Hmore & Hj & Hterm).
  cbn [app] in *.
  assert (p1 = p') as ->.
  { destruct (isCommand more && bool_decide (term = EOL));
      [|destruct (bool_decide (term = HEADER_SEPARATOR))];
      by injection Hscan as _ _ <-. }
  rewrite Hlive in Hterm.
  destruct (terminated_consumed _ _ _ _ Hterm) as [consumed Hconsumed].
  destruct (isCommand more) eqn:Hverb, term;
    cbn [andb bool_decide decide_rel] in Hscan;
    injection Hscan as <- <-; try (by exists consumed).
  - destruct Hterm as (_ & _ & k & Heq). exists (more ++ eol_bytes k).
    rewrite <- app_assoc. split; [done|]. split; [|done]. cbn [token_bytes].
    split; [done|]. by exists k.
  - destruct Hterm as (HLF' & Heq & rest' & Hrest). exists more.
    split; [done|]. split; [|done]. cbn [token_bytes].
    split; [|repeat split; eauto]. intros ->. rewrite Hrest in Heq.
    simpl in Heq. congruence.
  - destruct Hterm as (HLF' & Heq & rest' & Hrest). exists more.
    split; [done|]. split; [|done]. cbn [token_bytes].
    split; [|repeat split; eauto]. intros ->. rewrite Hrest in Heq.
    simpl in Heq. congruence.
Qed.

(** A token returned with [reachedEOF] down: the unread bytes were the
    blank lines skipped at a frame boundary, then the bytes of the token,
    then what is left unread. *)
Lemma nextToken_inv fuel (l : list byte) e j tokType tokLiteral p' :
  nextToken fuel (State l e j) = Some ((tokType, tokLiteral), p') →
  reachedEOF p' = false →
  e = false ∧
  ∃ ks consumed,
    l = concat (eol_bytes <$> ks) ++ consumed ++ stream p' ∧
    (j = false → ks = []) ∧
    token_bytes tokType tokLiteral consumed (stream p') ∧
    frameJustEnded p' = bool_decide (tokType = DELIMITER).
Proof.
  intros Htoken Hlive.
  assert (e = false) as ->.
  { destruct e; [|done].
    pose proof (M_keeps_nextToken _ _ _ _ Htoken eq_refl). congruence. }
  split; [done|]. rewrite nextToken_parts in Htoken.
  apply bind_inv in Htoken as ([] & p1 & Hskip & Hscan).
  assert (∃ ks l1 e1, p1 = State l1 e1 false ∧
            l = concat (eol_bytes <$> ks) ++ l1 ∧ (j = false → ks = []))
    as (ks & l1 & e1 & -> & -> & Hks).
  { unfold nextToken_skip in Hskip. destruct j; mred_in Hskip.
    - apply bind_inv in Hskip as ([] & p0 & Hskip & [= <-]).
      apply skipEOLs_inv in Hskip as (ks & Hl & _ & _).
      by exists ks, (stream p0), (reachedEOF p0).
    - injection Hskip as <-. by exists [], l, false. }
  assert (e1 = false) as ->.
  { destruct e1; [|done].
    assert (nextToken fuel (State l1 true false)
            = Some ((tokType, tokLiteral), p')) as Htoken
      by (by rewrite nextToken_parts).
    pose proof (M_keeps_nextToken _ _ _ _ Htoken eq_refl). congruence. }
  apply nextToken_scan_inv in Hscan as (consumed & -> & Hbytes & Hj); [|done].
  by exists ks, consumed.
Qed.

(** ** Every frame returned was read from bytes of the wire grammar *)

Lemma forallb_line_byte (literal : list byte) :
  COLON ∉ literal → LF ∉ literal → forallb line_byte literal = true.
Proof.
  intros HCOLON HLF. apply forallb_forall. intros c Hc%list_elem_of_In.
  unfold line_byte.
  rewrite !bool_decide_eq_false_2; [done|congruence|congruence].
Qed.

Lemma forallb_body_ok (body : list byte) : NUL ∉ body → body_ok body = true.
Proof.
  intros HNUL. apply forallb_forall. intros c Hc%list_elem_of_In.
  rewrite bool_decide_eq_false_2; [done|congruence].
Qed.

(** The header loop, from the token before it: the bytes read are the
    header lines written into the map, up to the first token that is no
    header key. *)
Lemma NextFrame_headers_inv fuel rounds (l0 : list byte) tok p m tok' m' p' :
  nextToken fuel (State l0 false false) = Some (tok, p) →
  NextFrame_headers fuel rounds tok m p = Some (inr (tok', m'), p') →
  reachedEOF p' = false →
  ∃ hs l1,
    l0 = concat (map header_bytes hs) ++ l1 ∧
    forallb header_accepted hs = true ∧ m' = headers_from m hs ∧
    nextToken fuel (State l1 false false) = Some (tok', p') ∧
    tok'.1 ≠ HEADER_KEY.
Proof.
  revert l0 tok p m.
  induction rounds as [|rounds IH]; intros l0 [ty lit] p m Htoken Hloop Hlive;
    cbn [NextFrame_headers] in Hloop; case_bool_decide as Hkey; try done;
    try (injection Hloop as <- <- <-; by exists [], l0).
  subst ty.
  apply bind_inv in Hloop as ([ty1 lit1] & p1 & Hvalue & Hloop).
  apply bind_inv in Hloop as (reached & ? & [-> ->]%get_reachedEOF_inv & Hloop).
  destruct (bool_decide (ty1 ≠ HEADER_VALUE) && negb (reachedEOF p1)) eqn:Hbad;
    [done|].
  apply bind_inv in Hloop as (tok2 & p2 & Hnext & Hloop).
  assert (reachedEOF p2 = false) as Hlive2.
  { destruct (reachedEOF p2) eqn:Hreached; [|done].
    pose proof (M_keeps_NextFrame_headers _ _ _ _ _ _ _ Hloop Hreached).
    congruence. }
  assert (reachedEOF p1 = false) as Hlive1.
  { destruct (reachedEOF p1) eqn:Hreached; [|done].
    pose proof (M_keeps_nextToken _ _ _ _ Hnext Hreached). congruence. }
  assert (reachedEOF p = false) as Hlive0.
  { destruct (reachedEOF p) eqn:Hreached; [|done].
    pose proof (M_keeps_nextToken _ _ _ _ Hvalue Hreached). congruence. }
  rewrite Hlive1, andb_true_r in Hbad. apply bool_decide_eq_false_1 in Hbad.
  assert (ty1 = HEADER_VALUE) as -> by (by destruct (decide (ty1 = HEADER_VALUE))).
  apply nextToken_inv in Htoken
    as (_ & ks & consumed & Hl0 & Hks & Hbytes & Hj); [|done].
  rewrite (Hks eq_refl) in Hl0. cbn [fmap list_fmap concat app] in Hl0.
  destruct Hbytes as (Hlit & HCOLON & HLF & -> & _).
  destruct p as [l e j]. cbn [stream reachedEOF frameJustEnded] in *.
  subst e j. cbn [bool_decide decide_rel] in Hvalue.
  apply nextToken_inv in Hvalue
    as (_ & ks1 & consumed1 & Hl & Hks1 & Hbytes1 & Hj1); [|done].
  rewrite (Hks1 eq_refl) in Hl. cbn [fmap list_fmap concat app] in Hl.
  destruct Hbytes1 as (HCOLON1 & HLF1 & k & ->).
  destruct p1 as [l1 e1 j1]. cbn [stream reachedEOF frameJustEnded] in *.
  subst e1 j1. cbn [bool_decide decide_rel] in Hnext.
  destruct (IH _ _ _ _ Hnext Hloop Hlive) as (hs & l2 & Hl1 & Hhs & Hm & Hlast & Hty).
  exists ({| header_key := lit; header_value := lit1; header_eol := k |} :: hs),
    l2.
  split.
  { rewrite Hl0, Hl, Hl1. cbn [map concat].
    set (lines := concat (map header_bytes hs)). unfold header_bytes.
    cbn [header_key header_value header_eol].
    by rewrite <- !app_assoc, <- app_comm_cons, <- !app_assoc. }
  split; [|done]. cbn [forallb]. rewrite Hhs, andb_true_r.
  unfold header_accepted. cbn [header_key header_value].
  rewrite !forallb_line_byte by done. by destruct lit.
Qed.

(** A call that returns a frame: the unread bytes were the blank lines
    skipped at a frame boundary, then a frame of the grammar that stands
    for the frame returned, then the bytes left unread. *)
Lemma NextFrame_inv fuel (l : list byte) e j frame p' :
  NextFrame fuel (State l e j) = Some ((frame, None), p') →
  e = false ∧
  ∃ ks w rest,
    l = concat (map eol_bytes ks) ++ frame_bytes w ++ rest ∧
    (j = false → ks = []) ∧
    accepted w = true ∧ frame = frame_of w ∧ p' = State rest false true.
Proof.
  intros (command & p0 & tok & p1 & body & headers & p2 & ty3 & lit3 &
          Hcommand & Hnext & Hloop & Hlive2 & Hlast & _ & ->)%NextFrame_frame_inv.
  assert (reachedEOF p1 = false) as Hlive1.
  { destruct (reachedEOF p1) eqn:Hreached; [|done].
    pose proof (M_keeps_NextFrame_headers _ _ _ _ _ _ _ Hloop Hreached).
    congruence. }
  assert (reachedEOF p0 = false) as Hlive0.
  { destruct (reachedEOF p0) eqn:Hreached; [|done].
    pose proof (M_keeps_nextToken _ _ _ _ Hnext Hreached). congruence. }
  apply nextToken_inv in Hcommand
    as (-> & ks & consumed & Hl & Hks & Hbytes & Hj0); [|done].
  split; [done|]. destruct Hbytes as (Hverb & k0 & ->).
  destruct p0 as [l0 e0 j0]. cbn [stream reachedEOF frameJustEnded] in *.
  subst e0 j0. cbn [bool_decide decide_rel] in Hnext.
  destruct (NextFrame_headers_inv _ _ _ _ _ _ _ _ _ Hnext Hloop Hlive2)
    as (hs & l1 & Hl0 & Hhs & -> & Hbody & _).
  apply nextToken_inv in Hbody
    as (_ & ks1 & consumed1 & Hl1 & Hks1 & Hbytes1 & Hj2); [|done].
  rewrite (Hks1 eq_refl) in Hl1. cbn [fmap list_fmap concat app] in Hl1.
  destruct Hbytes1 as (HNUL & [k1 ->] & rest & Hrest).
  destruct p2 as [l2 e2 j2]. cbn [stream reachedEOF frameJustEnded] in *.
  subst l2 e2 j2. cbn [bool_decide decide_rel] in Hlast.
  rewrite nextToken_NUL in Hlast. injection Hlast as _ _ <-.
  exists ks,
    {| wire_command := command; wire_command_eol := k0; wire_headers := hs;
       wire_blank := k1; wire_body := body |}, rest.
  split.
  { rewrite Hl, Hl0, Hl1. unfold frame_bytes.
    cbn [wire_command wire_command_eol wire_headers wire_blank wire_body].
    replace (concat (eol_bytes <$> ks)) with (concat (map eol_bytes ks)) by done.
    f_equal. by rewrite <- !app_assoc. }
  split; [done|]. split; [|done]. unfold accepted.
  cbn [wire_command wire_headers wire_body].
  by rewrite Hverb, Hhs, forallb_body_ok.
Qed.

(** ** The scanners over [bufio.Reader] *)

Section Scanners.
Context {Src : Type} `{ReaderSpec Src}.

Lemma on_view {A} (c1 : M (bufioReader Src) A) (c2 : M (list byte) A)
    (p : StompParser (bufioReader Src)) a q :
  M_sim bufio_sim c1 c2 → parser_ok p → c2 (view p) = Some (a, q) →
  ∃ p', c1 p = Some (a, p') ∧ parser_ok p' ∧ view p' = q.
Proof.
  intros Hsim Hok Hq. pose proof (refines c1 c2 p Hsim Hok) as Href.
  by rewrite Hq in Href.
Qed.

Lemma of_view {A} (c1 : M (bufioReader Src) A) (c2 : M (list byte) A)
    (p p' : StompParser (bufioReader Src)) a :
  M_sim bufio_sim c1 c2 → parser_ok p → c1 p = Some (a, p') →
  c2 (view p) = Some (a, view p') ∧ parser_ok p'.
Proof.
  intros Hsim Hok Hp. pose proof (refines c1 c2 p Hsim Hok) as Href.
  destruct (c2 (view p)) as [[a2 q]|]; [|congruence].
  destruct Href as (p2 & Hp2 & Hok2 & <-). rewrite Hp in Hp2.
  by injection Hp2 as <- <-.
Qed.

Lemma view_State (p : StompParser (bufioReader Src)) :
  view p = State (unread (stream p)) (reachedEOF p) (frameJustEnded p).
Proof. done. Qed.

(** [scanHeaderSeparator] only looks: it tells whether the next unread
    byte is a colon and consumes nothing; with nothing unread it answers
    [false] and sets [reachedEOF]. *)
Theorem scanHeaderSeparator_peeks (p : StompParser (bufioReader Src)) :
  parser_ok p →
  ∃ p',
    scanHeaderSeparator p
    = Some (bool_decide (head (unread (stream p)) = Some COLON), p') ∧
    parser_ok p' ∧
    unread (stream p') = unread (stream p) ∧
    reachedEOF p' = reachedEOF p || bool_decide (unread (stream p) = []) ∧
    frameJustEnded p' = frameJustEnded p.
Proof.
  intros Hok.
  assert (scanHeaderSeparator (view p)
          = Some (bool_decide (head (unread (stream p)) = Some COLON),
                  State (unread (stream p))
                    (reachedEOF p || bool_decide (unread (stream p) = []))
                    (frameJustEnded p))) as Hlist.
  { rewrite view_State. destruct (unread (stream p)) as [|c rest].
    - by rewrite scanHeaderSeparator_nil, orb_true_r.
    - rewrite scanHeaderSeparator_cons, orb_false_r. do 2 f_equal.
      cbn [head]. apply bool_decide_ext. split; congruence. }
  destruct (on_view scanHeaderSeparator scanHeaderSeparator p _ _
              ltac:(eauto using scanHeaderSeparator_sim, bufio_sim_ReadByte,
                      bufio_sim_Peek) Hok Hlist) as (p' & Hp' & Hok' & Hview).
  exists p'. injection Hview as Hl He Hj.
  split; [done|]. split; [done|]. split; [done|]. by split.
Qed.

(** [skipEOLs] consumes a run of ends of line and nothing else, and
    stops where [scanEOL] matches no longer: with fewer than two bytes
    unread, which sets [reachedEOF] (so a single LF that ends the stream
    is left unread), or in front of bytes that begin no end of line. *)
Theorem skipEOLs_run (fuel : nat) (p : StompParser (bufioReader Src)) :
  parser_ok p → length (unread (stream p)) < fuel →
  ∃ ks p',
    skipEOLs fuel p = Some (tt, p') ∧ parser_ok p' ∧
    unread (stream p) = concat (map eol_bytes ks) ++ unread (stream p') ∧
    no_EOL_ahead (unread (stream p')) ∧
    reachedEOF p'
    = reachedEOF p || bool_decide (length (unread (stream p')) < 2) ∧
    frameJustEnded p' = frameJustEnded p.
Proof.
  intros Hok Hfuel.
  destruct (skipEOLs_total fuel (view p) Hfuel) as (q & Hskip & _).
  destruct (on_view (skipEOLs fuel) (skipEOLs fuel) p _ _
              ltac:(eauto using skipEOLs_sim, bufio_sim_ReadByte,
                      bufio_sim_Peek) Hok Hskip) as (p' & Hp' & Hok' & <-).
  rewrite view_State in Hskip.
  apply skipEOLs_inv in Hskip as (ks & Hl & Hq & Hahead).
  exists ks, p'. injection Hq as He Hj.
  split; [done|]. split; [done|]. split; [done|]. split; [done|]. by split.
Qed.

(** [scanTillTerminator] returns, and the literal and the terminator
    account for the bytes it took: the literal holds no colon; after
    [EOL] the literal and one end of line were consumed; after
    [HEADER_SEPARATOR] the literal alone, the colon being left unread;
    with no terminator the literal is all that was left of the stream
    and [reachedEOF] is set. *)
Theorem scanTillTerminator_consumed (fuel : nat)
    (p : StompParser (bufioReader Src)) :
  parser_ok p → reachedEOF p = false → length (unread (stream p)) < fuel →
  ∃ literal term p',
    scanTillTerminator fuel p = Some ((literal, term), p') ∧ parser_ok p' ∧
    (COLON ∉ literal) ∧
    terminated term literal (unread (stream p)) (unread (stream p'))
      (reachedEOF p') ∧
    frameJustEnded p' = frameJustEnded p.
Proof.
  intros Hok Hlive Hfuel.
  destruct (scanTillTerminator_from_total fuel [] NO_TERMINATOR (view p) Hfuel)
    as (literal & term & q & Hscan & _).
  destruct (on_view (scanTillTerminator fuel) (scanTillTerminator fuel) p _ _
              ltac:(eauto using scanTillTerminator_sim, bufio_sim_ReadByte,
                      bufio_sim_Peek) Hok Hscan) as (p' & Hp' & Hok' & <-).
  rewrite view_State, Hlive in Hscan.
  apply scanTillTerminator_from_inv in Hscan as (more & -> & Hmore & Hj & Hterm).
  by exists more, term, p'.
Qed.

(** A token returned with [reachedEOF] down accounts for the bytes it
    took: the blank lines skipped (none unless the call began at a frame
    boundary), then the bytes of the token by its kind ([token_bytes]);
    and the boundary flag is up afterwards exactly if the token is the
    delimiter. *)
Theorem nextToken_consumed (fuel : nat) (p p' : StompParser (bufioReader Src))
    (tokType : TokenType) (tokLiteral : list byte) :
  parser_ok p →
  nextToken fuel p = Some ((tokType, tokLiteral), p') →
  reachedEOF p' = false →
  ∃ ks consumed,
    unread (stream p)
    = concat (map eol_bytes ks) ++ consumed ++ unread (stream p') ∧
    (frameJustEnded p = false → ks = []) ∧
    token_bytes tokType tokLiteral consumed (unread (stream p')) ∧
    frameJustEnded p' = bool_decide (tokType = DELIMITER).
Proof.
  intros Hok Htoken Hlive.
  destruct (of_view (nextToken fuel) (nextToken fuel) p p' _
              ltac:(eauto using nextToken_sim, bufio_sim_ReadByte,
                      bufio_sim_Peek) Hok Htoken) as [Hlist _].
  rewrite view_State in Hlist.
  apply nextToken_inv in Hlist as (_ & ks & consumed & Hl & Hks & Hbytes & Hj);
    [|done].
  by exists ks, consumed.
Qed.

(** Every frame that [NextFrame] returns without error was read from
    bytes of the wire grammar: the unread bytes were the blank lines
    skipped (none unless the call began at a frame boundary), then
    [COMMAND EOL (KEY ':' VALUE EOL)* EOL BODY NUL] with a verb for
    command, non-empty keys, keys and values free of LF and colon and a
    body free of NUL, then the bytes left unread; and the frame returned
    is the one those bytes stand for. *)
Theorem NextFrame_frame_of_grammar (fuel : nat)
    (p p' : StompParser (bufioReader Src)) (frame : Frame) :
  parser_ok p →
  NextFrame fuel p = Some ((frame, None), p') →
  ∃ ks w,
    unread (stream p)
    = concat (map eol_bytes ks) ++ frame_bytes w ++ unread (stream p') ∧
    (frameJustEnded p = false → ks = []) ∧
    accepted w = true ∧ frame = frame_of w ∧
    reachedEOF p' = false ∧ frameJustEnded p' = true.
Proof.
  intros Hok Hcall.
  destruct (of_view (NextFrame fuel) (NextFrame fuel) p p' _
              ltac:(eauto using NextFrame_sim, bufio_sim_ReadByte,
                      bufio_sim_Peek) Hok Hcall) as [Hlist _].
  rewrite view_State in Hlist.
  apply NextFrame_inv in Hlist as (_ & ks & w & rest & Hl & Hks & Hw & -> & Hq).
  exists ks, w. injection Hq as <- He Hj.
  split; [done|]. split; [done|]. split; [done|]. split; [done|]. by split.
Qed.

End Scanners.

(** ** Calls of [NextFrame] *)

(** With [reachedEOF] set the header loop returns no error. *)
Lemma NextFrame_headers_reached {R : Type} `{ReadPeeker R} fuel rounds tok m
    (p p' : StompParser R) looped :
  reachedEOF p = true →
  NextFrame_headers fuel rounds tok m p = Some (looped, p') →
  ∃ tok' m', looped = inr (tok', m').
Proof.
  revert tok m p. induction rounds as [|rounds IH];
    intros [ty lit] m p Hreached Hloop;
    cbn [NextFrame_headers] in Hloop; case_bool_decide; try done;
    try (injection Hloop as <- _; by eexists _, _).
  apply bind_inv in Hloop as ([ty1 lit1] & p1 & Hvalue & Hloop).
  pose proof (M_keeps_nextToken _ _ _ _ Hvalue Hreached) as Hreached1.
  apply bind_inv in Hloop as (reached & ? & [-> ->]%get_reachedEOF_inv & Hloop).
  rewrite Hreached1, andb_false_r in Hloop.
  apply bind_inv in Hloop as (tok2 & p2 & Hnext & Hloop).
  pose proof (M_keeps_nextToken _ _ _ _ Hnext Hreached1) as Hreached2.
  by eapply IH.
Qed.

(** Once [reachedEOF] is set, a call that returns returns [Frame{}] with
    [io.EOF] and leaves the flag set: the end of the stream is reported
    from then on.  On any stream. *)
Theorem reachedEOF_is_permanent {R : Type} `{ReadPeeker R} (fuel : nat)
    (p p' : StompParser R) (frame : Frame) (err : option error) :
  reachedEOF p = true →
  NextFrame fuel p = Some ((frame, err), p') →
  frame = Frame_zero ∧ err = Some io_EOF ∧ reachedEOF p' = true.
Proof.
  intros Hreached Hcall.
  pose proof (M_keeps_NextFrame _ _ _ _ Hcall Hreached) as Hreached'.
  unfold NextFrame in Hcall.
  apply bind_inv in Hcall as ([ty0 lit0] & p0 & Hcommand & Hcall).
  pose proof (M_keeps_nextToken _ _ _ _ Hcommand Hreached) as Hreached0.
  apply bind_inv in Hcall as (reached0 & ? & [-> ->]%get_reachedEOF_inv & Hcall).
  rewrite Hreached0, andb_false_r in Hcall.
  apply bind_inv in Hcall as (tok & p1 & Hnext & Hcall).
  pose proof (M_keeps_nextToken _ _ _ _ Hnext Hreached0) as Hreached1.
  apply bind_inv in Hcall as (looped & p2 & Hloop & Hcall).
  pose proof (M_keeps_NextFrame_headers _ _ _ _ _ _ _ Hloop Hreached1)
    as Hreached2.
  destruct (NextFrame_headers_reached _ _ _ _ _ _ _ Hreached1 Hloop)
    as ([ty lit] & headers & ->).
  apply bind_inv in Hcall as (reached & ? & [-> ->]%get_reachedEOF_inv & Hcall).
  rewrite Hreached2, andb_false_r in Hcall.
  apply bind_inv in Hcall as (reached & ? & [-> ->]%get_reachedEOF_inv & Hcall).
  rewrite Hreached2 in Hcall. by injection Hcall as <- <- <-.
Qed.

(** *** A CR that begins no end of line *)

Lemma nextToken_lone_CR fuel (c : byte) rest j :
  c ≠ LF → 0 < fuel →
  nextToken fuel (State (CR :: c :: rest) false j)
  = Some ((INVALID_TOKEN, []), State (CR :: c :: rest) false false).
Proof.
  intros HLF Hfuel.
  assert (∀ j', scanEOL (State (CR :: c :: rest) false j')
                = Some (false, State (CR :: c :: rest) false j')) as Hscan.
  { intros j'. apply scanEOL_none; [done|]. by intros [_ ?]. }
  rewrite nextToken_parts.
  assert (nextToken_skip fuel (State (CR :: c :: rest) false j)
          = Some (tt, State (CR :: c :: rest) false false)) as Hskip.
  { unfold nextToken_skip. mred. destruct j; [|done].
    destruct fuel as [|fuel]; [lia|]. cbn [skipEOLs].
    by rewrite (bind_run _ _ _ _ _ (bind_run _ _ _ _ _ (Hscan true))). }
  rewrite (bind_run _ _ _ _ _ Hskip). unfold nextToken_scan. mred.
  rewrite bool_decide_eq_false_2 by done.
  rewrite (bool_decide_eq_true_2 (CR = CR)) by done. cbn [orb].
  by rewrite (bind_run _ _ _ _ _ (Hscan false)).
Qed.

Lemma NextFrame_lone_CR fuel (c : byte) rest j :
  c ≠ LF → 0 < fuel →
  NextFrame fuel (State (CR :: c :: rest) false j)
  = Some ((Frame_zero, Some (ParseError "Frame must begin with a command")),
          State (CR :: c :: rest) false false).
Proof.
  intros HLF Hfuel. unfold NextFrame.
  by rewrite (bind_run _ _ _ _ _ (nextToken_lone_CR fuel c rest j HLF Hfuel)).
Qed.

Lemma drain_lone_CR fuel calls (c : byte) rest j :
  c ≠ LF → 0 < fuel →
  ∃ j',
    drain fuel calls (State (CR :: c :: rest) false j)
    = Some (replicate calls
              (Frame_zero, Some (ParseError "Frame must begin with a command")),
            State (CR :: c :: rest) false j').
Proof.
  intros HLF Hfuel. revert j. induction calls as [|calls IH]; intros j.
  { by exists j. }
  destruct (IH false) as [j' Hrest]. exists j'. cbn [drain].
  rewrite (bind_run _ _ _ _ _ (NextFrame_lone_CR fuel c rest j HLF Hfuel)).
  rewrite bool_decide_eq_false_2 by done.
  by rewrite (bind_run _ _ _ _ _ Hrest).
Qed.

(** *** A line that is no verb, at the command position *)

Lemma nextToken_word fuel word (k : eol_kind) rest j :
  name_ok word = true → rest ≠ [] →
  length (word ++ eol_bytes k ++ rest) < fuel →
  nextToken fuel (State (word ++ eol_bytes k ++ rest) false j)
  = Some ((if isCommand word then COMMAND else INVALID_TOKEN, word),
          State rest false false).
Proof.
  intros Hword Hrest Hfuel.
  destruct (name_ok_spec word Hword) as (c & name' & -> & HNUL & Htext).
  pose proof Htext as Hc.
  apply andb_true_iff in Hc as [(HCR & HLF & HCOLON)%text_byte_spec _].
  pose proof (scanTillTerminator_line fuel (c :: name') k rest false
                Htext Hrest Hfuel) as Hscan.
  assert (name' ++ eol_bytes k ++ rest ≠ []) as Hmore
    by (by destruct name', k).
  rewrite nextToken_parts. cbn [app] in *.
  rewrite (bind_run _ _ _ _ _
             (nextToken_skip_name fuel c _ false j HLF HCR Hmore
                ltac:(lia))).
  rewrite nextToken_scan_name by done.
  rewrite (bind_run _ _ _ _ _ Hscan). by destruct (isCommand (c :: name')).
Qed.

Lemma NextFrame_unknown_word fuel word (k : eol_kind) rest j :
  name_ok word = true → isCommand word = false → rest ≠ [] →
  length (word ++ eol_bytes k ++ rest) < fuel →
  NextFrame fuel (State (word ++ eol_bytes k ++ rest) false j)
  = Some ((Frame_zero, Some (ParseError "Frame must begin with a command")),
          State rest false false).
Proof.
  intros Hword Hverb Hrest Hfuel. unfold NextFrame.
  rewrite (bind_run _ _ _ _ _ (nextToken_word fuel word k rest j Hword Hrest Hfuel)).
  by rewrite Hverb.
Qed.

(** *** A colon inside a header value *)

(** The header loop takes well-formed header lines, whatever follows. *)
Lemma NextFrame_headers_over_lines (hs : list HeaderLine) fuel rounds m more :
  forallb header_ok hs = true → more ≠ [] →
  length (concat (map header_bytes hs) ++ more) < fuel →
  length hs ≤ rounds →
  (let* tok := nextToken fuel in NextFrame_headers fuel rounds tok m)
    (State (concat (map header_bytes hs) ++ more) false false)
  = (let* tok := nextToken fuel in
     NextFrame_headers fuel (rounds - length hs) tok (headers_from m hs))
      (State more false false).
Proof.
  intros Hhs Hmore. revert rounds m.
  induction hs as [|h hs IH]; intros rounds m Hfuel Hrounds.
  { cbn [map concat app length]. by rewrite Nat.sub_0_r. }
  apply andb_true_iff in Hhs as [[Hkey Hvalue]%andb_true_iff Hhs].
  set (tl := concat (map header_bytes hs) ++ more) in *.
  assert (tl ≠ []) as Htl.
  { subst tl. by destruct (concat (map header_bytes hs)), more. }
  assert (concat (map header_bytes (h :: hs)) ++ more
          = header_key h ++
            COLON :: header_value h ++ eol_bytes (header_eol h) ++ tl)
    as Hstream.
  { subst tl. cbn [map concat]. unfold header_bytes.
    by rewrite <- !app_assoc, <- app_comm_cons, <- !app_assoc. }
  rewrite Hstream in *.
  assert (header_value h ++ eol_bytes (header_eol h) ++ tl ≠ []) as Hline
    by (by destruct (header_value h), (header_eol h)).
  rewrite (bind_run _ _ _ _ _ (nextToken_key fuel (header_key h) _ Hkey
                                 Hline Hfuel)).
  rewrite length_app in Hfuel. cbn [length] in Hfuel, Hrounds.
  destruct rounds as [|rounds]; [lia|]. cbn [NextFrame_headers].
  rewrite (bool_decide_eq_true_2 _ eq_refl).
  rewrite (bind_run _ _ _ _ _ (nextToken_value fuel (header_value h)
                                 (header_eol h) tl Hvalue Htl
                                 ltac:(cbn [length]; lia))).
  mred. rewrite bool_decide_eq_false_2 by (by intros ?). mred.
  rewrite !length_app in Hfuel. cbn [Nat.sub].
  apply IH; [done|lia|lia].
Qed.

Lemma nextToken_value_COLON fuel value (c : byte) rest :
  forallb text_byte value = true →
  length (COLON :: value ++ COLON :: c :: rest) < fuel →
  nextToken fuel (State (COLON :: value ++ COLON :: c :: rest) false false)
  = Some ((INVALID_TOKEN, value), State (COLON :: c :: rest) false false).
Proof.
  intros Hvalue Hfuel. rewrite nextToken_parts.
  unfold nextToken_skip at 1. mred. rewrite nextToken_scan_COLON.
  by rewrite (bind_run _ _ _ _ _
                (scanTillTerminator_key fuel value (c :: rest) false Hvalue
                   ltac:(done) ltac:(simpl in Hfuel; lia))).
Qed.

Lemma NextFrame_value_COLON fuel command (k : eol_kind) hs key value
    (c : byte) rest j :
  isCommand command = true → forallb header_ok hs = true →
  name_ok key = true → forallb text_byte value = true →
  length (command ++ eol_bytes k ++ concat (map header_bytes hs) ++
          key ++ COLON :: value ++ COLON :: c :: rest) < fuel →
  NextFrame fuel
    (State (command ++ eol_bytes k ++ concat (map header_bytes hs) ++
            key ++ COLON :: value ++ COLON :: c :: rest) false j)
  = Some ((Frame_zero, Some (ParseError "Headers must have values")),
          State (COLON :: c :: rest) false false).
Proof.
  intros Hcommand Hhs Hkey Hvalue Hfuel. unfold NextFrame.
  set (line := key ++ COLON :: value ++ COLON :: c :: rest) in *.
  assert (line ≠ []) as Hline by (subst line; by destruct key).
  assert (concat (map header_bytes hs) ++ line ≠ []) as Hmore.
  { by destruct (concat (map header_bytes hs)), line. }
  rewrite (bind_run _ _ _ _ _
             (nextToken_command fuel _ _ _ j Hcommand Hmore Hfuel)).
  mred. rewrite bool_decide_eq_false_2 by (by intros ?). mred.
  rewrite !length_app in Hfuel.
  rewrite <- (bind_assoc (nextToken fuel)
                (λ tok, NextFrame_headers fuel fuel tok ∅)).
  pose proof (length_concat_header_bytes hs) as Hlines.
  assert ((let* tok := nextToken fuel in NextFrame_headers fuel fuel tok ∅)
            (State (concat (map header_bytes hs) ++ line) false false)
          = Some (inl (ParseError "Headers must have values"),
                  State (COLON :: c :: rest) false false)) as Hloop.
  { rewrite NextFrame_headers_over_lines;
      [|done|done|rewrite length_app; lia|lia].
    assert (length line < fuel) as Hfuel' by lia.
    assert (value ++ COLON :: c :: rest ≠ []) as Htl by (by destruct value).
    subst line.
    rewrite (bind_run _ _ _ _ _
               (nextToken_key fuel key (value ++ COLON :: c :: rest)
                  Hkey Htl Hfuel')).
    destruct (fuel - length hs) as [|rounds] eqn:Hrounds; [lia|].
    cbn [NextFrame_headers]. rewrite (bool_decide_eq_true_2 _ eq_refl).
    assert (length (COLON :: value ++ COLON :: c :: rest) < fuel) as Hfuel''
      by (rewrite length_app in Hfuel'; lia).
    rewrite (bind_run _ _ _ _ _
               (nextToken_value_COLON fuel value c rest Hvalue Hfuel'')).
    mred. by rewrite bool_decide_eq_true_2 by done. }
  by rewrite (bind_run _ _ _ _ _ Hloop).
Qed.

(** *** Blank lines in front of a frame *)

Lemma skipEOLs_over_run fuel (ks : list eol_kind) (c1 c2 : byte) rest e j :
  c1 ≠ LF → c1 ≠ CR →
  length (concat (map eol_bytes ks) ++ c1 :: c2 :: rest) < fuel →
  skipEOLs fuel (State (concat (map eol_bytes ks) ++ c1 :: c2 :: rest) e j)
  = Some (tt, State (c1 :: c2 :: rest) e j).
Proof.
  intros HLF HCR. revert fuel.
  induction ks as [|k ks IH]; intros fuel Hfuel;
    (destruct fuel as [|fuel]; [lia|]); cbn [skipEOLs map concat app].
  { rewrite (bind_run _ _ _ _ _
               (scanEOL_none c1 c2 rest e j HLF (λ H, HCR (proj1 H)))).
    done. }
  rewrite <- app_assoc.
  assert (concat (map eol_bytes ks) ++ c1 :: c2 :: rest ≠ []) as Hmore
    by (by destruct (concat (map eol_bytes ks))).
  rewrite (bind_run _ _ _ _ _ (scanEOL_eol k _ e j Hmore)).
  cbn [negb]. apply IH. cbn [map concat] in Hfuel.
  rewrite <- app_assoc, length_app in Hfuel. destruct k; simpl in *; lia.
Qed.

Lemma NextFrame_after_blank_lines fuel (ks : list eol_kind) (w : WireFrame)
    rest :
  well_formed w = true →
  length (concat (map eol_bytes ks) ++ frame_bytes w ++ rest) < fuel →
  NextFrame fuel
    (State (concat (map eol_bytes ks) ++ frame_bytes w ++ rest) false true)
  = Some ((frame_of w, None), State rest false true).
Proof.
  intros Hw Hfuel.
  assert (∃ c1 c2 tl, frame_bytes w ++ rest = c1 :: c2 :: tl ∧
                      c1 ≠ LF ∧ c1 ≠ CR) as (c1 & c2 & tl & Hbytes & HLF & HCR).
  { destruct (frame_bytes_cons w Hw) as (c1 & tl & Hbytes & HLF & HCR).
    pose proof Hw as [[Hcommand _]%andb_true_iff _]%andb_true_iff.
    unfold frame_bytes in *.
    destruct (wire_command w) as [|b1 command]; [done|].
    injection Hbytes as <- <-.
    destruct command as [|b2 command], (wire_command_eol w);
      cbn [app eol_bytes]; by eexists _, _, _. }
  rewrite length_app in Hfuel.
  rewrite <- (NextFrame_frame fuel w rest false Hw ltac:(lia)).
  rewrite Hbytes in *. unfold NextFrame.
  assert (nextToken fuel
            (State (concat (map eol_bytes ks) ++ c1 :: c2 :: tl) false true)
          = nextToken fuel (State (c1 :: c2 :: tl) false false)) as Htoken.
  { rewrite !nextToken_parts.
    assert (nextToken_skip fuel
              (State (concat (map eol_bytes ks) ++ c1 :: c2 :: tl) false true)
            = Some (tt, State (c1 :: c2 :: tl) false false)) as Hskip.
    { unfold nextToken_skip. mred.
      by rewrite (bind_run _ _ _ _ _
                    (skipEOLs_over_run fuel ks c1 c2 tl false true HLF HCR
                       ltac:(rewrite length_app; lia))). }
    by rewrite (bind_run _ _ _ _ _ Hskip). }
  unfold bind at 1. rewrite Htoken. done.
Qed.

Section Calls.
Context {Src : Type} `{ReaderSpec Src}.

(** A call of [NextFrame] on a buffered stream returns, and never with
    the [ParseError] of the delimiter position: after a body token
    without the end of the stream the next byte is the NUL.  The
    [ParseError]s returned are those of the command, header-value and
    body positions, each with [Frame{}]. *)
Theorem NextFrame_ParseError_messages (fuel : nat)
    (p : StompParser (bufioReader Src)) :
  parser_ok p → length (unread (stream p)) < fuel →
  ∃ frame err p',
    NextFrame fuel p = Some ((frame, err), p') ∧
    err ≠ Some (ParseError "Frames must end with a null byte") ∧
    ∀ message, err = Some (ParseError message) →
      frame = Frame_zero ∧
      message ∈ [ "Frame must begin with a command";
                  "Headers must have values";
                  "Frames must contain bodies" ].
Proof.
  intros Hok Hfuel.
  destruct (NextFrame_returns fuel p Hok Hfuel)
    as (frame & err & p' & Hcall & _ & Hout & _).
  exists frame, err, p'. split; [done|].
  unfold outcome_ok in Hout. destruct err as [[| | |message]|]; try done.
  destruct Hout as (-> & _ & Hmessage). split.
  - intros [= ->]. unfold parse_messages in Hmessage.
    repeat (apply elem_of_cons in Hmessage as [?|Hmessage]; [done|]).
    by apply elem_of_nil in Hmessage.
  - by intros ? [= <-].
Qed.

(** With nothing unread, whatever the flags, a call returns [Frame{}]
    with [io.EOF] and sets [reachedEOF]. *)
Theorem NextFrame_nothing_unread (fuel : nat)
    (p : StompParser (bufioReader Src)) :
  parser_ok p → unread (stream p) = [] → 0 < fuel →
  ∃ p', NextFrame fuel p = Some ((Frame_zero, Some io_EOF), p') ∧
        parser_ok p' ∧ unread (stream p') = [] ∧ reachedEOF p' = true.
Proof.
  intros Hok Hnothing Hfuel.
  destruct (NextFrame_on_view fuel p (Frame_zero, Some io_EOF)
              (State [] true false) Hok) as (p' & Hcall & Hok' & Hview).
  { rewrite view_State, Hnothing. by apply NextFrame_exhausted. }
  exists p'. injection Hview as Hl He _. by split.
Qed.

(** A CR that is not followed by LF, at the start of a frame, wedges the
    parser: the call returns the [ParseError] of the command position
    and consumes nothing, so every later call does the same. *)
Theorem lone_CR_wedges (fuel calls : nat) (p : StompParser (bufioReader Src))
    (c : byte) (rest : list byte) :
  parser_ok p → reachedEOF p = false →
  unread (stream p) = CR :: c :: rest → c ≠ LF → 0 < fuel →
  ∃ p',
    drain fuel calls p
    = Some (replicate calls
              (Frame_zero, Some (ParseError "Frame must begin with a command")),
            p') ∧
    parser_ok p' ∧ unread (stream p') = CR :: c :: rest ∧
    reachedEOF p' = false.
Proof.
  intros Hok Hlive Hstream HLF Hfuel.
  destruct (drain_lone_CR fuel calls c rest (frameJustEnded p) HLF Hfuel)
    as [j' Hdrain].
  destruct (drain_on_view fuel calls p _ _ Hok
              ltac:(rewrite view_State, Hstream, Hlive; exact Hdrain))
    as (p' & Hp' & Hok' & Hview).
  exists p'. injection Hview as Hl He _. by split.
Qed.

(** A first line that is no verb (a name of bytes other than CR, LF,
    colon and NUL, ended by an end of line, with more bytes after it) is
    consumed with its end of line and answered by the [ParseError] of
    the command position; the lookup of an unknown verb is not reached. *)
Theorem unknown_verb_is_rejected (fuel : nat)
    (p : StompParser (bufioReader Src)) (word : list byte) (k : eol_kind)
    (c : byte) (rest : list byte) :
  parser_ok p → reachedEOF p = false →
  unread (stream p) = word ++ eol_bytes k ++ c :: rest →
  name_ok word = true → isCommand word = false →
  length (unread (stream p)) < fuel →
  ∃ p',
    NextFrame fuel p
    = Some ((Frame_zero, Some (ParseError "Frame must begin with a command")),
            p') ∧
    parser_ok p' ∧ unread (stream p') = c :: rest ∧ reachedEOF p' = false.
Proof.
  intros Hok Hlive Hstream Hword Hverb Hfuel. rewrite Hstream in Hfuel.
  destruct (NextFrame_on_view fuel p _ _ Hok
              ltac:(rewrite view_State, Hstream, Hlive;
                    exact (NextFrame_unknown_word fuel word k (c :: rest)
                             (frameJustEnded p) Hword Hverb
                             ltac:(done) Hfuel)))
    as (p' & Hp' & Hok' & Hview).
  exists p'. injection Hview as Hl He _. by split.
Qed.

(** A header line whose value holds a colon, after a command line and
    any number of well-formed header lines: the call returns the
    [ParseError] of the header-value position, and leaves the parser in
    front of that colon. *)
Theorem colon_in_header_value_is_rejected (fuel : nat)
    (p : StompParser (bufioReader Src)) (command : list byte) (k : eol_kind)
    (hs : list HeaderLine) (key value : list byte) (c : byte)
    (rest : list byte) :
  parser_ok p → reachedEOF p = false →
  unread (stream p)
  = command ++ eol_bytes k ++ concat (map header_bytes hs) ++
    key ++ COLON :: value ++ COLON :: c :: rest →
  isCommand command = true → forallb header_ok hs = true →
  name_ok key = true → forallb text_byte value = true →
  length (unread (stream p)) < fuel →
  ∃ p',
    NextFrame fuel p
    = Some ((Frame_zero, Some (ParseError "Headers must have values")), p') ∧
    parser_ok p' ∧ unread (stream p') = COLON :: c :: rest ∧
    reachedEOF p' = false.
Proof.
  intros Hok Hlive Hstream Hcommand Hhs Hkey Hvalue Hfuel.
  rewrite Hstream in Hfuel.
  destruct (NextFrame_on_view fuel p _ _ Hok
              ltac:(rewrite view_State, Hstream, Hlive;
                    exact (NextFrame_value_COLON fuel command k hs key value
                             c rest (frameJustEnded p) Hcommand Hhs Hkey
                             Hvalue Hfuel)))
    as (p' & Hp' & Hok' & Hview).
  exists p'. injection Hview as Hl He _. by split.
Qed.

(** At a frame boundary any run of ends of line in front of a
    well-formed frame is skipped: the call returns the frame and leaves
    unread what follows its NUL. *)
Theorem blank_lines_before_frame (fuel : nat)
    (p : StompParser (bufioReader Src)) (ks : list eol_kind) (w : WireFrame)
    (rest : list byte) :
  parser_ok p → reachedEOF p = false → frameJustEnded p = true →
  unread (stream p) = concat (map eol_bytes ks) ++ frame_bytes w ++ rest →
  well_formed w = true →
  length (unread (stream p)) < fuel →
  ∃ p',
    NextFrame fuel p = Some ((frame_of w, None), p') ∧
    parser_ok p' ∧ unread (stream p') = rest ∧
    reachedEOF p' = false ∧ frameJustEnded p' = true.
Proof.
  intros Hok Hlive Hboundary Hstream Hw Hfuel. rewrite Hstream in Hfuel.
  destruct (NextFrame_on_view fuel p _ _ Hok
              ltac:(rewrite view_State, Hstream, Hlive, Hboundary;
                    exact (NextFrame_after_blank_lines fuel ks w rest Hw Hfuel)))
    as (p' & Hp' & Hok' & Hview).
  exists p'. injection Hview as Hl He Hj. by split.
Qed.

End Calls.

(** ** The command table *)

(** [commands] pairs the fifteen verbs with the constants 1 to 15 one to
    one: a constant is the command of a verb exactly if it is one of 1 to
    15, and two verbs with the same command are the same verb. *)
Theorem commands_one_to_one :
  (∀ c : Z, (∃ verb, commands !! verb = Some c) ↔ (1 ≤ c ≤ 15)%Z) ∧
  (∀ verb1 verb2 c,
     commands !! verb1 = Some c → commands !! verb2 = Some c → verb1 = verb2).
Proof.
  assert (∀ verb c, commands !! verb = Some c → (verb, c) ∈ command_table)
    as Htable by (intros verb c; apply elem_of_list_to_map_2).
  split.
  - intros c. split.
    + intros [verb Hin%Htable]. unfold command_table in Hin.
      repeat (apply elem_of_cons in Hin as [[= -> ->]|Hin]; [by vm_compute|]).
      by apply elem_of_nil in Hin.
    + intros Hc. rewrite <- (Z2Nat.id c) by lia.
      assert (1 ≤ Z.to_nat c ≤ 15) as Hn by lia.
      revert Hn. generalize (Z.to_nat c). clear Hc. intros n Hn.
      exists (default "" (command_table.*1 !! (n - 1))).
      do 16 (destruct n as [|n]; [first [lia | by vm_compute]|]). lia.
  - assert (∀ verb c, (verb, c) ∈ command_table →
              verb = default "" (command_table.*1 !! (Z.to_nat c - 1)))
      as Hverb.
    { intros verb c Hin. unfold command_table in Hin.
      repeat (apply elem_of_cons in Hin as [[= -> ->]|Hin]; [by vm_compute|]).
      by apply elem_of_nil in Hin. }
    intros verb1 verb2 c Hin1%Htable%Hverb Hin2%Htable%Hverb. congruence.
Qed.

(** ** The test-suite's transport delivers its data *)

Lemma mock_Reads_pending (k len_p : nat) (mock : mockTCPStream) :
  min_room ≤ len_p → reader_ok mock → length (pending mock) ≤ k →
  mock_Reads k len_p mock = pending mock.
Proof.
  intros Hroom. revert mock.
  induction k as [|k IH]; intros mock Hok Hk; cbn [mock_Reads].
  { destruct (pending mock); [done|simpl in Hk; lia]. }
  destruct (mock_Read mock len_p) as [[[written n] e] mock'] eqn:HRead.
  destruct (Read_spec mock len_p _ _ _ _ Hok Hroom HRead)
    as (Hpending & Hn & _ & Hok' & Hprogress & HEOF).
  rewrite Hpending. f_equal. apply IH; [done|].
  destruct e as [e|].
  - destruct (HEOF eq_refl) as [_ ->]. simpl. lia.
  - specialize (Hprogress eq_refl). rewrite Hpending, length_app in Hk. lia.
Qed.

(** Reads of the mock into a destination of at least 32 bytes, as many
    as the data has bytes, deliver the data: every byte once and in
    order, however the reads cut it. *)
Theorem mock_Reads_deliver (testData : list byte) (k len_p : nat) :
  32 ≤ len_p → length testData ≤ k →
  mock_Reads k len_p (mockTCPStream_of testData) = testData.
Proof.
  intros Hroom Hk.
  rewrite mock_Reads_pending; [done|done|simpl; lia|done].
Qed.

(** ** Any two transports that keep [ReaderSpec] *)

(** Two transports that keep [ReaderSpec] (every [Read] into a
    destination of 32 bytes or more delivers a prefix of the bytes still
    to come and reports its length, delivers at least one byte unless it
    reports an error, and reports no error but [io.EOF], and that only
    with nothing left to deliver) and that have the same bytes to deliver
    give the same results call for call, however each of them cuts the
    bytes into reads.  A transport that stalls with [(0, nil)] or fails
    with another error is not covered: [ReaderSpec] rules both out. *)
Theorem drain_any_chunking {Src1 Src2 : Type} `{ReaderSpec Src1}
    `{ReaderSpec Src2} (reader1 : Src1) (reader2 : Src2) (fuel calls : nat) :
  reader_ok reader1 → reader_ok reader2 →
  pending reader1 = pending reader2 →
  fst <$> drain fuel calls (NewStompParserFromReader reader1)
  = fst <$> drain fuel calls (NewStompParserFromReader reader2).
Proof.
  intros Hok1 Hok2 Hpending.
  pose proof (drain_refines fuel calls (NewStompParserFromReader reader1)
                (NewStompParserFromReader_ok reader1 Hok1)) as Hone.
  pose proof (drain_refines fuel calls (NewStompParserFromReader reader2)
                (NewStompParserFromReader_ok reader2 Hok2)) as Htwo.
  rewrite view_NewStompParserFromReader in Hone.
  rewrite view_NewStompParserFromReader in Htwo.
  rewrite Hpending in Hone.
  destruct (drain fuel calls (State (pending reader2) false false))
    as [[results q]|].
  - destruct Hone as (p1 & -> & _), Htwo as (p2 & -> & _). done.
  - by rewrite Hone, Htwo.
Qed.

(** ** More malformed frames, and frames set apart by blank lines *)

Lemma NextFrame_headers_done {R : Type} `{ReadPeeker R} fuel rounds tokType
    tokLiteral m (p : StompParser R) :
  tokType ≠ HEADER_KEY →
  NextFrame_headers fuel rounds (tokType, tokLiteral) m p
  = Some (inr ((tokType, tokLiteral), m), p).
Proof.
  intros Hkey.
  destruct rounds; cbn [NextFrame_headers];
    by rewrite bool_decide_eq_false_2 by done.
Qed.

(** *** The NUL right after the header lines *)

Lemma NextFrame_missing_blank_line fuel command (k : eol_kind) hs rest j :
  isCommand command = true → forallb header_ok hs = true →
  length (command ++ eol_bytes k ++ concat (map header_bytes hs) ++
          NUL :: rest) < fuel →
  NextFrame fuel
    (State (command ++ eol_bytes k ++ concat (map header_bytes hs) ++
            NUL :: rest) false j)
  = Some ((Frame_zero, Some (ParseError "Frames must contain bodies")),
          State rest false true).
Proof.
  intros Hcommand Hhs Hfuel. unfold NextFrame.
  assert (concat (map header_bytes hs) ++ NUL :: rest ≠ []) as Hmore.
  { by destruct (concat (map header_bytes hs)). }
  rewrite (bind_run _ _ _ _ _
             (nextToken_command fuel _ _ _ j Hcommand Hmore Hfuel)).
  mred. rewrite bool_decide_eq_false_2 by (by intros ?). mred.
  rewrite !length_app in Hfuel.
  rewrite <- (bind_assoc (nextToken fuel)
                (λ tok, NextFrame_headers fuel fuel tok ∅)).
  pose proof (length_concat_header_bytes hs) as Hlines.
  assert ((let* tok := nextToken fuel in NextFrame_headers fuel fuel tok ∅)
            (State (concat (map header_bytes hs) ++ NUL :: rest) false false)
          = Some (inr ((DELIMITER, [NUL]), headers_from ∅ hs),
                  State rest false true)) as Hloop.
  { rewrite NextFrame_headers_over_lines;
      [|done|done|rewrite length_app; lia|lia].
    rewrite (bind_run _ _ _ _ _ (nextToken_NUL fuel rest false)).
    by apply NextFrame_headers_done. }
  rewrite (bind_run _ _ _ _ _ Hloop). mred.
  by rewrite bool_decide_eq_true_2 by done.
Qed.

(** *** A header line without a name *)

Lemma NextFrame_empty_header_name fuel command (k : eol_kind) hs value
    (k' : eol_kind) (c : byte) rest j :
  isCommand command = true → forallb header_ok hs = true →
  forallb text_byte value = true →
  length (command ++ eol_bytes k ++ concat (map header_bytes hs) ++
          COLON :: value ++ eol_bytes k' ++ c :: rest) < fuel →
  NextFrame fuel
    (State (command ++ eol_bytes k ++ concat (map header_bytes hs) ++
            COLON :: value ++ eol_bytes k' ++ c :: rest) false j)
  = Some ((Frame_zero, Some (ParseError "Frames must contain bodies")),
          State (c :: rest) false false).
Proof.
  intros Hcommand Hhs Hvalue Hfuel. unfold NextFrame.
  set (line := COLON :: value ++ eol_bytes k' ++ c :: rest) in *.
  assert (concat (map header_bytes hs) ++ line ≠ []) as Hmore.
  { by destruct (concat (map header_bytes hs)). }
  rewrite (bind_run _ _ _ _ _
             (nextToken_command fuel _ _ _ j Hcommand Hmore Hfuel)).
  mred. rewrite bool_decide_eq_false_2 by (by intros ?). mred.
  rewrite !length_app in Hfuel.
  rewrite <- (bind_assoc (nextToken fuel)
                (λ tok, NextFrame_headers fuel fuel tok ∅)).
  pose proof (length_concat_header_bytes hs) as Hlines.
  assert ((let* tok := nextToken fuel in NextFrame_headers fuel fuel tok ∅)
            (State (concat (map header_bytes hs) ++ line) false false)
          = Some (inr ((HEADER_VALUE, value), headers_from ∅ hs),
                  State (c :: rest) false false)) as Hloop.
  { rewrite NextFrame_headers_over_lines;
      [|done|done|rewrite length_app; lia|lia].
    assert (length line < fuel) as Hfuel' by lia.
    assert (c :: rest ≠ []) as Hrest by done.
    rewrite (bind_run _ _ _ _ _
               (nextToken_value fuel value k' (c :: rest) Hvalue Hrest Hfuel')).
    by apply NextFrame_headers_done. }
  rewrite (bind_run _ _ _ _ _ Hloop). mred.
  by rewrite bool_decide_eq_true_2 by done.
Qed.

(** *** Frames set apart by blank lines *)

Lemma eol_run_suffix (ks ks' : list eol_kind) (l' : list byte) :
  concat (map eol_bytes ks) = concat (map eol_bytes ks') ++ l' →
  ∃ ks'', l' = concat (map eol_bytes ks'').
Proof.
  revert ks. induction ks' as [|k' ks' IH]; intros ks Heq.
  { by exists ks. }
  destruct ks as [|k ks]; [by destruct k'|].
  cbn [map concat] in Heq. rewrite <- app_assoc in Heq.
  destruct k, k'; try done; simplify_list_eq; by eapply IH.
Qed.

Lemma eol_run_no_EOL_ahead (ks : list eol_kind) :
  no_EOL_ahead (concat (map eol_bytes ks)) →
  length (concat (map eol_bytes ks)) < 2.
Proof.
  destruct ks as [|[|] [|[|] ks]]; cbn; try lia; intros [HLF HCRLF];
    try done; by destruct HCRLF.
Qed.

(** With nothing but blank lines left after a frame, the call reports
    the end of the stream. *)
Lemma NextFrame_blank_lines_only fuel (ks : list eol_kind) :
  length (concat (map eol_bytes ks)) < fuel →
  ∃ q, NextFrame fuel (State (concat (map eol_bytes ks)) false true)
       = Some ((Frame_zero, Some io_EOF), q).
Proof.
  intros Hfuel.
  destruct (skipEOLs_total fuel (State (concat (map eol_bytes ks)) false true)
              Hfuel) as (p1 & Hskip & Hlen & _).
  pose proof Hskip as (ks' & Hl & Hp1 & Hahead)%skipEOLs_inv.
  apply eol_run_suffix in Hl as Hrun. destruct Hrun as [ks'' Hrun].
  rewrite Hrun in Hahead. apply eol_run_no_EOL_ahead in Hahead.
  rewrite <- Hrun in Hahead. rewrite bool_decide_eq_true_2 in Hp1 by done.
  cbn [orb] in Hp1.
  assert (nextToken fuel (State (concat (map eol_bytes ks)) false true)
          = nextToken fuel (State (stream p1) true false)) as Htoken.
  { rewrite !nextToken_parts.
    assert (nextToken_skip fuel (State (concat (map eol_bytes ks)) false true)
            = Some (tt, State (stream p1) true false)) as Hskipped.
    { unfold nextToken_skip. mred. rewrite (bind_run _ _ _ _ _ Hskip).
      by rewrite Hp1. }
    by rewrite (bind_run _ _ _ _ _ Hskipped). }
  destruct (NextFrame_total fuel (State (stream p1) true false))
    as (frame & err & q & Hcall & _ & Hreached & Hout).
  { cbn [stream] in *. lia. }
  specialize (Hreached eq_refl). exists q.
  assert (NextFrame fuel (State (concat (map eol_bytes ks)) false true)
          = NextFrame fuel (State (stream p1) true false)) as ->.
  { unfold NextFrame. unfold bind at 1 6. by rewrite Htoken. }
  rewrite Hcall. unfold outcome_ok in Hout.
  destruct err as [[| | |message]|].
  - by destruct Hout as [-> _].
  - done.
  - done.
  - destruct Hout as (_ & Hlive & _). congruence.
  - destruct Hout as (Hlive & _). congruence.
Qed.

Lemma drain_spaced fuel (sws : list (list eol_kind * WireFrame))
    (trailing : list eol_kind) :
  forallb (λ sw, well_formed sw.2) sws = true →
  length (concat (map spaced_bytes sws) ++ concat (map eol_bytes trailing))
    < fuel →
  ∃ q,
    drain fuel (S (length sws))
      (State (concat (map spaced_bytes sws) ++ concat (map eol_bytes trailing))
         false true)
    = Some (map (λ sw, (frame_of sw.2, None)) sws
              ++ [(Frame_zero, Some io_EOF)], q).
Proof.
  induction sws as [|[ks w] sws IH]; intros Hws Hfuel.
  { cbn [map concat app length] in *.
    destruct (NextFrame_blank_lines_only fuel trailing Hfuel) as [q Hcall].
    exists q. cbn [drain]. rewrite (bind_run _ _ _ _ _ Hcall).
    by rewrite bool_decide_eq_true_2. }
  apply andb_true_iff in Hws as [Hw Hws]. cbn [snd] in Hw.
  cbn [map concat length] in *. unfold spaced_bytes at 1 in Hfuel.
  unfold spaced_bytes at 1. cbn [fst snd] in *.
  rewrite <- !app_assoc in *.
  destruct IH as [q Hrest]; [done|rewrite !length_app in *; lia|].
  exists q. cbn [drain].
  rewrite (bind_run _ _ _ _ _
             (NextFrame_after_blank_lines fuel ks w _ Hw Hfuel)).
  rewrite bool_decide_eq_false_2 by done.
  by rewrite (bind_run _ _ _ _ _ Hrest).
Qed.

Lemma drain_stream_bytes fuel (w : WireFrame)
    (sws : list (list eol_kind * WireFrame)) (trailing : list eol_kind) :
  well_formed w = true → forallb (λ sw, well_formed sw.2) sws = true →
  length (stream_bytes w sws trailing) < fuel →
  ∃ q,
    drain fuel (S (S (length sws)))
      (State (stream_bytes w sws trailing) false false)
    = Some ((frame_of w, None) :: map (λ sw, (frame_of sw.2, None)) sws
              ++ [(Frame_zero, Some io_EOF)], q).
Proof.
  intros Hw Hws Hfuel. unfold stream_bytes in *.
  destruct (drain_spaced fuel sws trailing Hws) as [q Hrest].
  { rewrite length_app in Hfuel. lia. }
  exists q. cbn [drain].
  rewrite (bind_run _ _ _ _ _ (NextFrame_frame fuel w _ false Hw Hfuel)).
  rewrite bool_decide_eq_false_2 by done.
  rewrite (bind_run _ _ _ _ _ Hrest). done.
Qed.

(** *** The token at the end of the stream *)

Lemma nextToken_scan_NULL_TOKEN fuel (l : list byte) e tokLiteral p' :
  nextToken_scan fuel (State l e false) = Some ((NULL_TOKEN, tokLiteral), p') →
  l = [] ∧ tokLiteral = [] ∧ p' = State [] true false.
Proof.
  destruct l as [|c rest].
  { by intros [= <- <-]. }
  unfold nextToken_scan. mred. intros Hscan. exfalso.
  match type of Hscan with
  | ?c ?p = _ =>
      assert (M_returns c (λ tok, tok.1 ≠ NULL_TOKEN)) as Hreturns
  end.
  { repeat first
      [ apply M_returns_bind; intros ?
      | apply M_returns_ret; simpl; discriminate
      | match goal with
        | |- M_returns (if ?b then _ else _) _ => destruct b
        | |- M_returns (match ?x with _ => _ end) _ => destruct x
        end ]. }
  by apply (Hreturns _ _ _ Hscan).
Qed.

Lemma nextToken_NULL_TOKEN_inv fuel (l : list byte) e j tokLiteral p' :
  nextToken fuel (State l e j) = Some ((NULL_TOKEN, tokLiteral), p') →
  tokLiteral = [] ∧ p' = State [] true false ∧
  ∃ ks, l = concat (map eol_bytes ks) ∧ (j = false → ks = []).
Proof.
  rewrite nextToken_parts.
  intros ([] & p1 & Hskip & Hscan)%bind_inv.
  assert (∃ ks l1 e1, p1 = State l1 e1 false ∧
            l = concat (map eol_bytes ks) ++ l1 ∧ (j = false → ks = []))
    as (ks & l1 & e1 & -> & -> & Hks).
  { unfold nextToken_skip in Hskip. destruct j; mred_in Hskip.
    - apply bind_inv in Hskip as ([] & p0 & Hskip & [= <-]).
      apply skipEOLs_inv in Hskip as (ks & Hl & _ & _).
      by exists ks, (stream p0), (reachedEOF p0).
    - injection Hskip as <-. by exists [], l, e. }
  apply nextToken_scan_NULL_TOKEN in Hscan as (-> & -> & ->).
  split; [done|]. split; [done|]. exists ks. by rewrite app_nil_r.
Qed.

Section MoreCalls.
Context {Src : Type} `{ReaderSpec Src}.

(** [scanTillDelimiter] returns the bytes up to the next NUL and leaves
    the NUL unread; if the stream ends before a NUL it returns all that
    was left and sets [reachedEOF].  The literal holds no NUL. *)
Theorem scanTillDelimiter_consumed (fuel : nat)
    (p : StompParser (bufioReader Src)) :
  parser_ok p → length (unread (stream p)) < fuel →
  ∃ literal p',
    scanTillDelimiter fuel p = Some (literal, p') ∧ parser_ok p' ∧
    unread (stream p) = literal ++ unread (stream p') ∧
    (NUL ∉ literal) ∧
    frameJustEnded p' = frameJustEnded p ∧
    ((∃ rest, unread (stream p') = NUL :: rest) ∧
     reachedEOF p' = reachedEOF p ∨
     unread (stream p') = [] ∧ reachedEOF p' = true).
Proof.
  intros Hok Hfuel.
  destruct (scanTillDelimiter_from_total fuel [] (view p) Hfuel
              ltac:(apply not_elem_of_nil))
    as (literal & q & Hscan & _).
  destruct (on_view (scanTillDelimiter fuel) (scanTillDelimiter fuel) p _ _
              ltac:(eauto using scanTillDelimiter_sim, bufio_sim_ReadByte,
                      bufio_sim_Peek) Hok Hscan) as (p' & Hp' & Hok' & <-).
  rewrite view_State in Hscan.
  apply scanTillDelimiter_from_inv in Hscan
    as (more & -> & Hl & Hmore & Hj & Hstop).
  exists more, p'. split; [done|]. split; [done|]. split; [done|].
  split; [done|]. by split.
Qed.

(** [NULL_TOKEN] is the token of the exhausted stream: when [nextToken]
    returns it, the unread bytes were nothing but blank lines skipped at a
    frame boundary, nothing is left unread, the literal is empty and
    [reachedEOF] is set. *)
Theorem nextToken_NULL_TOKEN (fuel : nat) (p p' : StompParser (bufioReader Src))
    (tokLiteral : list byte) :
  parser_ok p →
  nextToken fuel p = Some ((NULL_TOKEN, tokLiteral), p') →
  tokLiteral = [] ∧ unread (stream p') = [] ∧ reachedEOF p' = true ∧
  ∃ ks, unread (stream p) = concat (map eol_bytes ks) ∧
        (frameJustEnded p = false → ks = []).
Proof.
  intros Hok Htoken.
  destruct (of_view (nextToken fuel) (nextToken fuel) p p' _
              ltac:(eauto using nextToken_sim, bufio_sim_ReadByte,
                      bufio_sim_Peek) Hok Htoken) as [Hlist _].
  rewrite view_State in Hlist.
  apply nextToken_NULL_TOKEN_inv in Hlist as (-> & Hq & ks & Hl & Hks).
  injection Hq as Hl' He _. split; [done|]. split; [done|]. split; [done|].
  by exists ks.
Qed.

(** A NUL right after the command line and the header lines, with no
    blank line in front of the body: the NUL is taken as the delimiter
    token and the call returns the [ParseError] of the body position. *)
Theorem missing_blank_line_is_rejected (fuel : nat)
    (p : StompParser (bufioReader Src)) (command : list byte) (k : eol_kind)
    (hs : list HeaderLine) (rest : list byte) :
  parser_ok p → reachedEOF p = false →
  unread (stream p)
  = command ++ eol_bytes k ++ concat (map header_bytes hs) ++ NUL :: rest →
  isCommand command = true → forallb header_ok hs = true →
  length (unread (stream p)) < fuel →
  ∃ p',
    NextFrame fuel p
    = Some ((Frame_zero, Some (ParseError "Frames must contain bodies")), p') ∧
    parser_ok p' ∧ unread (stream p') = rest ∧
    reachedEOF p' = false ∧ frameJustEnded p' = true.
Proof.
  intros Hok Hlive Hstream Hcommand Hhs Hfuel. rewrite Hstream in Hfuel.
  destruct (NextFrame_on_view fuel p _ _ Hok
              ltac:(rewrite view_State, Hstream, Hlive;
                    exact (NextFrame_missing_blank_line fuel command k hs rest
                             (frameJustEnded p) Hcommand Hhs Hfuel)))
    as (p' & Hp' & Hok' & Hview).
  exists p'. injection Hview as Hl He Hj. by split.
Qed.

(** A header line without a name, [':' VALUE EOL], after the command
    line and any number of well-formed header lines: the line is lexed
    as a header value and consumed, and the call returns the
    [ParseError] of the body position. *)
Theorem empty_header_name_is_rejected (fuel : nat)
    (p : StompParser (bufioReader Src)) (command : list byte) (k : eol_kind)
    (hs : list HeaderLine) (value : list byte) (k' : eol_kind) (c : byte)
    (rest : list byte) :
  parser_ok p → reachedEOF p = false →
  unread (stream p)
  = command ++ eol_bytes k ++ concat (map header_bytes hs) ++
    COLON :: value ++ eol_bytes k' ++ c :: rest →
  isCommand command = true → forallb header_ok hs = true →
  forallb text_byte value = true →
  length (unread (stream p)) < fuel →
  ∃ p',
    NextFrame fuel p
    = Some ((Frame_zero, Some (ParseError "Frames must contain bodies")), p') ∧
    parser_ok p' ∧ unread (stream p') = c :: rest ∧ reachedEOF p' = false.
Proof.
  intros Hok Hlive Hstream Hcommand Hhs Hvalue Hfuel.
  rewrite Hstream in Hfuel.
  destruct (NextFrame_on_view fuel p _ _ Hok
              ltac:(rewrite view_State, Hstream, Hlive;
                    exact (NextFrame_empty_header_name fuel command k hs value
                             k' c rest (frameJustEnded p) Hcommand Hhs Hvalue
                             Hfuel)))
    as (p' & Hp' & Hok' & Hview).
  exists p'. injection Hview as Hl He _. by split.
Qed.

(** Well-formed frames set apart by blank lines: over a transport that
    delivers a frame, then any number of frames each with any run of
    ends of line in front, then any run of ends of line, the calls
    return the frames in order, each with no error, and then [io.EOF]. *)
Theorem drain_frames_apart (reader : Src) (w : WireFrame)
    (sws : list (list eol_kind * WireFrame)) (trailing : list eol_kind)
    (fuel : nat) :
  reader_ok reader →
  pending reader = stream_bytes w sws trailing →
  well_formed w = true → forallb (λ sw, well_formed sw.2) sws = true →
  length (stream_bytes w sws trailing) < fuel →
  ∃ p', drain fuel (S (S (length sws))) (NewStompParserFromReader reader)
        = Some ((frame_of w, None) :: map (λ sw, (frame_of sw.2, None)) sws
                  ++ [(Frame_zero, Some io_EOF)], p').
Proof.
  intros Hreader Hpending Hw Hws Hfuel.
  destruct (drain_stream_bytes fuel w sws trailing Hw Hws Hfuel) as [q Hlist].
  destruct (drain_on_view fuel (S (S (length sws)))
              (NewStompParserFromReader reader) _ q
              (NewStompParserFromReader_ok reader Hreader)
              ltac:(rewrite view_NewStompParserFromReader, Hpending;
                    exact Hlist))
    as (p' & Hdrain & _).
  by exists p'.
Qed.

End MoreCalls.

(** ** How far the parser looks ahead *)

Section LookAhead.
Context {R : Type} `{ReadPeeker R}.

Lemma within_two_ReadByte (r1 : peekLog R) (r2 : R) :
  within_two r1 r2 →
  (ReadByte r1).1 = (ReadByte r2).1 ∧
  within_two (ReadByte r1).2 (ReadByte r2).2.
Proof.
  intros [<- Hlongest]. cbn [ReadByte peekLog_ReadPeeker].
  unfold peekLog_ReadByte. by destruct (ReadByte (logged r1)).
Qed.

Lemma within_two_Peek (n : nat) (r1 : peekLog R) (r2 : R) :
  n ≤ 2 → within_two r1 r2 →
  (Peek n r1).1 = (Peek n r2).1 ∧ within_two (Peek n r1).2 (Peek n r2).2.
Proof.
  intros Hn [<- Hlongest]. cbn [Peek peekLog_ReadPeeker].
  unfold peekLog_Peek. destruct (Peek n (logged r1)). cbn [fst snd].
  split; [done|]. split; [done|]. cbn [longest]. lia.
Qed.

End LookAhead.

(** [NextFrame] never looks more than two bytes ahead: over any stream
    that records the look-ahead asked of it, a call leaves the longest
    look-ahead at two bytes or less if it was so before; and it returns
    what it returns on the stream itself. *)
Theorem NextFrame_looks_two_bytes_ahead {R : Type} `{ReadPeeker R}
    (fuel : nat) (p p' : StompParser (peekLog R))
    (res : Frame * option error) :
  longest (stream p) ≤ 2 →
  NextFrame fuel p = Some (res, p') →
  longest (stream p') ≤ 2 ∧
  NextFrame fuel (unlogged p) = Some (res, unlogged p').
Proof.
  intros Hlongest Hcall.
  pose proof (NextFrame_sim within_two within_two_ReadByte within_two_Peek
                fuel p (unlogged p)) as Hsim.
  rewrite Hcall in Hsim.
  destruct (NextFrame fuel (unlogged p)) as [[res2 q]|].
  - destruct Hsim as [-> ([Hlogged Hlongest'] & He & Hj)].
    { split; [by split|]. by split. }
    split; [done|]. do 2 f_equal. destruct q as [r2 e2 j2]. unfold unlogged.
    cbn [stream reachedEOF frameJustEnded] in *. by subst.
  - destruct Hsim. split; [by split|]. by split.
Qed.

(** ** The bytes are taken from the front *)

Lemma M_front_ret {A} (a : A) : M_front (ret a).
Proof. intros p a' p' [= _ <-]. by exists []. Qed.

Lemma M_front_fail {A} : M_front (@fail (list byte) A).
Proof. by intros p a p'. Qed.

Lemma M_front_bind {A B} (c : M (list byte) A) (k : A → M (list byte) B) :
  M_front c → (∀ a, M_front (k a)) → M_front (bind c k).
Proof.
  intros Hc Hk p b p' (a & p1 & Hcp & Hkp)%bind_inv.
  destruct (Hc _ _ _ Hcp) as [consumed1 ->].
  destruct (Hk _ _ _ _ Hkp) as [consumed2 ->].
  exists (consumed1 ++ consumed2). by rewrite <- app_assoc.
Qed.

Lemma M_front_stream_Peek n : M_front (stream_Peek n).
Proof.
  intros [l e j] a p'. unfold stream_Peek. cbn [stream Peek list_ReadPeeker].
  unfold list_Peek. destruct (_ <? _); intros [= _ <-]; by exists [].
Qed.

Lemma M_front_stream_ReadByte : M_front stream_ReadByte.
Proof.
  intros [[|c l] e j] a p'; intros [= _ <-]; [by exists []|by exists [c]].
Qed.

Lemma M_front_flags :
  M_front get_reachedEOF ∧ M_front get_frameJustEnded ∧
  M_front set_reachedEOF ∧ ∀ v, M_front (set_frameJustEnded v).
Proof. repeat split; intros; intros p a p' [= _ <-]; by exists []. Qed.

Lemma M_front_index peekBytes i : M_front (index peekBytes i).
Proof.
  unfold index. destruct (peekBytes !! i); [apply M_front_ret|apply M_front_fail].
Qed.

Ltac front_step :=
  match goal with
  | |- M_front (bind _ _) => apply M_front_bind; [|intros ?]
  | |- M_front (if ?b then _ else _) => destruct b
  | |- M_front (match ?x with _ => _ end) => destruct x
  | |- M_front (ret _) => apply M_front_ret
  | |- M_front fail => apply M_front_fail
  | |- M_front (stream_Peek _) => apply M_front_stream_Peek
  | |- M_front stream_ReadByte => apply M_front_stream_ReadByte
  | |- M_front (index _ _) => apply M_front_index
  | |- M_front _ => first [apply M_front_flags | assumption]
  end.

Lemma M_front_scanEOL : M_front scanEOL.
Proof. unfold scanEOL. repeat front_step. Qed.

Lemma M_front_skipEOLs fuel : M_front (skipEOLs fuel).
Proof.
  pose proof M_front_scanEOL. induction fuel; simpl; repeat front_step.
Qed.

Lemma M_front_scanHeaderSeparator : M_front scanHeaderSeparator.
Proof. unfold scanHeaderSeparator. repeat front_step. Qed.

Lemma M_front_scanTillDelimiter fuel : M_front (scanTillDelimiter fuel).
Proof.
  unfold scanTillDelimiter. generalize (@nil byte).
  induction fuel; intros literal; simpl; repeat front_step. apply IHfuel.
Qed.

Lemma M_front_scanTillTerminator fuel : M_front (scanTillTerminator fuel).
Proof.
  pose proof M_front_scanEOL. pose proof M_front_scanHeaderSeparator.
  unfold scanTillTerminator. generalize (@nil byte) NO_TERMINATOR.
  induction fuel; intros literal term; simpl; repeat front_step;
    apply IHfuel.
Qed.

Lemma M_front_nextToken fuel : M_front (nextToken fuel).
Proof.
  pose proof M_front_scanEOL. pose proof (M_front_skipEOLs fuel).
  pose proof (M_front_scanTillDelimiter fuel).
  pose proof (M_front_scanTillTerminator fuel).
  unfold nextToken. repeat front_step.
Qed.

Lemma M_front_NextFrame_headers fuel rounds tok headers :
  M_front (NextFrame_headers fuel rounds tok headers).
Proof.
  pose proof (M_front_nextToken fuel).
  revert tok headers. induction rounds as [|rounds IH]; intros [ty lit] headers;
    cbn [NextFrame_headers]; repeat front_step. apply IH.
Qed.

Lemma M_front_NextFrame fuel : M_front (NextFrame fuel).
Proof.
  pose proof (M_front_nextToken fuel).
  unfold NextFrame. repeat front_step. apply M_front_NextFrame_headers.
Qed.

Lemma M_front_drain fuel calls : M_front (drain fuel calls).
Proof.
  pose proof (M_front_NextFrame fuel).
  induction calls as [|calls IH]; cbn [drain]; repeat front_step.
Qed.

(** Calls of [NextFrame], whatever they return, take bytes from the
    front of the stream only: what is unread after any number of calls
    is what was unread before less a prefix.  Nothing is put back and
    nothing is skipped without being read. *)
Theorem drain_consumes_a_prefix {Src : Type} `{ReaderSpec Src}
    (fuel calls : nat) (p p' : StompParser (bufioReader Src))
    (results : list (Frame * option error)) :
  parser_ok p →
  drain fuel calls p = Some (results, p') →
  ∃ consumed, unread (stream p) = consumed ++ unread (stream p').
Proof.
  intros Hok Hdrain.
  destruct (of_view (drain fuel calls) (drain fuel calls) p p' _
              ltac:(eauto using drain_sim, bufio_sim_ReadByte,
                      bufio_sim_Peek) Hok Hdrain) as [Hlist _].
  exact (M_front_drain fuel calls _ _ _ Hlist).
Qed.


(** ** A stream that ends before the frame does

    The parser on a stream and on the same stream with more bytes after
    it: as long as the shorter stream has not run out, the two runs take
    the same steps. *)

Ltac keeps_tac :=
  match goal with
  | |- M_keeps (bind _ _) => apply M_keeps_bind; [|intros ?]
  | |- M_keeps (if ?b then _ else _) => destruct b
  | |- M_keeps (match ?x with _ => _ end) => destruct x
  | |- M_keeps (ret _) => apply M_keeps_ret
  | |- M_keeps fail => apply M_keeps_fail
  | |- M_keeps (stream_Peek _) => apply M_keeps_stream_Peek
  | |- M_keeps stream_ReadByte => apply M_keeps_stream_ReadByte
  | |- M_keeps (index _ _) => apply M_keeps_index
  | |- M_keeps scanEOL => apply M_keeps_scanEOL
  | |- M_keeps (scanTillDelimiter _) => apply M_keeps_scanTillDelimiter
  | |- M_keeps (scanTillTerminator _) => apply M_keeps_scanTillTerminator
  | |- M_keeps _ => first [apply M_keeps_flags | assumption]
  end.

Lemma M_keeps_nextToken_scan {R : Type} `{ReadPeeker R} fuel :
  M_keeps (nextToken_scan fuel).
Proof. unfold nextToken_scan. repeat keeps_tac. Qed.

Section CutShort.
Variable tl : list byte.

Lemma M_cut_ret {A} (a : A) : M_cut tl (ret a).
Proof.
  split; [apply M_keeps_ret|]. intros p1 p2 a' p1' Hcut [= <- <-].
  right. by exists p2.
Qed.

Lemma M_cut_fail {A} : M_cut tl (@fail (list byte) A).
Proof. split; [apply M_keeps_fail|]. by intros p1 p2 a p1'. Qed.

Lemma M_cut_bind {A B} (c : M (list byte) A) (k : A → M (list byte) B) :
  M_cut tl c → (∀ a, M_cut tl (k a)) → M_cut tl (bind c k).
Proof.
  intros [Hkeeps Hc] Hk. split.
  { apply M_keeps_bind; [done|]. intros a. apply Hk. }
  intros p1 p2 b p1' Hcut (a & p1m & Hcp & Hkp)%bind_inv.
  destruct (Hc _ _ _ _ Hcut Hcp) as [Hreached|(p2m & Hcp2 & Hcutm)].
  - left. by eapply (proj1 (Hk a)).
  - destruct (proj2 (Hk a) _ _ _ _ Hcutm Hkp) as [?|(p2' & Hkp2 & Hcut')];
      [by left|].
    right. exists p2'. split; [|done]. by rewrite (bind_run _ _ _ _ _ Hcp2).
Qed.

Lemma M_cut_get_reachedEOF : M_cut tl get_reachedEOF.
Proof.
  split; [apply M_keeps_flags|].
  intros p1 p2 a p1' (Hl & He & Hj) [= <- <-]. right. exists p2.
  split; [|done]. unfold get_reachedEOF. by rewrite He.
Qed.

Lemma M_cut_get_frameJustEnded : M_cut tl get_frameJustEnded.
Proof.
  split; [apply M_keeps_flags|].
  intros p1 p2 a p1' (Hl & He & Hj) [= <- <-]. right. exists p2.
  split; [|done]. unfold get_frameJustEnded. by rewrite Hj.
Qed.

Lemma M_cut_set_reachedEOF : M_cut tl set_reachedEOF.
Proof.
  split; [apply M_keeps_flags|]. intros p1 p2 a p1' _ [= _ <-]. by left.
Qed.

Lemma M_cut_set_frameJustEnded v : M_cut tl (set_frameJustEnded v).
Proof.
  split; [apply M_keeps_flags|].
  intros p1 p2 a p1' (Hl & He & Hj) [= <- <-]. right. eexists.
  split; [done|]. by split.
Qed.

Lemma M_cut_index peekBytes i : M_cut tl (index peekBytes i).
Proof.
  unfold index. destruct (peekBytes !! i); [apply M_cut_ret|apply M_cut_fail].
Qed.

(** A [Peek] whose error sets [reachedEOF]. *)
Lemma M_cut_Peek {A} (n : nat)
    (K : list byte * option error → M (list byte) A) :
  (∀ peekBytes, M_cut tl (K (peekBytes, None))) →
  (∀ peekBytes e, M_sets (K (peekBytes, Some e))) →
  M_cut tl (bind (stream_Peek n) K).
Proof.
  intros Hnone Hsets. split.
  { apply M_keeps_bind; [apply M_keeps_stream_Peek|].
    intros [peekBytes [e|]]; [|apply Hnone].
    intros p a p' HK _. by eapply Hsets. }
  intros [l e j] [l2 e2 j2] a p1' (Hl & He & Hj).
  cbn [stream reachedEOF frameJustEnded] in *. subst l2 e2 j2.
  unfold bind, stream_Peek. cbn [stream Peek list_ReadPeeker].
  unfold list_Peek. destruct (Nat.ltb_spec (length l) n) as [Hshort|Hlong].
  - intros HK. left. by eapply Hsets.
  - destruct (Nat.ltb_spec (length (l ++ tl)) n) as [Hshort|_].
    { rewrite length_app in Hshort. lia. }
    rewrite take_app_le by done. cbn [reachedEOF frameJustEnded].
    intros HK.
    by apply (proj2 (Hnone (take n l)) (State l e j) (State (l ++ tl) e j)).
Qed.

(** A [ReadByte] whose error sets [reachedEOF]. *)
Lemma M_cut_ReadByte {A} (K : byte * option error → M (list byte) A) :
  (∀ c, M_cut tl (K (c, None))) →
  (∀ c e, M_sets (K (c, Some e))) →
  M_cut tl (bind stream_ReadByte K).
Proof.
  intros Hnone Hsets. split.
  { apply M_keeps_bind; [apply M_keeps_stream_ReadByte|].
    intros [c [e|]]; [|apply Hnone].
    intros p a p' HK _. by eapply Hsets. }
  intros [l e j] [l2 e2 j2] a p1' (Hl & He & Hj).
  cbn [stream reachedEOF frameJustEnded] in *. subst l2 e2 j2.
  unfold bind, stream_ReadByte. cbn [stream ReadByte list_ReadPeeker].
  destruct l as [|c rest]; cbn [list_ReadByte app reachedEOF frameJustEnded].
  - intros HK. left. by eapply Hsets.
  - intros HK.
    by apply (proj2 (Hnone c) (State rest e j) (State (rest ++ tl) e j)).
Qed.

Lemma M_sets_set_reachedEOF {A} (a : A) : M_sets (set_reachedEOF >> ret a).
Proof. by intros p a' p' [= _ <-]. Qed.

Lemma M_cut_scanEOL : M_cut tl scanEOL.
Proof.
  split; [apply M_keeps_scanEOL|].
  intros [l e j] [l2 e2 j2] found p1' (Hl & He & Hj).
  cbn [stream reachedEOF frameJustEnded] in *. subst l2 e2 j2.
  destruct (scanEOL_cases_list l e j) as (found1 & l1 & e1 & -> & Hcases1).
  destruct (scanEOL_cases_list (l ++ tl) e j)
    as (found2 & l2 & e2 & -> & Hcases2).
  intros [= <- <-]. destruct l as [|c1 [|c2 rest]].
  - destruct Hcases1 as (_ & _ & ->). by left.
  - destruct Hcases1 as (_ & _ & ->). by left.
  - cbn [app] in Hcases2. right.
    destruct Hcases1 as [-> Hcases1], Hcases2 as [-> Hcases2].
    case_bool_decide; [|case_bool_decide];
      destruct Hcases1 as [-> ->], Hcases2 as [-> ->];
      eexists; (split; [done|]); by split.
Qed.

Ltac cut_step :=
  match goal with
  | |- M_cut _ (bind (stream_Peek _) _) =>
      apply M_cut_Peek; [intros ?|intros ? ?]; cbn [is_err]
  | |- M_cut _ (bind stream_ReadByte _) =>
      apply M_cut_ReadByte; [intros ?|intros ? ?]; cbn [is_err]
  | |- M_cut _ (bind _ _) => apply M_cut_bind; [|intros ?]
  | |- M_cut _ (if ?b then _ else _) => destruct b
  | |- M_cut _ (match ?x with _ => _ end) => destruct x
  | |- M_cut _ (ret _) => apply M_cut_ret
  | |- M_cut _ fail => apply M_cut_fail
  | |- M_cut _ (index _ _) => apply M_cut_index
  | |- M_cut _ get_reachedEOF => apply M_cut_get_reachedEOF
  | |- M_cut _ get_frameJustEnded => apply M_cut_get_frameJustEnded
  | |- M_cut _ set_reachedEOF => apply M_cut_set_reachedEOF
  | |- M_cut _ (set_frameJustEnded _) => apply M_cut_set_frameJustEnded
  | |- M_sets (bind set_reachedEOF (λ _, ret _)) =>
      apply M_sets_set_reachedEOF
  | |- M_cut _ _ => assumption
  end.

Lemma M_cut_scanHeaderSeparator : M_cut tl scanHeaderSeparator.
Proof. unfold scanHeaderSeparator. repeat cut_step. Qed.

Lemma M_cut_skipEOLs fuel : M_cut tl (skipEOLs fuel).
Proof.
  pose proof M_cut_scanEOL. induction fuel; simpl; repeat cut_step.
Qed.

Lemma M_cut_scanTillDelimiter_from fuel literal :
  M_cut tl (scanTillDelimiter_from fuel literal).
Proof.
  revert literal. induction fuel as [|fuel IH]; intros literal;
    cbn [scanTillDelimiter_from]; repeat cut_step. apply IH.
Qed.

Lemma M_cut_scanTillTerminator_from fuel literal term :
  M_cut tl (scanTillTerminator_from fuel literal term).
Proof.
  pose proof M_cut_scanEOL. pose proof M_cut_scanHeaderSeparator.
  revert literal term. induction fuel as [|fuel IH]; intros literal term;
    cbn [scanTillTerminator_from]; repeat cut_step; try apply IH.
  intros q res q'. cbn [bind set_reachedEOF].
  rewrite scanTillTerminator_from_done by (by right). by intros [= _ <-].
Qed.

Lemma M_cut_ext {A} (c c' : M (list byte) A) :
  (∀ p, c p = c' p) → M_cut tl c' → M_cut tl c.
Proof.
  intros Heq [Hkeeps Hcut]. split.
  - intros p a p'. rewrite Heq. apply Hkeeps.
  - intros p1 p2 a p1' Hp. rewrite !Heq. by apply Hcut.
Qed.

Lemma M_cut_nextToken_skip fuel : M_cut tl (nextToken_skip fuel).
Proof.
  pose proof (M_cut_skipEOLs fuel). unfold nextToken_skip. repeat cut_step.
Qed.

Lemma M_cut_nextToken_scan fuel : M_cut tl (nextToken_scan fuel).
Proof.
  split; [apply M_keeps_nextToken_scan|].
  pose proof M_cut_scanEOL as HscanEOL.
  pose proof (M_cut_scanTillDelimiter_from fuel []) as Hbody.
  pose proof (M_cut_scanTillTerminator_from fuel [] NO_TERMINATOR) as Hline.
  intros [l e j] [l2 e2 j2] tok p1' (Hl & He & Hj).
  cbn [stream reachedEOF frameJustEnded] in *. subst l2 e2 j2.
  destruct l as [|c rest].
  { intros [= <- <-]. by left. }
  cbn [app]. unfold nextToken_scan, scanTillDelimiter, scanTillTerminator.
  mred. case_bool_decide as HNUL.
  { mred. intros [= <- <-]. right. eexists. split; [done|]. by split. }
  assert (∀ (F : M (list byte) (TokenType * list byte)) l',
            M_cut tl F →
            F (State l' e j) = Some (tok, p1') →
            reachedEOF p1' = true ∨
            ∃ p2', F (State (l' ++ tl) e j) = Some (tok, p2') ∧
                   cut_short tl p1' p2') as Hrun.
  { intros F l' HF HFl.
    by apply (proj2 HF (State l' e j) (State (l' ++ tl) e j)). }
  destruct (bool_decide (c = CR) || bool_decide (c = LF)).
  { apply (Hrun _ (c :: rest)). repeat cut_step. }
  case_bool_decide as HCOLON; mred.
  - apply (Hrun _ rest). repeat cut_step.
  - apply (Hrun _ (c :: rest)). repeat cut_step.
Qed.

Lemma M_cut_nextToken fuel : M_cut tl (nextToken fuel).
Proof.
  apply (M_cut_ext _ (nextToken_skip fuel >> nextToken_scan fuel)).
  { apply nextToken_parts. }
  apply M_cut_bind; [apply M_cut_nextToken_skip|].
  intros _. apply M_cut_nextToken_scan.
Qed.

Lemma M_cut_NextFrame_headers fuel rounds tok headers :
  M_cut tl (NextFrame_headers fuel rounds tok headers).
Proof.
  pose proof (M_cut_nextToken fuel).
  revert tok headers. induction rounds as [|rounds IH]; intros [ty lit] headers;
    cbn [NextFrame_headers]; repeat cut_step. apply IH.
Qed.

Lemma M_cut_NextFrame fuel : M_cut tl (NextFrame fuel).
Proof.
  pose proof (M_cut_nextToken fuel).
  unfold NextFrame. repeat cut_step. apply M_cut_NextFrame_headers.
Qed.

End CutShort.

(** If a call on a stream takes all of it, the call on the stream cut
    short anywhere returns [Frame{}] with [io.EOF]. *)
Lemma NextFrame_cut_short fuel (l tl : list byte) e j res e' j' :
  tl ≠ [] →
  NextFrame fuel (State (l ++ tl) e j) = Some (res, State [] e' j') →
  length l < fuel →
  ∃ q, NextFrame fuel (State l e j) = Some ((Frame_zero, Some io_EOF), q) ∧
       reachedEOF q = true.
Proof.
  intros Htl Hfull Hfuel.
  destruct (NextFrame_total fuel (State l e j) Hfuel)
    as (frame & err & q & Hcall & _ & _ & Hout).
  assert (reachedEOF q = true) as Hreached.
  { destruct (proj2 (M_cut_NextFrame tl fuel) (State l e j)
                (State (l ++ tl) e j) _ _ ltac:(by split) Hcall)
      as [?|(p2' & Hcall2 & Hl & _)]; [done|].
    rewrite Hfull in Hcall2. injection Hcall2 as _ <-.
    cbn [stream] in Hl. by destruct (stream q). }
  exists q. split; [|done]. rewrite Hcall. unfold outcome_ok in Hout.
  destruct err as [[| | |message]|].
  - by destruct Hout as [-> _].
  - done.
  - done.
  - destruct Hout as (_ & Hlive & _). congruence.
  - destruct Hout as (Hlive & _). congruence.
Qed.
(** C5.  A stream that ends before a frame does: when what is unread is
    a well-formed frame cut short anywhere (after any byte but the last,
    or before the first), the call returns [Frame{}] with [io.EOF] and
    nothing of the frame begun.  And in general a call returns; if the
    lexer has reported the end of the stream by the time it does, it
    returns [Frame{}] with [io.EOF], which is no [ParseError]; and
    [io.EOF] is returned in no other case. *)
Theorem NextFrame_end_of_stream {Src : Type} `{ReaderSpec Src} (fuel : nat)
    (p : StompParser (bufioReader Src)) :
  parser_ok p → length (unread (stream p)) < fuel →
  (∀ (w : WireFrame) (tl : list byte),
     well_formed w = true →
     frame_bytes w = unread (stream p) ++ tl → tl ≠ [] →
     length (frame_bytes w) < fuel →
     ∃ p', NextFrame fuel p = Some ((Frame_zero, Some io_EOF), p') ∧
           reachedEOF p' = true) ∧
  ∃ frame err p',
    NextFrame fuel p = Some ((frame, err), p') ∧
    (reachedEOF p' = true →
     frame = Frame_zero ∧ err = Some io_EOF ∧
     ∀ message, err ≠ Some (ParseError message)) ∧
    (err = Some io_EOF → reachedEOF p' = true).
Proof.
  intros Hok Hfuel. split; [|by apply NextFrame_reports_reachedEOF].
  intros w tl Hw Hbytes Htl Hlong.
  assert (∃ q, NextFrame fuel (view p) = Some ((Frame_zero, Some io_EOF), q) ∧
               reachedEOF q = true) as (q & Hlist & Hreached).
  { rewrite view_State. destruct (reachedEOF p) eqn:Hentry.
    - destruct (NextFrame_total fuel
                  (State (unread (stream p)) true (frameJustEnded p)) Hfuel)
        as (frame & err & q & Hcall & _ & Hmono & Hout).
      specialize (Hmono eq_refl). exists q. split; [|done].
      rewrite Hcall. unfold outcome_ok in Hout.
      destruct err as [[| | |message]|].
      + by destruct Hout as [-> _].
      + done.
      + done.
      + destruct Hout as (_ & Hlive & _). congruence.
      + destruct Hout as (Hlive & _). congruence.
    - pose proof (NextFrame_frame fuel w [] (frameJustEnded p) Hw) as Hfull.
      rewrite app_nil_r, Hbytes in Hfull.
      rewrite Hbytes in Hlong. specialize (Hfull Hlong).
      by apply (NextFrame_cut_short fuel _ tl false _ _ _ _ Htl Hfull). }
  destruct (NextFrame_on_view fuel p _ q Hok Hlist) as (p' & Hcall & _ & Hview).
  exists p'. split; [done|]. by rewrite <- Hview in Hreached.
Qed.



(** ** The further properties at concrete streams *)

Lemma mock_parser_ok (testData : list byte) : parser_ok (mock_parser testData).
Proof. apply NewStompParserFromReader_ok. simpl. lia. Qed.

Lemma unread_mock_parser (testData : list byte) :
  unread (stream (mock_parser testData)) = testData.
Proof. done. Qed.

Lemma NextFrame_Command_known_witness :
  ∃ p',
    NextFrame 100 (mock_parser (frame_bytes example_CONNECT))
    = Some ((frame_of example_CONNECT, None), p') ∧
    (1 ≤ Command (frame_of example_CONNECT) ≤ 15)%Z ∧
    ∃ verb, commands !! verb = Some (Command (frame_of example_CONNECT)).
Proof.
  destruct (NextFrame_well_formed 100
              (mock_parser (frame_bytes example_CONNECT)) example_CONNECT []
              (mock_parser_ok _) eq_refl ltac:(by vm_compute)
              ltac:(by vm_compute) ltac:(vm_compute; lia))
    as (p' & Hcall & _).
  exists p'. split; [exact Hcall|].
  exact (NextFrame_Command_known 100 _ p' _ Hcall).
Defined.

Lemma scanHeaderSeparator_peeks_witness :
  parser_ok (mock_parser (bytes_of_string ":1.2")) ∧
  ∃ p',
    scanHeaderSeparator (mock_parser (bytes_of_string ":1.2"))
    = Some (true, p') ∧
    unread (stream p') = bytes_of_string ":1.2" ∧ reachedEOF p' = false.
Proof.
  split; [apply mock_parser_ok|].
  destruct (scanHeaderSeparator_peeks (mock_parser (bytes_of_string ":1.2"))
              (mock_parser_ok _)) as (p' & Hscan & _ & Hl & He & _).
  exists p'. split; [exact Hscan|]. split; [exact Hl|exact He].
Defined.

Lemma skipEOLs_run_witness :
  parser_ok (mock_parser ([LF; CR; LF] ++ bytes_of_string "SEND")) ∧
  length (unread (stream (mock_parser
            ([LF; CR; LF] ++ bytes_of_string "SEND")))) < 10 ∧
  ∃ ks p',
    skipEOLs 10 (mock_parser ([LF; CR; LF] ++ bytes_of_string "SEND"))
    = Some (tt, p') ∧
    [LF; CR; LF] ++ bytes_of_string "SEND"
    = concat (map eol_bytes ks) ++ unread (stream p') ∧
    no_EOL_ahead (unread (stream p')).
Proof.
  split; [apply mock_parser_ok|].
  assert (length (unread (stream (mock_parser
            ([LF; CR; LF] ++ bytes_of_string "SEND")))) < 10) as Hfuel
    by (vm_compute; lia).
  split; [exact Hfuel|].
  destruct (skipEOLs_run 10 _ (mock_parser_ok _) Hfuel)
    as (ks & p' & Hskip & _ & Hl & Hahead & _).
  exists ks, p'. split; [exact Hskip|]. split; [exact Hl|exact Hahead].
Defined.

Lemma scanTillTerminator_consumed_witness :
  parser_ok (mock_parser (bytes_of_string "host:a")) ∧
  reachedEOF (mock_parser (bytes_of_string "host:a")) = false ∧
  length (unread (stream (mock_parser (bytes_of_string "host:a")))) < 10 ∧
  ∃ literal term p',
    scanTillTerminator 10 (mock_parser (bytes_of_string "host:a"))
    = Some ((literal, term), p') ∧
    (COLON ∉ literal) ∧
    terminated term literal (bytes_of_string "host:a") (unread (stream p'))
      (reachedEOF p').
Proof.
  split; [apply mock_parser_ok|]. split; [reflexivity|].
  assert (length (unread (stream (mock_parser (bytes_of_string "host:a")))) < 10)
    as Hfuel by (vm_compute; lia).
  split; [exact Hfuel|].
  destruct (scanTillTerminator_consumed 10 _ (mock_parser_ok _) eq_refl Hfuel)
    as (literal & term & p' & Hscan & _ & Hliteral & Hterm & _).
  exists literal, term, p'.
  split; [exact Hscan|]. split; [exact Hliteral|exact Hterm].
Defined.

Lemma nextToken_consumed_witness :
  parser_ok (mock_parser (frame_bytes example_CONNECT)) ∧
  ∃ p',
    nextToken 100 (mock_parser (frame_bytes example_CONNECT))
    = Some ((COMMAND, bytes_of_string "CONNECT"), p') ∧
    reachedEOF p' = false ∧
    ∃ ks consumed,
      unread (stream (mock_parser (frame_bytes example_CONNECT)))
      = concat (map eol_bytes ks) ++ consumed ++ unread (stream p') ∧
      token_bytes COMMAND (bytes_of_string "CONNECT") consumed
        (unread (stream p')).
Proof.
  split; [apply mock_parser_ok|].
  assert (∃ q, nextToken 100 (view (mock_parser (frame_bytes example_CONNECT)))
               = Some ((COMMAND, bytes_of_string "CONNECT"), q) ∧
               reachedEOF q = false) as (q & Hlist & Hq).
  { eexists. split; [by vm_compute|done]. }
  destruct (nextToken_on_view 100 _ _ q (mock_parser_ok _) Hlist)
    as (p' & Htoken & _ & Hview).
  assert (reachedEOF p' = false) as Hlive by (by rewrite <- Hview in Hq).
  exists p'. split; [exact Htoken|]. split; [exact Hlive|].
  destruct (nextToken_consumed 100 _ p' _ _ (mock_parser_ok _) Htoken Hlive)
    as (ks & consumed & Hl & _ & Hbytes & _).
  exists ks, consumed. split; [exact Hl|exact Hbytes].
Defined.

Lemma NextFrame_frame_of_grammar_witness :
  parser_ok (mock_parser (frame_bytes example_MESSAGE)) ∧
  ∃ p',
    NextFrame 200 (mock_parser (frame_bytes example_MESSAGE))
    = Some ((frame_of example_MESSAGE, None), p') ∧
    ∃ ks w,
      unread (stream (mock_parser (frame_bytes example_MESSAGE)))
      = concat (map eol_bytes ks) ++ frame_bytes w ++ unread (stream p') ∧
      accepted w = true ∧ frame_of example_MESSAGE = frame_of w.
Proof.
  split; [apply mock_parser_ok|].
  destruct (NextFrame_well_formed 200
              (mock_parser (frame_bytes example_MESSAGE)) example_MESSAGE []
              (mock_parser_ok _) eq_refl ltac:(by vm_compute)
              ltac:(by vm_compute) ltac:(vm_compute; lia))
    as (p' & Hcall & _).
  exists p'. split; [exact Hcall|].
  destruct (NextFrame_frame_of_grammar 200 _ p' _ (mock_parser_ok _) Hcall)
    as (ks & w & Hl & _ & Hw & Hframe & _).
  exists ks, w. split; [exact Hl|]. split; [exact Hw|exact Hframe].
Defined.

Lemma NextFrame_nothing_unread_witness :
  parser_ok (mock_parser []) ∧ unread (stream (mock_parser [])) = [] ∧ 0 < 1 ∧
  ∃ p', NextFrame 1 (mock_parser []) = Some ((Frame_zero, Some io_EOF), p') ∧
        parser_ok p' ∧ unread (stream p') = [] ∧ reachedEOF p' = true.
Proof.
  split; [apply mock_parser_ok|]. split; [reflexivity|]. split; [lia|].
  exact (NextFrame_nothing_unread 1 (mock_parser []) (mock_parser_ok _)
           eq_refl ltac:(lia)).
Defined.

Lemma reachedEOF_is_permanent_witness :
  ∃ p1 p2,
    NextFrame 1 (mock_parser []) = Some ((Frame_zero, Some io_EOF), p1) ∧
    reachedEOF p1 = true ∧
    NextFrame 1 p1 = Some ((Frame_zero, Some io_EOF), p2) ∧
    reachedEOF p2 = true.
Proof.
  destruct (NextFrame_on_view 1 (mock_parser []) (Frame_zero, Some io_EOF)
              (State [] true false) (mock_parser_ok _) eq_refl)
    as (p1 & Hfirst & Hok1 & Hview1).
  assert (reachedEOF p1 = true) as Hreached by (by injection Hview1).
  assert (NextFrame 1 (view p1)
          = Some ((Frame_zero, Some io_EOF), State [] true false)) as Hlist
    by (by rewrite Hview1).
  destruct (NextFrame_on_view 1 p1 _ _ Hok1 Hlist) as (p2 & Hsecond & _).
  exists p1, p2. split; [exact Hfirst|]. split; [exact Hreached|].
  split; [exact Hsecond|].
  exact (proj2 (proj2 (reachedEOF_is_permanent 1 p1 p2 _ _ Hreached Hsecond))).
Defined.

Lemma NextFrame_ParseError_messages_witness :
  parser_ok (mock_parser (bytes_of_string "connect" ++ [LF; LF; NUL])) ∧
  length (unread (stream (mock_parser
            (bytes_of_string "connect" ++ [LF; LF; NUL])))) < 20 ∧
  ∃ frame err p',
    NextFrame 20 (mock_parser (bytes_of_string "connect" ++ [LF; LF; NUL]))
    = Some ((frame, err), p') ∧
    err ≠ Some (ParseError "Frames must end with a null byte").
Proof.
  split; [apply mock_parser_ok|].
  assert (length (unread (stream (mock_parser
            (bytes_of_string "connect" ++ [LF; LF; NUL])))) < 20) as Hfuel
    by (vm_compute; lia).
  split; [exact Hfuel|].
  destruct (NextFrame_ParseError_messages 20 _ (mock_parser_ok _) Hfuel)
    as (frame & err & p' & Hcall & Herr & _).
  exists frame, err, p'. split; [exact Hcall|exact Herr].
Defined.

Lemma lone_CR_wedges_witness :
  parser_ok (mock_parser (CR :: bytes_of_string "SEND")) ∧
  ∃ p',
    drain 10 3 (mock_parser (CR :: bytes_of_string "SEND"))
    = Some (replicate 3
              (Frame_zero, Some (ParseError "Frame must begin with a command")),
            p') ∧
    unread (stream p') = CR :: bytes_of_string "SEND".
Proof.
  split; [apply mock_parser_ok|].
  destruct (lone_CR_wedges 10 3 (mock_parser (CR :: bytes_of_string "SEND"))
              "S"%byte (bytes_of_string "END") (mock_parser_ok _) eq_refl
              eq_refl ltac:(discriminate) ltac:(lia))
    as (p' & Hdrain & _ & Hl & _).
  exists p'. split; [exact Hdrain|exact Hl].
Defined.

Lemma unknown_verb_is_rejected_witness :
  parser_ok (mock_parser (bytes_of_string "connect" ++ [LF; LF; NUL])) ∧
  name_ok (bytes_of_string "connect") = true ∧
  isCommand (bytes_of_string "connect") = false ∧
  ∃ p',
    NextFrame 20 (mock_parser (bytes_of_string "connect" ++ [LF; LF; NUL]))
    = Some ((Frame_zero, Some (ParseError "Frame must begin with a command")),
            p') ∧
    unread (stream p') = [LF; NUL].
Proof.
  split; [apply mock_parser_ok|].
  assert (name_ok (bytes_of_string "connect") = true) as Hword
    by (by vm_compute).
  assert (isCommand (bytes_of_string "connect") = false) as Hverb
    by (by vm_compute).
  split; [exact Hword|]. split; [exact Hverb|].
  destruct (unknown_verb_is_rejected 20
              (mock_parser (bytes_of_string "connect" ++ [LF; LF; NUL]))
              (bytes_of_string "connect") eol_LF LF [NUL]
              (mock_parser_ok _) eq_refl eq_refl Hword Hverb
              ltac:(vm_compute; lia))
    as (p' & Hcall & _ & Hl & _).
  exists p'. split; [exact Hcall|exact Hl].
Defined.

Lemma colon_in_header_value_is_rejected_witness :
  parser_ok (mock_parser (bytes_of_string "SEND" ++ [LF] ++
                          bytes_of_string "host:a:b" ++ [LF; LF; NUL])) ∧
  ∃ p',
    NextFrame 30 (mock_parser (bytes_of_string "SEND" ++ [LF] ++
                               bytes_of_string "host:a:b" ++ [LF; LF; NUL]))
    = Some ((Frame_zero, Some (ParseError "Headers must have values")), p') ∧
    unread (stream p') = bytes_of_string ":b" ++ [LF; LF; NUL].
Proof.
  split; [apply mock_parser_ok|].
  assert (isCommand (bytes_of_string "SEND") = true) as Hcommand
    by (by vm_compute).
  destruct (colon_in_header_value_is_rejected 30
              (mock_parser (bytes_of_string "SEND" ++ [LF] ++
                            bytes_of_string "host:a:b" ++ [LF; LF; NUL]))
              (bytes_of_string "SEND") eol_LF [] (bytes_of_string "host")
              (bytes_of_string "a") "b"%byte [LF; LF; NUL]
              (mock_parser_ok _) eq_refl eq_refl Hcommand eq_refl
              eq_refl eq_refl ltac:(vm_compute; lia))
    as (p' & Hcall & _ & Hl & _).
  exists p'. split; [exact Hcall|exact Hl].
Defined.

Lemma blank_lines_before_frame_witness :
  ∃ p1 p2,
    NextFrame 200
      (mock_parser (frame_bytes example_CONNECT ++ [LF; CR; LF] ++
                    frame_bytes example_MESSAGE))
    = Some ((frame_of example_CONNECT, None), p1) ∧
    parser_ok p1 ∧ frameJustEnded p1 = true ∧
    unread (stream p1) = [LF; CR; LF] ++ frame_bytes example_MESSAGE ∧
    NextFrame 200 p1 = Some ((frame_of example_MESSAGE, None), p2) ∧
    unread (stream p2) = [].
Proof.
  assert (well_formed example_CONNECT = true) as Hw1 by (by vm_compute).
  assert (well_formed example_MESSAGE = true) as Hw2 by (by vm_compute).
  destruct (NextFrame_well_formed 200
              (mock_parser (frame_bytes example_CONNECT ++ [LF; CR; LF] ++
                            frame_bytes example_MESSAGE))
              example_CONNECT ([LF; CR; LF] ++ frame_bytes example_MESSAGE)
              (mock_parser_ok _) eq_refl Hw1 eq_refl ltac:(vm_compute; lia))
    as (p1 & Hfirst & Hok1 & Hrest & Hlive & Hboundary).
  assert (unread (stream p1)
          = concat (map eol_bytes [eol_LF; eol_CRLF]) ++
            frame_bytes example_MESSAGE ++ []) as Hstream.
  { rewrite Hrest. by vm_compute. }
  assert (length (unread (stream p1)) < 200) as Hfuel.
  { rewrite Hrest. vm_compute. lia. }
  destruct (blank_lines_before_frame 200 p1 [eol_LF; eol_CRLF] example_MESSAGE
              [] Hok1 Hlive Hboundary Hstream Hw2 Hfuel)
    as (p2 & Hsecond & _ & Hl & _).
  exists p1, p2. split; [exact Hfirst|]. split; [exact Hok1|].
  split; [exact Hboundary|]. split; [exact Hrest|].
  split; [exact Hsecond|exact Hl].
Defined.

Lemma mock_Reads_deliver_witness :
  32 ≤ 4096 ∧ length (frame_bytes example_CONNECT) ≤ 40 ∧
  mock_Reads 40 4096 (mockTCPStream_of (frame_bytes example_CONNECT))
  = frame_bytes example_CONNECT.
Proof.
  assert (32 ≤ 4096) as Hroom by lia.
  assert (length (frame_bytes example_CONNECT) ≤ 40) as Hk
    by (vm_compute; lia).
  split; [exact Hroom|]. split; [exact Hk|].
  exact (mock_Reads_deliver (frame_bytes example_CONNECT) 40 4096 Hroom Hk).
Defined.

Lemma drain_any_chunking_witness :
  reader_ok (mockTCPStream_of (frame_bytes example_MESSAGE)) ∧
  reader_ok (unchunkedStream_of (frame_bytes example_MESSAGE)) ∧
  pending (mockTCPStream_of (frame_bytes example_MESSAGE))
  = pending (unchunkedStream_of (frame_bytes example_MESSAGE)) ∧
  fst <$> drain 200 2
            (NewStompParserFromReader
               (mockTCPStream_of (frame_bytes example_MESSAGE)))
  = fst <$> drain 200 2
              (NewStompParserFromReader
                 (unchunkedStream_of (frame_bytes example_MESSAGE))).
Proof.
  assert (reader_ok (mockTCPStream_of (frame_bytes example_MESSAGE))) as Hok1
    by (simpl; lia).
  assert (reader_ok (unchunkedStream_of (frame_bytes example_MESSAGE))) as Hok2
    by exact I.
  assert (pending (mockTCPStream_of (frame_bytes example_MESSAGE))
          = pending (unchunkedStream_of (frame_bytes example_MESSAGE)))
    as Hpending by reflexivity.
  split; [exact Hok1|]. split; [exact Hok2|]. split; [exact Hpending|].
  exact (drain_any_chunking _ _ 200 2 Hok1 Hok2 Hpending).
Defined.

Lemma scanTillDelimiter_consumed_witness :
  parser_ok (mock_parser (bytes_of_string "body" ++ [NUL; LF])) ∧
  length (unread (stream (mock_parser
            (bytes_of_string "body" ++ [NUL; LF])))) < 10 ∧
  ∃ literal p',
    scanTillDelimiter 10 (mock_parser (bytes_of_string "body" ++ [NUL; LF]))
    = Some (literal, p') ∧
    bytes_of_string "body" ++ [NUL; LF] = literal ++ unread (stream p') ∧
    (NUL ∉ literal).
Proof.
  split; [apply mock_parser_ok|].
  assert (length (unread (stream (mock_parser
            (bytes_of_string "body" ++ [NUL; LF])))) < 10) as Hfuel
    by (vm_compute; lia).
  split; [exact Hfuel|].
  destruct (scanTillDelimiter_consumed 10 _ (mock_parser_ok _) Hfuel)
    as (literal & p' & Hscan & _ & Hl & Hliteral & _).
  exists literal, p'. split; [exact Hscan|]. split; [exact Hl|exact Hliteral].
Defined.

Lemma nextToken_NULL_TOKEN_witness :
  parser_ok (mock_parser []) ∧
  ∃ p',
    nextToken 1 (mock_parser []) = Some ((NULL_TOKEN, []), p') ∧
    unread (stream p') = [] ∧ reachedEOF p' = true.
Proof.
  split; [apply mock_parser_ok|].
  destruct (nextToken_on_view 1 (mock_parser []) (NULL_TOKEN, [])
              (State [] true false) (mock_parser_ok _) eq_refl)
    as (p' & Htoken & _).
  exists p'. split; [exact Htoken|].
  destruct (nextToken_NULL_TOKEN 1 _ p' _ (mock_parser_ok _) Htoken)
    as (_ & Hl & He & _).
  split; [exact Hl|exact He].
Defined.

Lemma missing_blank_line_is_rejected_witness :
  parser_ok (mock_parser (bytes_of_string "CONNECT" ++ [LF; NUL])) ∧
  ∃ p',
    NextFrame 20 (mock_parser (bytes_of_string "CONNECT" ++ [LF; NUL]))
    = Some ((Frame_zero, Some (ParseError "Frames must contain bodies")), p') ∧
    unread (stream p') = [].
Proof.
  split; [apply mock_parser_ok|].
  assert (isCommand (bytes_of_string "CONNECT") = true) as Hcommand
    by (by vm_compute).
  destruct (missing_blank_line_is_rejected 20
              (mock_parser (bytes_of_string "CONNECT" ++ [LF; NUL]))
              (bytes_of_string "CONNECT") eol_LF [] []
              (mock_parser_ok _) eq_refl eq_refl Hcommand eq_refl
              ltac:(vm_compute; lia))
    as (p' & Hcall & _ & Hl & _).
  exists p'. split; [exact Hcall|exact Hl].
Defined.

Lemma empty_header_name_is_rejected_witness :
  parser_ok (mock_parser (bytes_of_string "SEND" ++ [LF] ++
                          bytes_of_string ":value" ++ [LF; LF; NUL])) ∧
  ∃ p',
    NextFrame 30 (mock_parser (bytes_of_string "SEND" ++ [LF] ++
                               bytes_of_string ":value" ++ [LF; LF; NUL]))
    = Some ((Frame_zero, Some (ParseError "Frames must contain bodies")), p') ∧
    unread (stream p') = [LF; NUL].
Proof.
  split; [apply mock_parser_ok|].
  assert (isCommand (bytes_of_string "SEND") = true) as Hcommand
    by (by vm_compute).
  destruct (empty_header_name_is_rejected 30
              (mock_parser (bytes_of_string "SEND" ++ [LF] ++
                            bytes_of_string ":value" ++ [LF; LF; NUL]))
              (bytes_of_string "SEND") eol_LF [] (bytes_of_string "value")
              eol_LF LF [NUL]
              (mock_parser_ok _) eq_refl eq_refl Hcommand eq_refl eq_refl
              ltac:(vm_compute; lia))
    as (p' & Hcall & _ & Hl & _).
  exists p'. split; [exact Hcall|exact Hl].
Defined.

Lemma drain_frames_apart_witness :
  reader_ok (mockTCPStream_of
               (stream_bytes example_CONNECT
                  [([eol_LF; eol_CRLF], example_MESSAGE)] [eol_LF])) ∧
  length (stream_bytes example_CONNECT
            [([eol_LF; eol_CRLF], example_MESSAGE)] [eol_LF]) < 200 ∧
  ∃ p', drain 200 3
          (NewStompParserFromReader
             (mockTCPStream_of
                (stream_bytes example_CONNECT
                   [([eol_LF; eol_CRLF], example_MESSAGE)] [eol_LF])))
        = Some ([(frame_of example_CONNECT, None);
                 (frame_of example_MESSAGE, None);
                 (Frame_zero, Some io_EOF)], p').
Proof.
  assert (reader_ok (mockTCPStream_of
                       (stream_bytes example_CONNECT
                          [([eol_LF; eol_CRLF], example_MESSAGE)] [eol_LF])))
    as Hreader by (simpl; lia).
  assert (length (stream_bytes example_CONNECT
                    [([eol_LF; eol_CRLF], example_MESSAGE)] [eol_LF]) < 200)
    as Hfuel by (vm_compute; lia).
  assert (well_formed example_CONNECT = true) as Hw by (by vm_compute).
  assert (forallb (λ sw : list eol_kind * WireFrame, well_formed sw.2)
            [([eol_LF; eol_CRLF], example_MESSAGE)] = true) as Hws
    by (by vm_compute).
  split; [exact Hreader|]. split; [exact Hfuel|].
  exact (drain_frames_apart
           (mockTCPStream_of
              (stream_bytes example_CONNECT
                 [([eol_LF; eol_CRLF], example_MESSAGE)] [eol_LF]))
           example_CONNECT [([eol_LF; eol_CRLF], example_MESSAGE)] [eol_LF]
           200 Hreader eq_refl Hw Hws Hfuel).
Defined.

Lemma NextFrame_looks_two_bytes_ahead_witness :
  longest (stream (parser_over {| logged := frame_bytes example_CONNECT;
                             longest := 0 |})) ≤ 2 ∧
  ∃ p',
    NextFrame 100 (parser_over {| logged := frame_bytes example_CONNECT;
                             longest := 0 |})
    = Some ((frame_of example_CONNECT, None), p') ∧
    longest (stream p') ≤ 2.
Proof.
  assert (longest (stream (parser_over {| logged := frame_bytes example_CONNECT;
                                     longest := 0 |})) ≤ 2) as Hlongest
    by (simpl; lia).
  split; [exact Hlongest|].
  assert (∃ p', NextFrame 100 (parser_over {| logged := frame_bytes example_CONNECT;
                                         longest := 0 |})
                = Some ((frame_of example_CONNECT, None), p')) as [p' Hcall]
    by (eexists; by vm_compute).
  exists p'. split; [exact Hcall|].
  exact (proj1 (NextFrame_looks_two_bytes_ahead 100 _ p' _ Hlongest Hcall)).
Defined.

Lemma drain_consumes_a_prefix_witness :
  parser_ok (mock_parser (frame_bytes example_CONNECT ++
                          bytes_of_string "SEND")) ∧
  ∃ results p' consumed,
    drain 200 2 (mock_parser (frame_bytes example_CONNECT ++
                              bytes_of_string "SEND"))
    = Some (results, p') ∧
    unread (stream (mock_parser (frame_bytes example_CONNECT ++
                                 bytes_of_string "SEND")))
    = consumed ++ unread (stream p').
Proof.
  split; [apply mock_parser_ok|].
  assert (length (stream (view (mock_parser (frame_bytes example_CONNECT ++
                                             bytes_of_string "SEND")))) < 200)
    as Hfuel by (vm_compute; lia).
  destruct (drain_total 200 2 _ Hfuel) as [[results q] Hlist].
  destruct (drain_on_view 200 2 _ results q (mock_parser_ok _) Hlist)
    as (p' & Hdrain & _).
  destruct (drain_consumes_a_prefix 200 2 _ p' results (mock_parser_ok _)
              Hdrain) as [consumed Hl].
  exists results, p', consumed. split; [exact Hdrain|exact Hl].
Defined.

Lemma NextFrame_end_of_stream_witness :
  parser_ok (mock_parser (bytes_of_string "CONNECT" ++ [LF] ++
                          bytes_of_string "accept-ver")) ∧
  length (unread (stream (mock_parser
            (bytes_of_string "CONNECT" ++ [LF] ++
             bytes_of_string "accept-ver")))) < 100 ∧
  well_formed example_CONNECT = true ∧
  frame_bytes example_CONNECT
  = unread (stream (mock_parser (bytes_of_string "CONNECT" ++ [LF] ++
                                 bytes_of_string "accept-ver")))
    ++ (bytes_of_string "sion:1.2" ++ [LF; LF; NUL]) ∧
  length (frame_bytes example_CONNECT) < 100 ∧
  ∃ p',
    NextFrame 100 (mock_parser (bytes_of_string "CONNECT" ++ [LF] ++
                                bytes_of_string "accept-ver"))
    = Some ((Frame_zero, Some io_EOF), p') ∧
    reachedEOF p' = true.
Proof.
  assert (length (unread (stream (mock_parser
            (bytes_of_string "CONNECT" ++ [LF] ++
             bytes_of_string "accept-ver")))) < 100) as Hfuel
    by (vm_compute; lia).
  assert (well_formed example_CONNECT = true) as Hw by (by vm_compute).
  assert (frame_bytes example_CONNECT
          = unread (stream (mock_parser (bytes_of_string "CONNECT" ++ [LF] ++
                                         bytes_of_string "accept-ver")))
            ++ (bytes_of_string "sion:1.2" ++ [LF; LF; NUL])) as Hbytes
    by (by vm_compute).
  assert (length (frame_bytes example_CONNECT) < 100) as Hlong
    by (vm_compute; lia).
  split; [apply mock_parser_ok|]. split; [exact Hfuel|]. split; [exact Hw|].
  split; [exact Hbytes|]. split; [exact Hlong|].
  exact (proj1 (NextFrame_end_of_stream 100 _ (mock_parser_ok _) Hfuel)
           example_CONNECT _ Hw Hbytes ltac:(discriminate) Hlong).
Defined.
